(** * Embedding generator of the MovieLens DiskANN demo

    A shallow embedding of [generate_embeddings-orig.py]: the per-field
    normalizers of [generate_user_embeddings], the concatenate / resize /
    normalize pipeline shared by both generators, the text handed to the
    sentence encoder, and the batch loop with its try/except, periodic
    commit and final commit.

    Python floats are read as real numbers ([R]): rounding is left out,
    and so are overflow to infinity, underflow to zero and NaN, which a
    double reaches only for entries far outside what a sentence encoder
    or a rating produces (see [encoder_bound]).  What is said of lengths,
    positions and order does not depend on this reading.  Integers coming
    from the store are read as [Z]; SQL NULL / Python [None] as [option];
    strings as [string].

    The store, the sentence encoder and scikit-learn's [LabelEncoder] are
    collaborators of the script.  The encoder is a function that may
    raise.  The store is a relation behind a psycopg2 connection in its
    default mode: one open transaction until [conn.commit()], aborted by a
    rejected statement.  [LabelEncoder] is written out from its documented
    behaviour (sorted distinct classes, position lookup). *)

From Stdlib Require Import String Ascii.
From Stdlib Require Import Reals Lra Lia ZArith Bool Arith List.
From Stdlib Require Import OrderedTypeEx Sorted Permutation.
Import ListNotations.

Open Scope R_scope.

(** ** Python truthiness *)

Module Truthy.

(** [bool(x)] for an integer. *)
Definition int (x : Z) : bool := negb (x =? 0)%Z.

(** [bool(x)] for a float read as a real. *)
Definition float (x : R) : bool := if Req_dec_T x 0 then false else true.

(** [bool(s)] for a string. *)
Definition str (s : string) : bool :=
  match s with EmptyString => false | _ => true end.

(** [x or d] where [x] may be [None]. *)
Definition int_or (x : option Z) (d : Z) : Z :=
  match x with
  | Some v => if int v then v else d
  | None => d
  end.

Definition float_or (x : option R) (d : R) : R :=
  match x with
  | Some v => if float v then v else d
  | None => d
  end.

End Truthy.

(** ** Vectors *)

Definition vec := list R.

(** [np.linalg.norm v]. *)
Definition sum_sq (v : vec) : R := fold_right (fun x acc => x * x + acc) 0 v.
Definition norm (v : vec) : R := sqrt (sum_sq v).

(** [np.pad(v, (0, k))] for a non-negative [k]. *)
Definition pad_right (v : vec) (k : nat) : vec := v ++ repeat 0 k.

(** [np.pad(v, (0, n - len(v)))]: numpy raises [ValueError] on a negative
    width, which is [None] here. *)
Definition np_pad_to (n : nat) (v : vec) : option vec :=
  if (n <? length v)%nat then None else Some (pad_right v (n - length v)).

(** The two-branch resize of [generate_movie_embeddings]:
    [if len(v) > n: v = v[:n] else: v = np.pad(v, (0, n - len(v)))]. *)
Definition resize (n : nat) (v : vec) : vec :=
  if (n <? length v)%nat then firstn n v else pad_right v (n - length v).

(** [n = np.linalg.norm(v); if n > 0: v = v / n], over the reals: the
    norm is zero only for the zero vector and never infinite. *)
Definition normalize (v : vec) : vec :=
  if Rlt_dec 0 (norm v) then map (fun x => x / norm v) v else v.

(** ** Feature fusion *)

(** Lines 100-111 of [generate_movie_embeddings]: concatenate the groups in
    the order given, resize to 128, normalize. *)
Definition fuse (groups : list vec) : vec :=
  normalize (resize 128 (concat groups)).

(** Lines 228-240 of [generate_user_embeddings]: concatenate, pad (there is
    no truncation branch on this path), normalize. *)
Definition fuse_user (groups : list vec) : option vec :=
  match np_pad_to 128 (concat groups) with
  | Some v => Some (normalize v)
  | None => None
  end.

(** ** Normalizers of [generate_user_embeddings] *)

(** [(age - 18) / (73 - 18) if age else 0.5]. *)
Definition age_normalized (age : option Z) : R :=
  match age with
  | Some a => if Truthy.int a then (IZR a - 18) / (73 - 18) else 0.5
  | None => 0.5
  end.

(** [1.0 if gender == 'M' else 0.0]. *)
Definition gender_encoded (gender : option string) : R :=
  match gender with
  | Some g => if (g =? "M")%string then 1 else 0
  | None => 0
  end.

(** [min(num_ratings / 100.0, 1.0)] after [num_ratings = num_ratings or 0]. *)
Definition rating_count_feature (num_ratings : option Z) : R :=
  Rmin (IZR (Truthy.int_or num_ratings 0) / 100) 1.

(** [(avg_rating - 1) / 4] after [avg_rating = avg_rating or 2.5]. *)
Definition avg_rating_feature (avg_rating : option R) : R :=
  (Truthy.float_or avg_rating 2.5 - 1) / 4.

(** [min(rating_stddev / 2.0, 1.0)] after [rating_stddev = rating_stddev or 0]. *)
Definition rating_stddev_feature (rating_stddev : option R) : R :=
  Rmin (Truthy.float_or rating_stddev 0 / 2) 1.

Definition rating_features (num_ratings : option Z)
    (avg_rating rating_stddev : option R) : vec :=
  [ rating_count_feature num_ratings;
    avg_rating_feature avg_rating;
    rating_stddev_feature rating_stddev ].

(** One entry of the genre preference vector:
    [np.where(pd.isna(p), 2.5, p)] then [(p - 1) / 4]. *)
Definition genre_pref_feature (p : option R) : R :=
  (match p with Some v => v | None => 2.5 end - 1) / 4.

Definition genre_pref_vector (prefs : list (option R)) : vec :=
  map genre_pref_feature prefs.

(** ** Occupation encoding *)

(** [np.unique] as used by [LabelEncoder.fit]: the distinct values in
    ascending order. *)
Fixpoint insert_unique (s : string) (l : list string) : list string :=
  match l with
  | [] => [s]
  | x :: rest =>
      match String.compare s x with
      | Lt => s :: l
      | Eq => l
      | Gt => x :: insert_unique s rest
      end
  end.

Definition np_unique (l : list string) : list string :=
  fold_right insert_unique [] l.

Module LabelEncoder.

(** [fit(y)] stores [classes_ = np.unique(y)]. *)
Definition fit (y : list string) : list string := np_unique y.

(** Position of [y] in [classes_]; [None] stands for the [ValueError]
    scikit-learn raises on a label it has not seen. *)
Fixpoint index_of (y : string) (classes : list string) : option nat :=
  match classes with
  | [] => None
  | c :: rest =>
      if (y =? c)%string then Some O
      else option_map S (index_of y rest)
  end.

(** [transform([y])[0]]. *)
Definition transform (classes : list string) (y : string) : option nat :=
  index_of y classes.

End LabelEncoder.

(** [list(set(l))].  CPython leaves the iteration order of a set
    unspecified; this enumeration keeps the last occurrence of each value.
    [occupation_encoded_enumeration] below shows that the encoding does not
    depend on which enumeration is taken. *)
Definition list_set (l : list string) : list string := nodup string_dec l.

(** [o in occupations]. *)
Definition mem (o : string) (l : list string) : bool :=
  existsb (String.eqb o) l.

(** Lines 205-208.  [None] stands for an exception raised by
    [transform]; the guard makes it unreachable. *)
Definition occupation_encoded (occupations : list string)
    (occupation : option string) : option R :=
  match occupation with
  | Some o =>
      if Truthy.str o && mem o occupations then
        match LabelEncoder.transform (LabelEncoder.fit occupations) o with
        | Some k => Some (INR k / INR (length occupations))
        | None => None
        end
      else Some 0
  | None => Some 0
  end.

(** ** Rows *)

(** One tuple of the first SELECT of [generate_user_embeddings].  The three
    aggregates are computed by the store from the ratings relation, which
    the script only reads. *)
Record user_row := {
  user_id : Z;
  age : option Z;
  gender : option string;
  occupation : option string;
  num_ratings : option Z;
  avg_rating : option R;
  rating_stddev : option R
}.

(** One tuple of the SELECT of [generate_movie_embeddings]. *)
Record movie_row := {
  movie_id : Z;
  title : string;
  genre_action : bool; genre_adventure : bool; genre_animation : bool;
  genre_children : bool; genre_comedy : bool; genre_crime : bool;
  genre_documentary : bool; genre_drama : bool; genre_fantasy : bool;
  genre_film_noir : bool; genre_horror : bool; genre_musical : bool;
  genre_mystery : bool; genre_romance : bool; genre_sci_fi : bool;
  genre_thriller : bool; genre_war : bool; genre_western : bool
}.

(** [genres = movie[2:]]. *)
Definition genres (m : movie_row) : list bool :=
  [ genre_action m; genre_adventure m; genre_animation m; genre_children m;
    genre_comedy m; genre_crime m; genre_documentary m; genre_drama m;
    genre_fantasy m; genre_film_noir m; genre_horror m; genre_musical m;
    genre_mystery m; genre_romance m; genre_sci_fi m; genre_thriller m;
    genre_war m; genre_western m ].

(** ** Text and genre vector of a movie *)

Definition genre_names : list string :=
  [ "action"; "adventure"; "animation"; "children"; "comedy"; "crime";
    "documentary"; "drama"; "fantasy"; "film noir"; "horror"; "musical";
    "mystery"; "romance"; "sci-fi"; "thriller"; "war"; "western" ]%string.

(** [enumerate(l)] counting from [i]. *)
Fixpoint enumerate_from {A : Type} (i : nat) (l : list A) : list (nat * A) :=
  match l with
  | [] => []
  | x :: rest => (i, x) :: enumerate_from (S i) rest
  end.

Definition enumerate {A : Type} (l : list A) : list (nat * A) :=
  enumerate_from 0 l.

(** [[genre_names[j] for j, is_active in enumerate(genres) if is_active]].
    [genre_names[j]] is in range for every [j] the loop reaches, because
    [movie[2:]] holds the 18 flags of the SELECT
    (see [active_genres_lookup_in_range]). *)
Definition active_genres (flags : list bool) : list string :=
  flat_map
    (fun p : nat * bool =>
       if snd p then [nth (fst p) genre_names EmptyString] else [])
    (enumerate flags).

(** [' '.join(l)]. *)
Definition join_spaces (l : list string) : string := String.concat " " l.

(** [' '.join(active_genres) if active_genres else 'general']. *)
Definition genre_text (flags : list bool) : string :=
  match active_genres flags with
  | [] => "general"%string
  | names => join_spaces names
  end.

(** [f"{title} {genre_text}"]. *)
Definition text_for_embedding (m : movie_row) : string :=
  (title m ++ " " ++ genre_text (genres m))%string.

(** [np.array(genres, dtype=float)]. *)
Definition genre_vector (flags : list bool) : vec :=
  map (fun b : bool => if b then 1 else 0) flags.

(** Lines 94-111: the encoder's output resized to 110 entries, the genre
    vector appended, and the result fused at 128. *)
Definition combined_embedding (text_embedding : vec) (m : movie_row) : vec :=
  fuse [resize 110 text_embedding; genre_vector (genres m)].

(** ** Features of a user *)

(** [{row[0]: row[1:] for row in genre_prefs}] followed by
    [.get(user_id, default)]: a later row for the same key replaces an
    earlier one. *)
Definition dict_get {A : Type} (rows : list (Z * A)) (k : Z) (default : A) : A :=
  match find (fun r => (fst r =? k)%Z) (rev rows) with
  | Some r => snd r
  | None => default
  end.

Definition demographic (occupations : list string) (u : user_row)
    : option vec :=
  match occupation_encoded occupations (occupation u) with
  | Some occ => Some [age_normalized (age u); gender_encoded (gender u); occ]
  | None => None
  end.

(** The three groups concatenated on lines 228-232, in that order; [None]
    stands for an exception inside the [try]. *)
Definition user_features (occupations : list string)
    (genre_pref_dict : list (Z * list (option R))) (u : user_row)
    : option (list vec) :=
  match demographic occupations u with
  | Some demo =>
      Some
        [ demo;
          rating_features (num_ratings u) (avg_rating u) (rating_stddev u);
          genre_pref_vector
            (dict_get genre_pref_dict (user_id u) (repeat None 18)) ]
  | None => None
  end.

(** Lines 196-240. *)
Definition user_embedding (occupations : list string)
    (genre_pref_dict : list (Z * list (option R))) (u : user_row)
    : option vec :=
  match user_features occupations genre_pref_dict u with
  | Some groups => fuse_user groups
  | None => None
  end.

(** [[user[3] for user in users if user[3]]]. *)
Definition observed_occupations (users : list user_row) : list string :=
  flat_map
    (fun u => match occupation u with
              | Some o => if Truthy.str o then [o] else []
              | None => []
              end)
    users.

(** [occupations = list(set(...))], line 186. *)
Definition occupations_of (users : list user_row) : list string :=
  list_set (observed_occupations users).

(** ** What a run does to the outside world *)

(** Calls on the collaborators and log lines, in program order. *)
Inductive event :=
| LogProcessing (total : nat)          (* "Processing {len(rows)} ..." *)
| Encode (text : string)               (* model.encode(text_for_embedding) *)
| UpdateEmbedding (id : Z) (v : vec)   (* cursor.execute("UPDATE ... SET embedding") *)
| LogProgress (done total : nat)       (* "Processed {i + 1}/{len(rows)} ..." *)
| Commit                               (* conn.commit() *)
| LogError (id : Z)                    (* "Error processing ... {id}: {e}" *)
| LogGenerated (n : nat).              (* "Generated embeddings for {n} ..." *)

(** The writes of a trace, in order. *)
Definition updates (tr : list event) : list (Z * vec) :=
  flat_map (fun e => match e with
                     | UpdateEmbedding id v => [(id, v)]
                     | _ => []
                     end) tr.


(** The identifiers reported by error lines, in order. *)
Definition errors (tr : list event) : list Z :=
  flat_map (fun e => match e with LogError id => [id] | _ => [] end) tr.

(** For every [Commit] of a trace, how many entities the loop had finished
    with (written or reported as an error) when it was issued. *)
Fixpoint commit_points_from (seen : nat) (tr : list event) : list nat :=
  match tr with
  | [] => []
  | Commit :: rest => seen :: commit_points_from seen rest
  | UpdateEmbedding _ _ :: rest => commit_points_from (S seen) rest
  | LogError _ :: rest => commit_points_from (S seen) rest
  | _ :: rest => commit_points_from seen rest
  end.

Definition commit_points (tr : list event) : list nat :=
  commit_points_from 0 tr.

(** ** The store *)

Section Store.

Context {Row : Type}.
Variable ident : Row -> Z.

(** A relation with an embedding column, NULL until written. *)
Definition table := list (Row * option vec).

Fixpoint insert_by_id (x : Row) (l : list Row) : list Row :=
  match l with
  | [] => [x]
  | y :: rest =>
      if (ident x <=? ident y)%Z then x :: l
      else y :: insert_by_id x rest
  end.

(** The order of [ORDER BY id]. *)
Definition id_le (a b : Row) : Prop := (ident a <= ident b)%Z.

(** [SELECT <raw columns> ... ORDER BY id]: the embedding column is not
    among the selected columns. *)
Definition select_ordered (t : table) : list Row :=
  fold_right insert_by_id [] (map fst t).

(** [UPDATE ... SET embedding = v WHERE id = k]. *)
Definition update_embedding (k : Z) (v : vec) (t : table) : table :=
  map (fun r => if (ident (fst r) =? k)%Z then (fst r, Some v) else r) t.

(** A list of writes applied in order. *)
Definition apply_updates (us : list (Z * vec)) (t : table) : table :=
  fold_left (fun t u => update_embedding (fst u) (snd u) t) us t.

(** The embedding column of one row after a list of writes. *)
Definition final_embedding (us : list (Z * vec)) (row : Row)
    (e : option vec) : option vec :=
  fold_left (fun e u => if (ident row =? fst u)%Z then Some (snd u) else e)
    us e.

End Store.

(** ** The batch loop *)

Record run_state := {
  embeddings_generated : nat;
  trace : list event
}.

Section BatchLoop.

Context {Row : Type}.
Variable ident : Row -> Z.

(** The [try] body up to and including [cursor.execute]: the texts it
    hands to the encoder, and the vector written, or [None] when something
    in the body raised. *)
Variable try_body : Row -> list string * option vec.

Definition succeeds (row : Row) : bool :=
  match snd (try_body row) with Some _ => true | None => false end.

(** One iteration of [for i, row in enumerate(rows)]. *)
Definition iteration (total i : nat) (row : Row) (st : run_state)
    : run_state :=
  match snd (try_body row) with
  | Some v =>
      {| embeddings_generated := S (embeddings_generated st);
         trace :=
           trace st ++ map Encode (fst (try_body row))
             ++ [UpdateEmbedding (ident row) v]
             ++ (if ((i + 1) mod 100 =? 0)%nat
                 then [LogProgress (i + 1) total; Commit]
                 else []) |}
  | None =>
      {| embeddings_generated := embeddings_generated st;
         trace :=
           trace st ++ map Encode (fst (try_body row))
             ++ [LogError (ident row)] |}
  end.

Fixpoint for_each (total i : nat) (rows : list Row) (st : run_state)
    : run_state :=
  match rows with
  | [] => st
  | row :: rest => for_each total (S i) rest (iteration total i row st)
  end.

(** The whole function: log the row count, loop, commit, report. *)
Definition run_batch (rows : list Row) : list event :=
  let st :=
    for_each (length rows) 0 rows
      {| embeddings_generated := 0;
         trace := [LogProcessing (length rows)] |} in
  trace st ++ [Commit; LogGenerated (embeddings_generated st)].

(** What one iteration appends to the trace. *)
Definition iteration_events (total i : nat) (row : Row) : list event :=
  map Encode (fst (try_body row))
    ++ match snd (try_body row) with
       | Some v =>
           UpdateEmbedding (ident row) v
             :: (if ((i + 1) mod 100 =? 0)%nat
                 then [LogProgress (i + 1) total; Commit]
                 else [])
       | None => [LogError (ident row)]
       end.

Fixpoint loop_events (total i : nat) (rows : list Row) : list event :=
  match rows with
  | [] => []
  | row :: rest => iteration_events total i row ++ loop_events total (S i) rest
  end.

(** The write of a row, if its body went through. *)
Definition written (row : Row) : list (Z * vec) :=
  match snd (try_body row) with
  | Some v => [(ident row, v)]
  | None => []
  end.

End BatchLoop.

(** The commit points of the loop, read off the outcomes of the rows: the
    [i]-th row (counting from 0) is followed by a commit when it went
    through and [i + 1] is a multiple of 100. *)
Fixpoint chunk_commits (i : nat) (outcomes : list bool) : list nat :=
  match outcomes with
  | [] => []
  | ok :: rest =>
      (if ok && ((i + 1) mod 100 =? 0)%nat then [(i + 1)%nat] else [])
        ++ chunk_commits (S i) rest
  end.

(** ** The two generators *)

Section Generators.

(** [model.encode]; [None] when it raises. *)
Variable encode : string -> option vec.

(** Whether the [cursor.execute] of a row returns in the run at hand.  It
    raises when the server rejects the UPDATE and also, the handlers doing
    no rollback, for every UPDATE issued after a rejected one.  The loop
    below is the function given these outcomes; the session further down
    derives them, and what is durably stored, from the server's own
    verdicts ([outcome_in_run]). *)
Variable execute_ok : Z -> vec -> bool.

(** The write at the end of the [try] body. *)
Definition persist (id : Z) (v : vec) : option vec :=
  if execute_ok id v then Some v else None.

(** Lines 79-116: the text is built before the [try], the rest is its body. *)
Definition movie_try_body (m : movie_row) : list string * option vec :=
  ( [text_for_embedding m],
    match encode (text_for_embedding m) with
    | Some text_embedding =>
        persist (movie_id m) (combined_embedding text_embedding m)
    | None => None
    end ).

Definition generate_movie_embeddings (movies : table) : list event :=
  run_batch movie_id movie_try_body (select_ordered movie_id movies).

(** Lines 195-245. *)
Definition user_try_body (occupations : list string)
    (genre_pref_dict : list (Z * list (option R))) (u : user_row)
    : list string * option vec :=
  ( [],
    match user_embedding occupations genre_pref_dict u with
    | Some v => persist (user_id u) v
    | None => None
    end ).

(** [genre_prefs] is the result of the second SELECT, computed by the
    store from relations the script only reads. *)
Definition generate_user_embeddings
    (genre_prefs : list (Z * list (option R))) (users : table)
    : list event :=
  let rows := select_ordered user_id users in
  run_batch user_id
    (user_try_body (occupations_of rows) genre_prefs) rows.

End Generators.

(** ** The store with its transaction *)

(** psycopg2 leaves the connection in its default mode: every statement
    runs inside one open transaction until [conn.commit()].  When the
    server rejects a statement the transaction is aborted: every later
    statement raises ("current transaction is aborted") until the
    transaction ends, and a commit of an aborted transaction is a rollback.
    Neither [except] handler of the generators rolls back. *)

Section Transaction.

Context {Store : Type}.

(** [UPDATE ... SET embedding = v WHERE id = k] applied to the relation. *)
Variable write : Z -> vec -> Store -> Store.

(** Whether the server accepts that statement. *)
Variable accepts : Z -> vec -> bool.

Record session := {
  durable : Store;   (* what is committed *)
  pending : Store;   (* what the open transaction sees *)
  aborted : bool     (* a statement of the open transaction was rejected *)
}.

Definition open_session (s : Store) : session :=
  {| durable := s; pending := s; aborted := false |}.

(** [cursor.execute] of the UPDATE: whether it returned, and the session
    after it. *)
Definition execute_update (k : Z) (v : vec) (c : session) : bool * session :=
  if aborted c then (false, c)
  else if accepts k v then
    (true,
     {| durable := durable c;
        pending := write k v (pending c);
        aborted := false |})
  else
    (false,
     {| durable := durable c; pending := pending c; aborted := true |}).

(** [conn.commit()]: it makes the pending writes durable, or, on an
    aborted transaction, ends it without them (the server answers COMMIT
    with ROLLBACK and nothing is raised).  A commit that raises, as on a
    lost connection, is not part of the model. *)
Definition commit (c : session) : session :=
  if aborted c then
    {| durable := durable c; pending := durable c; aborted := false |}
  else
    {| durable := pending c; pending := pending c; aborted := false |}.

Record session_state := {
  generated : nat;          (* embeddings_generated *)
  events : list event;
  conn : session
}.

Context {Row : Type}.
Variable ident : Row -> Z.

(** The [try] body before [cursor.execute]: the texts handed to the
    encoder and the vector to write, or [None] when computing it raised. *)
Variable embed : Row -> list string * option vec.

(** One iteration of the loop, on the session. *)
Definition session_iteration (total i : nat) (row : Row)
    (st : session_state) : session_state :=
  match snd (embed row) with
  | Some v =>
      let r := execute_update (ident row) v (conn st) in
      if fst r then
        {| generated := S (generated st);
           events :=
             events st ++ map Encode (fst (embed row))
               ++ [UpdateEmbedding (ident row) v]
               ++ (if ((i + 1) mod 100 =? 0)%nat
                   then [LogProgress (i + 1) total; Commit]
                   else []);
           conn :=
             if ((i + 1) mod 100 =? 0)%nat then commit (snd r) else snd r |}
      else
        {| generated := generated st;
           events :=
             events st ++ map Encode (fst (embed row))
               ++ [LogError (ident row)];
           conn := snd r |}
  | None =>
      {| generated := generated st;
         events :=
           events st ++ map Encode (fst (embed row))
             ++ [LogError (ident row)];
         conn := conn st |}
  end.

Fixpoint session_for_each (total i : nat) (rows : list Row)
    (st : session_state) : session_state :=
  match rows with
  | [] => st
  | row :: rest =>
      session_for_each total (S i) rest (session_iteration total i row st)
  end.

(** The whole function on a store: its events, and what is durable once
    it has returned. *)
Definition run_session (rows : list Row) (s0 : Store)
    : list event * Store :=
  let st :=
    session_for_each (length rows) 0 rows
      {| generated := 0;
         events := [LogProcessing (length rows)];
         conn := open_session s0 |} in
  (events st ++ [Commit; LogGenerated (generated st)],
   durable (commit (conn st))).

End Transaction.

(** The relation as durably stored after a run over its rows in
    identifier order. *)
Definition stored_after {Row : Type} (accepts : Z -> vec -> bool)
    (ident : Row -> Z) (embed : Row -> list string * option vec)
    (t : @table Row) : @table Row :=
  snd (run_session (update_embedding ident) accepts ident embed
         (select_ordered ident t) t).

(** Lines 85-111 and 196-240: the part of each [try] body that computes the
    vector. *)
Definition movie_embed (encode : string -> option vec) (m : movie_row)
    : list string * option vec :=
  ( [text_for_embedding m],
    match encode (text_for_embedding m) with
    | Some text_embedding => Some (combined_embedding text_embedding m)
    | None => None
    end ).

Definition user_embed (occupations : list string)
    (genre_pref_dict : list (Z * list (option R))) (u : user_row)
    : list string * option vec :=
  ([], user_embedding occupations genre_pref_dict u).

(** The two generators on a store that behaves as above: the events, and
    the relation as durably stored afterwards. *)
Definition movies_session (encode : string -> option vec)
    (accepts : Z -> vec -> bool) (movies : @table movie_row)
    : list event * @table movie_row :=
  run_session (update_embedding movie_id) accepts movie_id
    (movie_embed encode) (select_ordered movie_id movies) movies.

Definition users_session (accepts : Z -> vec -> bool)
    (genre_prefs : list (Z * list (option R))) (users : @table user_row)
    : list event * @table user_row :=
  let rows := select_ordered user_id users in
  run_session (update_embedding user_id) accepts user_id
    (user_embed (occupations_of rows) genre_prefs) rows users.

(** Recording a write instead of applying it. *)
Definition record_write (k : Z) (v : vec) (ws : list (Z * vec))
    : list (Z * vec) :=
  ws ++ [(k, v)].

(** The writes that are durable at the end of a run, in the order they
    were issued: the run on a store that only records its writes. *)
Definition surviving_writes {Row : Type} (accepts : Z -> vec -> bool)
    (ident : Row -> Z) (embed : Row -> list string * option vec)
    (rows : list Row) : list (Z * vec) :=
  snd (run_session record_write accepts ident embed rows []).

(** A session and a loop state seen through a map of the store. *)
Definition map_session {S1 S2 : Type} (h : S1 -> S2) (c : @session S1)
    : @session S2 :=
  {| durable := h (durable c);
     pending := h (pending c);
     aborted := aborted c |}.

Definition map_state {S1 S2 : Type} (h : S1 -> S2) (st : @session_state S1)
    : @session_state S2 :=
  {| generated := generated st;
     events := events st;
     conn := map_session h (conn st) |}.

(** A row whose vector is computed and whose UPDATE the store accepts. *)
Definition goes_through {Row : Type} (accepts : Z -> vec -> bool)
    (ident : Row -> Z) (embed : Row -> list string * option vec)
    (r : Row) : Prop :=
  exists v, snd (embed r) = Some v /\ accepts (ident r) v = true.

(** The relation as it is durably stored once the function has returned;
    [execute_ok] says which UPDATE statements the server accepts. *)
Definition movies_after (encode : string -> option vec)
    (execute_ok : Z -> vec -> bool) (movies : @table movie_row)
    : @table movie_row :=
  snd (movies_session encode execute_ok movies).

Definition users_after (execute_ok : Z -> vec -> bool)
    (genre_prefs : list (Z * list (option R))) (users : @table user_row)
    : @table user_row :=
  snd (users_session execute_ok genre_prefs users).

(** ** Rank of a category *)

(** The order [np.unique] sorts strings by. *)
Definition str_lt (a b : string) : Prop := String.compare a b = Lt.

(** The rank of [o] in a universe of distinct categories: the number of
    members that sort strictly before it. *)
Definition rank_in (universe : list string) (o : string) : nat :=
  length (filter (fun x => String.ltb x o) universe).

(** ** Declared ranges of the raw values *)

(** An age between 18 and 73, the bounds of line 202. *)
Definition age_in_range (age : option Z) : Prop :=
  match age with Some a => (18 <= a <= 73)%Z | None => True end.

(** A rating, or a mean of ratings, on the scale 1 to 5. *)
Definition rating_in_range (x : option R) : Prop :=
  match x with Some v => 1 <= v <= 5 | None => True end.

Definition count_in_range (n : option Z) : Prop :=
  match n with Some k => (0 <= k)%Z | None => True end.

Definition stddev_in_range (s : option R) : Prop :=
  match s with Some v => 0 <= v | None => True end.

(** The preference columns of a user, as line 218 reads them. *)
Definition prefs_of (genre_pref_dict : list (Z * list (option R)))
    (u : user_row) : list (option R) :=
  dict_get genre_pref_dict (user_id u) (repeat None 18).

Definition user_in_range (genre_pref_dict : list (Z * list (option R)))
    (u : user_row) : Prop :=
  age_in_range (age u)
  /\ count_in_range (num_ratings u)
  /\ rating_in_range (avg_rating u)
  /\ stddev_in_range (rating_stddev u)
  /\ Forall rating_in_range (prefs_of genre_pref_dict u).

(** ** Shape of a stored vector *)

(** What the verifier expects of a stored vector: 128 entries, of norm 1
    unless all are zero. *)
Definition well_formed_embedding (v : vec) : Prop :=
  length v = 128%nat /\ (norm v = 1 \/ v = repeat 0 128).

(** ** The verifier *)

(** [embedding IS NOT NULL]. *)
Definition has_embedding {Row : Type} (re : Row * option vec) : bool :=
  match snd re with Some _ => true | None => false end.

(** [array_length(embedding, 1)]: NULL for a NULL column and for an empty
    array. *)
Definition array_length (e : option vec) : option nat :=
  match e with
  | Some (x :: rest) => Some (length (x :: rest))
  | _ => None
  end.

(** The non-NULL values of a column. *)
Definition non_null (xs : list (option nat)) : list nat :=
  flat_map (fun x => match x with Some n => [n] | None => [] end) xs.

(** [AVG] over the non-NULL values of a column; NULL when there is none. *)
Definition sql_avg (xs : list (option nat)) : option R :=
  match non_null xs with
  | [] => None
  | present =>
      Some (INR (fold_right Nat.add 0%nat present) / INR (length present))
  end.

(** The row count, [COUNT(embedding)] and
    [AVG(array_length(embedding, 1))] of lines 268-285. *)
Record table_stats := {
  total_rows : nat;
  rows_with_embeddings : nat;
  avg_embedding_dim : option R
}.

Definition embedding_stats {Row : Type} (t : @table Row) : table_stats :=
  {| total_rows := length t;
     rows_with_embeddings := length (filter has_embedding t);
     avg_embedding_dim := sql_avg (map (fun re => array_length (snd re)) t) |}.

(** The sample queries of lines 291-306.  Without an ORDER BY the store
    may return any three rows that have an embedding; the first three in
    table order are taken here. *)
Definition embedding_samples {Row : Type} (ident : Row -> Z) (t : @table Row)
    : list (Z * option nat) :=
  firstn 3
    (map (fun re => (ident (fst re), array_length (snd re)))
       (filter has_embedding t)).

(** What [verify_embeddings] logs. *)
Record verify_report := {
  movie_stats : table_stats;
  user_stats : table_stats;
  movie_samples : list (Z * option nat);
  user_samples : list (Z * option nat)
}.

Definition verify_embeddings (movies : @table movie_row)
    (users : @table user_row) : verify_report :=
  {| movie_stats := embedding_stats movies;
     user_stats := embedding_stats users;
     movie_samples := embedding_samples movie_id movies;
     user_samples := embedding_samples user_id users |}.

(** ** The command line entry point *)

(** What the connection gives access to: the names of the tables of the
    public schema, the two relations the script writes, and the result of
    the preference query over the relations it only reads. *)
Record database := {
  public_tables : list string;
  movies_table : @table movie_row;
  users_table : @table user_row;
  genre_prefs_view : list (Z * list (option R))
}.

(** How the process ends: [main] returns, [sys.exit(code)], or an
    exception leaves [main]. *)
Inductive exit_status :=
| Returned
| Exited (code : Z)
| Raised.

Inductive main_event :=
| PrintUsage                        (* the two usage lines *)
| LogConnectionError                (* "Error connecting to database: ..." *)
| LogMissingTables                  (* "Required tables ... not found ..." *)
| Ran (tr : list event)             (* one generator *)
| Verified (report : verify_report) (* verify_embeddings *)
| LogCompleted                      (* the closing lines *)
| LogFailure                        (* "Error during embedding generation: ..." *)
| Rollback                          (* conn.rollback() *)
| Close.                            (* conn.close() *)

Definition required_tables : list string :=
  ["users"; "movies"; "ratings"]%string.

(** The result of the [information_schema.tables] query of lines 325-329. *)
Definition found_tables (db : database) : list string :=
  filter (fun name => mem name required_tables) (public_tables db).

Section Main.

(** [psycopg2.connect]; [None] when it raises. *)
Variable connect_db : string -> option database.

(** [SentenceTransformer('all-MiniLM-L6-v2')]: the encoder, or [None]
    when loading the model raises. *)
Variable load_model : option (string -> option vec).

(** Which UPDATE statements the server accepts. *)
Variable execute_ok : Z -> vec -> bool.

(** The [try] block of [main] once the tables are known to exist. *)
Definition generate_and_verify (db : database)
    : list main_event * exit_status * database :=
  match load_model with
  | Some encode =>
      let movies' := movies_after encode execute_ok (movies_table db) in
      let users' :=
        users_after execute_ok (genre_prefs_view db) (users_table db) in
      ( [ Ran (fst (movies_session encode execute_ok (movies_table db)));
          Ran (fst (users_session execute_ok (genre_prefs_view db)
                      (users_table db)));
          Verified (verify_embeddings movies' users');
          LogCompleted;
          Close ],
        Returned,
        {| public_tables := public_tables db;
           movies_table := movies';
           users_table := users';
           genre_prefs_view := genre_prefs_view db |} )
  | None => ([LogFailure; Rollback; Close], Raised, db)
  end.

(** [main], with [sys.argv] as argument: the events, how the process
    ends, and the durable state of the store if a connection was made. *)
Definition main (argv : list string)
    : list main_event * exit_status * option database :=
  match argv with
  | [_; connection_string] =>
      match connect_db connection_string with
      | None => ([LogConnectionError], Exited 1, None)
      | Some db =>
          if (length (found_tables db) =? 3)%nat then
            let '(events, status, db') := generate_and_verify db in
            (events, status, Some db')
          else ([LogMissingTables; Close], Exited 1, Some db)
      end
  | _ => ([PrintUsage], Exited 1, None)
  end.

End Main.

(** Whether an event is one of the generators running. *)
Definition is_generator_run (e : main_event) : bool :=
  match e with Ran _ => true | _ => false end.

Definition is_close (e : main_event) : bool :=
  match e with Close => true | _ => false end.

Definition is_rollback (e : main_event) : bool :=
  match e with Rollback => true | _ => false end.

(** The rows whose [cursor.execute] returns in a run on the session:
    those whose vector is computed and accepted while no earlier UPDATE of
    the run was rejected. *)
Fixpoint returned_ids {Row : Type} (accepts : Z -> vec -> bool)
    (ident : Row -> Z) (embed : Row -> list string * option vec)
    (was_aborted : bool) (rows : list Row) : list Z :=
  match rows with
  | [] => []
  | r :: rest =>
      match snd (embed r) with
      | Some v =>
          if was_aborted then returned_ids accepts ident embed true rest
          else if accepts (ident r) v then
            ident r :: returned_ids accepts ident embed false rest
          else returned_ids accepts ident embed true rest
      | None => returned_ids accepts ident embed was_aborted rest
      end
  end.

(** The outcome of each [cursor.execute] as it occurs in the run over
    [rows], by identifier. *)
Definition outcome_in_run {Row : Type} (accepts : Z -> vec -> bool)
    (ident : Row -> Z) (embed : Row -> list string * option vec)
    (rows : list Row) (k : Z) (v : vec) : bool :=
  existsb (Z.eqb k) (returned_ids accepts ident embed false rows).

(** A [try] body: computing the vector, then [cursor.execute]. *)
Definition with_persist {Row : Type} (execute_ok : Z -> vec -> bool)
    (ident : Row -> Z) (embed : Row -> list string * option vec)
    (r : Row) : list string * option vec :=
  ( fst (embed r),
    match snd (embed r) with
    | Some v => persist execute_ok (ident r) v
    | None => None
    end ).

(** The largest magnitude of an encoder entry for which the squared norm
    of 128 entries stays within the range of a double. *)
Definition encoder_bound : R := 10 ^ 150.

(** An encoder output whose entries are finite numbers of magnitude at
    most [encoder_bound]. *)
Definition encoder_output_in_range (e : vec) : Prop :=
  Forall (fun x => - encoder_bound <= x <= encoder_bound) e.

(** ** Sample data *)

Module Sample.

Definition no_genre (id : Z) (t : string) : movie_row :=
  {| movie_id := id; title := t;
     genre_action := false; genre_adventure := false;
     genre_animation := false; genre_children := false;
     genre_comedy := false; genre_crime := false;
     genre_documentary := false; genre_drama := false;
     genre_fantasy := false; genre_film_noir := false;
     genre_horror := false; genre_musical := false;
     genre_mystery := false; genre_romance := false;
     genre_sci_fi := false; genre_thriller := false;
     genre_war := false; genre_western := false |}.

Definition toy_story : movie_row :=
  {| movie_id := 1; title := "Toy Story";
     genre_action := false; genre_adventure := false;
     genre_animation := true; genre_children := true;
     genre_comedy := false; genre_crime := false;
     genre_documentary := false; genre_drama := false;
     genre_fantasy := false; genre_film_noir := false;
     genre_horror := false; genre_musical := false;
     genre_mystery := false; genre_romance := false;
     genre_sci_fi := false; genre_thriller := false;
     genre_war := false; genre_western := false |}.

Definition untitled : movie_row := no_genre 2 "Untitled".

Definition heat : movie_row :=
  {| movie_id := 3; title := "Heat";
     genre_action := true; genre_adventure := false;
     genre_animation := false; genre_children := false;
     genre_comedy := false; genre_crime := true;
     genre_documentary := false; genre_drama := false;
     genre_fantasy := false; genre_film_noir := false;
     genre_horror := false; genre_musical := false;
     genre_mystery := false; genre_romance := false;
     genre_sci_fi := false; genre_thriller := true;
     genre_war := false; genre_western := false |}.

(** An encoder that raises on one text and returns a two-entry vector on
    every other. *)
Definition encode_except (bad : string) (text : string) : option vec :=
  if (text =? bad)%string then None else Some [3; 4].

(** A store that accepts every UPDATE. *)
Definition execute_always (id : Z) (v : vec) : bool := true.

(** A store whose UPDATE raises for one identifier. *)
Definition execute_except (bad : Z) (id : Z) (v : vec) : bool :=
  negb (id =? bad)%Z.

(** A user with nothing recorded but the identifier. *)
Definition bare_user (id : Z) : user_row :=
  {| user_id := id; age := None; gender := None; occupation := None;
     num_ratings := None; avg_rating := None; rating_stddev := None |}.

Definition user_with_occupation (id : Z) (o : string) : user_row :=
  {| user_id := id; age := Some 25%Z; gender := Some "F"%string;
     occupation := Some o; num_ratings := Some 50%Z;
     avg_rating := Some 3.5; rating_stddev := Some 1 |}.

(** Six users over five occupations, in no particular order. *)
Definition six_users : list user_row :=
  [ user_with_occupation 1 "student"; user_with_occupation 2 "engineer";
    user_with_occupation 3 "artist"; user_with_occupation 4 "lawyer";
    user_with_occupation 5 "doctor"; user_with_occupation 6 "engineer" ].

(** Users 1 .. n, none with an embedding yet. *)
Definition bare_users (n : nat) : @table user_row :=
  map (fun k => (bare_user (Z.of_nat k), None)) (seq 1 n).

End Sample.

(** * Properties *)

(** ** Normalizers *)

Lemma truthy_float_zero : Truthy.float 0 = false.
Proof. unfold Truthy.float. destruct (Req_dec_T 0 0); [reflexivity | contradiction]. Qed.

Lemma truthy_float_nonzero (x : R) : x <> 0 -> Truthy.float x = true.
Proof. intro H. unfold Truthy.float. destruct (Req_dec_T x 0); [contradiction | reflexivity]. Qed.

(** Inside the declared range the age feature is in the unit interval. *)
Lemma age_normalized_in_range (a : Z) :
  (18 <= a <= 73)%Z -> 0 <= age_normalized (Some a) <= 1.
Proof.
  intros [Hlo Hhi]. unfold age_normalized, Truthy.int.
  replace (a =? 0)%Z with false by (symmetry; apply Z.eqb_neq; lia).
  simpl. apply IZR_le in Hlo. apply IZR_le in Hhi. split.
  - apply Rmult_le_reg_r with (73 - 18); [lra|]. field_simplify; lra.
  - apply Rmult_le_reg_r with (73 - 18); [lra|]. field_simplify; lra.
Qed.

Lemma gender_encoded_unit (g : option string) : 0 <= gender_encoded g <= 1.
Proof.
  destruct g as [g|]; simpl; [destruct (g =? "M")%string|]; lra.
Qed.

(** [COUNT] is never negative. *)
Lemma rating_count_feature_unit (n : option Z) :
  (0 <= Truthy.int_or n 0)%Z -> 0 <= rating_count_feature n <= 1.
Proof.
  intro H. apply IZR_le in H. unfold rating_count_feature. split.
  - apply Rmin_glb; lra.
  - apply Rmin_r.
Qed.

Lemma rating_stddev_feature_unit (s : option R) :
  0 <= Truthy.float_or s 0 -> 0 <= rating_stddev_feature s <= 1.
Proof.
  intro H. unfold rating_stddev_feature. split.
  - apply Rmin_glb; lra.
  - apply Rmin_r.
Qed.

Lemma genre_pref_feature_unit (v : R) :
  1 <= v <= 5 -> 0 <= genre_pref_feature (Some v) <= 1.
Proof. intros [Hlo Hhi]. unfold genre_pref_feature. lra. Qed.

(** C2, evaluated on the code: the age formula has no clamp, so a recorded
    age below 18 gives a negative feature and one above 73 a feature above
    1.  Age 7 is the youngest age in the MovieLens 100K user file. *)
Theorem age_normalized_outside_unit_interval :
  age_normalized (Some 7%Z) = - (1 / 5)
  /\ age_normalized (Some 7%Z) < 0
  /\ age_normalized (Some 17%Z) < 0
  /\ 1 < age_normalized (Some 74%Z).
Proof.
  unfold age_normalized, Truthy.int. simpl. repeat split; lra.
Qed.

(** C3: an absent raw value gives the documented default and nothing
    raises: 0.5 for the age, 0.375 for a genre preference, 0 for the
    occupation and the gender, 0 for the rating count and the rating
    standard deviation; a user without a row in the preference query gets
    eighteen entries 0.375. *)
Theorem normalizer_defaults :
  age_normalized None = 0.5
  /\ genre_pref_feature None = 0.375
  /\ (forall occupations, occupation_encoded occupations None = Some 0)
  /\ gender_encoded None = 0
  /\ rating_count_feature None = 0
  /\ rating_stddev_feature None = 0
  /\ (forall id, genre_pref_vector (dict_get [] id (repeat None 18))
                 = repeat 0.375 18).
Proof.
  repeat split.
  - unfold genre_pref_feature. lra.
  - unfold rating_count_feature. simpl. rewrite Rmin_left; lra.
  - unfold rating_stddev_feature. simpl. rewrite Rmin_left; lra.
  - intro id. unfold dict_get, genre_pref_vector. simpl.
    assert (H : genre_pref_feature None = 0.375)
      by (unfold genre_pref_feature; lra).
    rewrite !H. reflexivity.
Qed.

(** C10: a recorded age of 0 is falsy, so it takes the branch of an absent
    age and yields 0.5, not the formula's value (0 - 18) / (73 - 18). *)
Theorem age_zero_treated_as_absent :
  age_normalized (Some 0%Z) = 0.5
  /\ age_normalized (Some 0%Z) = age_normalized None
  /\ age_normalized (Some 0%Z) <> (0 - 18) / (73 - 18).
Proof.
  unfold age_normalized, Truthy.int. simpl. repeat split. lra.
Qed.

(** ** Resize, norm and fusion *)

Lemma length_pad_right (v : vec) (k : nat) :
  length (pad_right v k) = (length v + k)%nat.
Proof. unfold pad_right. rewrite length_app, repeat_length. reflexivity. Qed.

Lemma length_resize (n : nat) (v : vec) : length (resize n v) = n.
Proof.
  unfold resize. destruct (n <? length v)%nat eqn:E.
  - apply Nat.ltb_lt in E. rewrite length_firstn. lia.
  - apply Nat.ltb_ge in E. rewrite length_pad_right. lia.
Qed.

Lemma length_normalize (v : vec) : length (normalize v) = length v.
Proof.
  unfold normalize. destruct (Rlt_dec 0 (norm v)); [apply length_map | reflexivity].
Qed.

(** Entry [i] of the resized vector is entry [i] of the original, read as 0
    past its end. *)
Lemma nth_resize (n i : nat) (v : vec) :
  (i < n)%nat -> nth i (resize n v) 0 = nth i v 0.
Proof.
  intro Hi. unfold resize. destruct (n <? length v)%nat eqn:E.
  - apply Nat.ltb_lt in E.
    rewrite <- (firstn_skipn n v) at 2.
    rewrite app_nth1; [reflexivity | rewrite length_firstn; lia].
  - unfold pad_right. destruct (Nat.lt_ge_cases i (length v)) as [Hl | Hl].
    + rewrite app_nth1 by exact Hl. reflexivity.
    + rewrite app_nth2 by exact Hl. rewrite nth_repeat.
      symmetry. apply nth_overflow. exact Hl.
Qed.

Lemma sum_sq_nonneg (v : vec) : 0 <= sum_sq v.
Proof.
  induction v as [| x v IH]; simpl; [lra |].
  pose proof (Rle_0_sqr x) as Hx. unfold Rsqr in Hx. lra.
Qed.

Lemma sum_sq_app (u v : vec) : sum_sq (u ++ v) = sum_sq u + sum_sq v.
Proof. induction u as [| x u IH]; simpl; [lra | rewrite IH; lra]. Qed.

Lemma sum_sq_repeat_zero (k : nat) : sum_sq (repeat 0 k) = 0.
Proof. induction k as [| k IH]; simpl; [reflexivity | rewrite IH; lra]. Qed.

Lemma sum_sq_zero_iff (v : vec) : sum_sq v = 0 <-> Forall (fun x => x = 0) v.
Proof.
  induction v as [| x v IH]; simpl.
  - split; [constructor | reflexivity].
  - pose proof (sum_sq_nonneg v) as Hv.
    pose proof (Rle_0_sqr x) as Hx. unfold Rsqr in Hx. split.
    + intro H. assert (Hxx : x * x = 0) by lra. assert (Hvv : sum_sq v = 0) by lra.
      constructor; [| apply IH; exact Hvv].
      destruct (Rmult_integral _ _ Hxx); assumption.
    + intro H. inversion H as [| ? ? Hx0 Hrest]; subst.
      apply IH in Hrest. rewrite Hrest. lra.
Qed.

Lemma sum_sq_scale (v : vec) (n : R) :
  n <> 0 -> sum_sq (map (fun x => x / n) v) = sum_sq v / (n * n).
Proof.
  intro Hn. induction v as [| x v IH]; simpl.
  - field. exact Hn.
  - rewrite IH. field. exact Hn.
Qed.

Lemma norm_nonneg (v : vec) : 0 <= norm v.
Proof. unfold norm. apply sqrt_pos. Qed.

Lemma all_zero_or_not (v : vec) :
  Forall (fun x => x = 0) v \/ Exists (fun x => x <> 0) v.
Proof.
  induction v as [| x v [IH | IH]].
  - left. constructor.
  - destruct (Req_dec_T x 0) as [Hx | Hx].
    + left. constructor; assumption.
    + right. apply Exists_cons_hd. exact Hx.
  - right. apply Exists_cons_tl. exact IH.
Qed.

Lemma norm_pos_iff (v : vec) : 0 < norm v <-> Exists (fun x => x <> 0) v.
Proof.
  unfold norm. pose proof (sum_sq_nonneg v) as Hv. split.
  - intro Hpos. destruct (all_zero_or_not v) as [Hz | Hex]; [| exact Hex].
    apply sum_sq_zero_iff in Hz. rewrite Hz, sqrt_0 in Hpos. lra.
  - intro Hex. apply sqrt_lt_R0.
    destruct (Req_dec_T (sum_sq v) 0) as [Hz | Hnz]; [| lra].
    apply sum_sq_zero_iff in Hz. apply Exists_exists in Hex.
    destruct Hex as (x & Hin & Hx). rewrite Forall_forall in Hz.
    exfalso. apply Hx. apply Hz. exact Hin.
Qed.

(** Dividing by a positive norm gives a unit vector. *)
Lemma norm_normalize_pos (v : vec) : 0 < norm v -> norm (normalize v) = 1.
Proof.
  intro Hpos. unfold normalize. destruct (Rlt_dec 0 (norm v)); [| contradiction].
  unfold norm at 1. rewrite sum_sq_scale by lra.
  unfold norm. rewrite sqrt_sqrt by apply sum_sq_nonneg.
  assert (Hs : sum_sq v <> 0).
  { intro Hz. unfold norm in Hpos. rewrite Hz, sqrt_0 in Hpos. lra. }
  replace (sum_sq v / sum_sq v) with 1 by (field; exact Hs).
  apply sqrt_1.
Qed.

(** A vector of norm zero is returned as it is. *)
Lemma normalize_zero (v : vec) : norm v = 0 -> normalize v = v.
Proof.
  intro Hz. unfold normalize. destruct (Rlt_dec 0 (norm v)); [lra | reflexivity].
Qed.

Lemma nth_normalize (v : vec) (i : nat) :
  nth i (normalize v) 0
  = if Rlt_dec 0 (norm v) then nth i v 0 / norm v else nth i v 0.
Proof.
  unfold normalize. destruct (Rlt_dec 0 (norm v)) as [Hpos | Hn]; [| reflexivity].
  assert (H0 : 0 = 0 / norm v) by (field; lra).
  rewrite H0 at 1.
  exact (map_nth (fun x => x / norm v) v 0 i).
Qed.

Lemma sum_sq_resize (n : nat) (v : vec) :
  sum_sq (resize n v) = sum_sq (firstn n v).
Proof.
  unfold resize. destruct (n <? length v)%nat eqn:E; [reflexivity |].
  apply Nat.ltb_ge in E. unfold pad_right.
  rewrite sum_sq_app, sum_sq_repeat_zero, firstn_all2 by exact E. lra.
Qed.

Lemma norm_resize (n : nat) (v : vec) : norm (resize n v) = norm (firstn n v).
Proof. unfold norm. rewrite sum_sq_resize. reflexivity. Qed.

Lemma resize_nonzero_entry (n : nat) (v : vec) :
  Exists (fun x => x <> 0) (resize n v)
  <-> exists i, (i < n)%nat /\ nth i v 0 <> 0.
Proof.
  rewrite Exists_nth. rewrite length_resize. split.
  - intros (i & d & Hi & Hx). exists i. split; [exact Hi |].
    rewrite <- (nth_resize n) by exact Hi.
    rewrite (nth_indep _ 0 d) by (rewrite length_resize; exact Hi). exact Hx.
  - intros (i & Hi & Hx). exists i, 0. split; [exact Hi |].
    rewrite nth_resize by exact Hi. exact Hx.
Qed.

Lemma resize_all_zero (n : nat) (v : vec) :
  (forall i, (i < n)%nat -> nth i v 0 = 0) -> resize n v = repeat 0 n.
Proof.
  intro H. apply (nth_ext _ _ 0 0).
  - rewrite length_resize, repeat_length. reflexivity.
  - intros i Hi. rewrite length_resize in Hi.
    rewrite nth_resize, nth_repeat by exact Hi. apply H. exact Hi.
Qed.

Lemma norm_repeat_zero (k : nat) : norm (repeat 0 k) = 0.
Proof. unfold norm. rewrite sum_sq_repeat_zero. apply sqrt_0. Qed.

(** On a concatenation that fits, the pad-only path of the user generator
    and the two-branch path of the movie generator agree. *)
Lemma fuse_user_fits (groups : list vec) :
  (length (concat groups) <= 128)%nat -> fuse_user groups = Some (fuse groups).
Proof.
  intro H. unfold fuse_user, fuse, np_pad_to, resize.
  apply Nat.ltb_ge in H. rewrite H. reflexivity.
Qed.

Lemma fuse_user_overflow (groups : list vec) :
  (128 < length (concat groups))%nat -> fuse_user groups = None.
Proof.
  intro H. unfold fuse_user, np_pad_to.
  apply Nat.ltb_lt in H. rewrite H. reflexivity.
Qed.

(** C1 as stated fails where truncation drops the only non-zero entries:
    128 zeros followed by a 1 are fused to the all-zero vector, whose norm
    is 0 although one input element was not zero; on the user path, which
    only pads, the same input raises. *)
Lemma fuse_truncated_tail_not_unit :
  let groups := [repeat 0 128; [1]] in
  (exists x, In x (concat groups) /\ x <> 0)
  /\ fuse groups = repeat 0 128
  /\ norm (fuse groups) = 0
  /\ norm (fuse groups) <> 1
  /\ fuse_user groups = None.
Proof.
  intro groups.
  assert (Hf : fuse groups = repeat 0 128).
  { unfold fuse, groups.
    assert (Hr : resize 128 (concat [repeat 0 128; [1]]) = repeat 0 128)
      by reflexivity.
    rewrite Hr. apply normalize_zero. apply norm_repeat_zero. }
  split; [| split; [exact Hf | rewrite Hf, norm_repeat_zero]].
  - exists 1. split; [| lra]. unfold groups. rewrite concat_cons, in_app_iff.
    right. simpl. left. reflexivity.
  - split; [reflexivity | split; [lra |]].
    apply fuse_user_overflow. unfold groups.
    rewrite concat_cons, length_app, repeat_length. simpl. lia.
Qed.

(** C1, amended: for every list of groups the fused vector has exactly 128
    entries; entry [i] is entry [i] of the concatenation (0 past its end),
    divided by the norm of the first 128 entries when that norm is
    positive; the norm of the result is 1 as soon as one of the first 128
    entries of the concatenation is not zero, and the result is the zero
    vector otherwise.  The user path gives the same vector whenever the
    concatenation has at most 128 entries. *)
Theorem fuse_characterisation (groups : list vec) :
  let c := concat groups in
  let n := norm (firstn 128 c) in
  length (fuse groups) = 128%nat
  /\ (forall i, (i < 128)%nat ->
        nth i (fuse groups) 0
        = if Rlt_dec 0 n then nth i c 0 / n else nth i c 0)
  /\ ((exists i, (i < 128)%nat /\ nth i c 0 <> 0) -> norm (fuse groups) = 1)
  /\ ((forall i, (i < 128)%nat -> nth i c 0 = 0) -> fuse groups = repeat 0 128)
  /\ ((length c <= 128)%nat -> fuse_user groups = Some (fuse groups)).
Proof.
  intros c n. unfold fuse. fold c. repeat split.
  - rewrite length_normalize. apply length_resize.
  - intros i Hi. rewrite nth_normalize, norm_resize. fold n.
    rewrite nth_resize by exact Hi. reflexivity.
  - intro Hex. apply norm_normalize_pos. apply norm_pos_iff.
    apply resize_nonzero_entry. exact Hex.
  - intro Hall. rewrite (resize_all_zero _ _ Hall).
    apply normalize_zero. apply norm_repeat_zero.
  - apply fuse_user_fits.
Qed.

Lemma fuse_characterisation_witness :
  norm (fuse [[3]; [4]]) = 1
  /\ fuse_user [[3]; [4]] = Some (fuse [[3]; [4]]).
Proof.
  destruct (fuse_characterisation [[3]; [4]]) as (_ & _ & Hunit & _ & Huser).
  split.
  - apply Hunit. exists 0%nat. split; [lia | simpl; lra].
  - apply Huser. simpl. lia.
Defined.

(** ** The batch loop as a trace *)

Lemma updates_app (a b : list event) : updates (a ++ b) = updates a ++ updates b.
Proof. apply flat_map_app. Qed.

Lemma errors_app (a b : list event) : errors (a ++ b) = errors a ++ errors b.
Proof. apply flat_map_app. Qed.


Lemma updates_encode (texts : list string) : updates (map Encode texts) = [].
Proof. induction texts as [| t texts IH]; [reflexivity | exact IH]. Qed.

Lemma errors_encode (texts : list string) : errors (map Encode texts) = [].
Proof. induction texts as [| t texts IH]; [reflexivity | exact IH]. Qed.


Lemma commit_points_from_encode (seen : nat) (texts : list string) (rest : list event) :
  commit_points_from seen (map Encode texts ++ rest) = commit_points_from seen rest.
Proof. induction texts as [| t texts IH]; [reflexivity | exact IH]. Qed.

Section LoopFacts.

Context {Row : Type}.
Variable ident : Row -> Z.
Variable try_body : Row -> list string * option vec.


Lemma trace_iteration total i row st :
  trace (iteration ident try_body total i row st) = trace st ++ iteration_events ident try_body total i row.
Proof.
  unfold iteration, iteration_events.
  destruct (snd (try_body row)); reflexivity.
Qed.

Lemma generated_iteration total i row st :
  embeddings_generated (iteration ident try_body total i row st)
  = (embeddings_generated st + (if succeeds try_body row then 1 else 0))%nat.
Proof.
  unfold iteration, succeeds.
  destruct (snd (try_body row)); simpl; lia.
Qed.

Lemma trace_for_each total rows : forall i st,
  trace (for_each ident try_body total i rows st) = trace st ++ loop_events ident try_body total i rows.
Proof.
  induction rows as [| row rest IH]; intros i st; simpl.
  - rewrite app_nil_r. reflexivity.
  - rewrite IH, trace_iteration, <- app_assoc. reflexivity.
Qed.

Lemma generated_for_each total rows : forall i st,
  embeddings_generated (for_each ident try_body total i rows st)
  = (embeddings_generated st + length (filter (succeeds try_body) rows))%nat.
Proof.
  induction rows as [| row rest IH]; intros i st; simpl.
  - lia.
  - rewrite IH, generated_iteration.
    destruct (succeeds try_body row); simpl; lia.
Qed.

(** The function seen from outside: the row count, the iterations, the
    final commit and the report of the success counter. *)
Lemma run_batch_trace rows :
  run_batch ident try_body rows
  = LogProcessing (length rows)
      :: loop_events ident try_body (length rows) 0 rows
      ++ [Commit; LogGenerated (length (filter (succeeds try_body) rows))].
Proof.
  unfold run_batch.
  rewrite trace_for_each, generated_for_each. reflexivity.
Qed.

Lemma updates_loop_events total rows : forall i,
  updates (loop_events ident try_body total i rows) = flat_map (written ident try_body) rows.
Proof.
  induction rows as [| row rest IH]; intro i; simpl; [reflexivity |].
  rewrite updates_app, IH. f_equal.
  unfold iteration_events, written.
  rewrite updates_app, updates_encode.
  destruct (snd (try_body row));
    [destruct ((i + 1) mod 100 =? 0)%nat |]; reflexivity.
Qed.

Lemma errors_loop_events total rows : forall i,
  errors (loop_events ident try_body total i rows)
  = map ident (filter (fun r => negb (succeeds try_body r)) rows).
Proof.
  induction rows as [| row rest IH]; intro i; simpl; [reflexivity |].
  rewrite errors_app, IH.
  unfold iteration_events, succeeds.
  rewrite errors_app, errors_encode.
  destruct (snd (try_body row));
    [destruct ((i + 1) mod 100 =? 0)%nat |]; reflexivity.
Qed.


Lemma commit_points_loop_events total rows : forall i rest,
  commit_points_from i (loop_events ident try_body total i rows ++ rest)
  = chunk_commits i (map (succeeds try_body) rows)
      ++ commit_points_from (i + length rows) rest.
Proof.
  induction rows as [| row rows IH]; intros i rest;
    cbn [loop_events map chunk_commits length app].
  - rewrite Nat.add_0_r. reflexivity.
  - unfold iteration_events, succeeds.
    rewrite <- !app_assoc, commit_points_from_encode.
    replace (i + S (length rows))%nat with (S i + length rows)%nat by lia.
    rewrite !(Nat.add_1_r i).
    destruct (snd (try_body row));
      [destruct (S i mod 100 =? 0)%nat |];
      cbn [app commit_points_from andb]; rewrite IH; reflexivity.
Qed.

Lemma updates_run_batch rows : updates (run_batch ident try_body rows) = flat_map (written ident try_body) rows.
Proof.
  rewrite run_batch_trace. change (LogProcessing ?n :: ?l) with ([LogProcessing n] ++ l).
  rewrite !updates_app, updates_loop_events. simpl. apply app_nil_r.
Qed.

Lemma errors_run_batch rows :
  errors (run_batch ident try_body rows) = map ident (filter (fun r => negb (succeeds try_body r)) rows).
Proof.
  rewrite run_batch_trace. change (LogProcessing ?n :: ?l) with ([LogProcessing n] ++ l).
  rewrite !errors_app, errors_loop_events. simpl. apply app_nil_r.
Qed.


Lemma commit_points_run_batch rows :
  commit_points (run_batch ident try_body rows)
  = chunk_commits 0 (map (succeeds try_body) rows) ++ [length rows].
Proof.
  rewrite run_batch_trace. unfold commit_points.
  cbn [commit_points_from]. rewrite commit_points_loop_events. reflexivity.
Qed.

Lemma last_run_batch rows d :
  last (run_batch ident try_body rows) d
  = LogGenerated (length (filter (succeeds try_body) rows)).
Proof.
  rewrite run_batch_trace.
  replace (LogProcessing (length rows)
           :: loop_events ident try_body (length rows) 0 rows
           ++ [Commit; LogGenerated (length (filter (succeeds try_body) rows))])
    with ((LogProcessing (length rows)
           :: loop_events ident try_body (length rows) 0 rows ++ [Commit])
          ++ [LogGenerated (length (filter (succeeds try_body) rows))]).
  - apply last_last.
  - simpl. rewrite <- app_assoc. reflexivity.
Qed.

End LoopFacts.

(** ** Splitting the loop *)

Lemma loop_events_app {Row : Type} (ident : Row -> Z)
    (try_body : Row -> list string * option vec) total (a b : list Row) :
  forall i,
    loop_events ident try_body total i (a ++ b)
    = loop_events ident try_body total i a
        ++ loop_events ident try_body total (i + length a) b.
Proof.
  induction a as [| x a IH]; intro i; cbn [loop_events app length].
  - rewrite Nat.add_0_r. reflexivity.
  - replace (i + S (length a))%nat with (S i + length a)%nat by lia.
    rewrite IH, <- app_assoc. reflexivity.
Qed.

Lemma filter_all {A : Type} (p : A -> bool) (l : list A) :
  Forall (fun x => p x = true) l -> filter p l = l.
Proof.
  induction 1 as [| x l Hx _ IH]; simpl; [reflexivity |].
  rewrite Hx, IH. reflexivity.
Qed.

Lemma filter_none {A : Type} (p : A -> bool) (l : list A) :
  Forall (fun x => p x = true) l -> filter (fun x => negb (p x)) l = [].
Proof.
  induction 1 as [| x l Hx _ IH]; simpl; [reflexivity |].
  rewrite Hx. simpl. exact IH.
Qed.

(** ** What is reported at the end of a run *)

Lemma length_updates_run_batch {Row : Type} (ident : Row -> Z)
    (try_body : Row -> list string * option vec) (rows : list Row) :
  length (updates (run_batch ident try_body rows))
  = length (filter (succeeds try_body) rows).
Proof.
  rewrite updates_run_batch.
  induction rows as [| r rows IH]; [reflexivity |].
  simpl. rewrite length_app, IH. unfold written, succeeds.
  destruct (snd (try_body r)); reflexivity.
Qed.

(** C5 as stated fails: the last line of a run carries the success counter
    only.  A run over one good movie and a run over the same movie plus one
    the encoder rejects end with the same report, although the second one
    logged an error; so no reading of the final report gives the number of
    failures. *)
Lemma failed_count_not_in_final_report :
  let run :=
    generate_movie_embeddings
      (Sample.encode_except "Untitled general") Sample.execute_always in
  let clean := [(Sample.toy_story, None)] in
  let dirty := [(Sample.toy_story, None); (Sample.untitled, None)] in
  last (run clean) Commit = LogGenerated 1
  /\ last (run dirty) Commit = LogGenerated 1
  /\ errors (run clean) = []
  /\ errors (run dirty) = [2%Z]
  /\ ~ (exists reported_failed : event -> nat,
          forall movies,
            reported_failed (last (run movies) Commit)
            = length (errors (run movies))).
Proof.
  intros run clean dirty.
  assert (H1 : last (run clean) Commit = LogGenerated 1).
  { unfold run, generate_movie_embeddings. rewrite last_run_batch. reflexivity. }
  assert (H2 : last (run dirty) Commit = LogGenerated 1).
  { unfold run, generate_movie_embeddings. rewrite last_run_batch. reflexivity. }
  assert (H3 : errors (run clean) = []).
  { unfold run, generate_movie_embeddings. rewrite errors_run_batch. reflexivity. }
  assert (H4 : errors (run dirty) = [2%Z]).
  { unfold run, generate_movie_embeddings. rewrite errors_run_batch. reflexivity. }
  repeat split; try assumption.
  intros [f Hf].
  pose proof (Hf clean) as Hc. pose proof (Hf dirty) as Hd.
  rewrite H1, H3 in Hc. rewrite H2, H4 in Hd. rewrite Hc in Hd. discriminate.
Qed.

(** C5, amended: a run ends with a commit followed by one report, the
    number of rows written; the rows that failed are visible only as the
    error lines logged along the way, and their number is the row count
    logged at the start minus the reported number. *)
Theorem run_reports_success_count {Row : Type} (ident : Row -> Z)
    (try_body : Row -> list string * option vec) (rows : list Row) :
  let tr := run_batch ident try_body rows in
  (exists body,
     tr = LogProcessing (length rows)
            :: body ++ [Commit; LogGenerated (length (updates tr))])
  /\ last tr Commit = LogGenerated (length (updates tr))
  /\ (length (updates tr) + length (errors tr) = length rows)%nat.
Proof.
  intro tr. unfold tr.
  rewrite length_updates_run_batch, errors_run_batch, length_map.
  repeat split.
  - exists (loop_events ident try_body (length rows) 0 rows).
    apply run_batch_trace.
  - apply last_run_batch.
  - apply filter_length.
Qed.

(** ** Commit points *)

(** C6, evaluated on the code: the periodic commit sits inside the [try],
    after the statements that can raise.  Over 101 users of whom the 100th
    fails to be written, the only commit is the final one, issued after all
    101; when all are written there is also one after the first 100. *)
Theorem commit_skipped_when_hundredth_fails :
  commit_points
    (generate_user_embeddings (Sample.execute_except 100) []
       (Sample.bare_users 101))
  = [101%nat]
  /\ commit_points
       (generate_user_embeddings Sample.execute_always []
          (Sample.bare_users 101))
     = [100%nat; 101%nat].
Proof.
  unfold generate_user_embeddings. rewrite !commit_points_run_batch.
  split; lazy; reflexivity.
Qed.

(** ** Writes on a relation *)

Section StoreFacts.

Context {Row : Type}.
Variable ident : Row -> Z.




Lemma apply_updates_rows us : forall t : @table Row,
  apply_updates ident us t
  = map (fun r => (fst r, final_embedding ident us (fst r) (snd r))) t.
Proof.
  induction us as [| u us IH]; intro t.
  - simpl. rewrite <- (map_id t) at 1. apply map_ext.
    intros [r e]. reflexivity.
  - change (apply_updates ident (u :: us) t)
      with (apply_updates ident us (update_embedding ident (fst u) (snd u) t)).
    rewrite IH. unfold update_embedding. rewrite map_map. apply map_ext.
    intros [r e]. simpl. destruct (ident r =? fst u)%Z; reflexivity.
Qed.

Lemma final_embedding_snoc us k v row e :
  final_embedding ident (us ++ [(k, v)]) row e
  = if (ident row =? k)%Z then Some v else final_embedding ident us row e.
Proof. unfold final_embedding. rewrite fold_left_app. reflexivity. Qed.



End StoreFacts.

(** ** Text and genre vector of a movie *)

Lemma enumerate_from_bounds {A : Type} (l : list A) : forall i j x,
  In (j, x) (enumerate_from i l) -> (i <= j < i + length l)%nat.
Proof.
  induction l as [| y l IH]; intros i j x Hin; simpl in Hin; [contradiction |].
  destruct Hin as [Heq | Hin].
  - inversion Heq; subst. simpl. lia.
  - apply IH in Hin. simpl. lia.
Qed.

(** Every index the comprehension reaches has a name. *)
Lemma active_genres_lookup_in_range (m : movie_row) (j : nat) (b : bool) :
  In (j, b) (enumerate (genres m)) -> nth_error genre_names j <> None.
Proof.
  intro Hin. apply enumerate_from_bounds in Hin.
  apply nth_error_Some. simpl in *. lia.
Qed.






(** ** Occupation encoding *)

Lemma str_lt_trans (a b c : string) : str_lt a b -> str_lt b c -> str_lt a c.
Proof.
  unfold str_lt. intros Hab Hbc.
  apply String_as_OT.cmp_lt. apply String_as_OT.cmp_lt in Hab, Hbc.
  exact (String_as_OT.lt_trans _ _ _ Hab Hbc).
Qed.

Lemma str_lt_irrefl (a : string) : ~ str_lt a a.
Proof.
  unfold str_lt. intro H.
  assert (He : String.compare a a = Eq)
    by (apply String_as_OT.cmp_eq; reflexivity).
  congruence.
Qed.

Lemma compare_gt_lt (a b : string) : String.compare a b = Gt -> str_lt b a.
Proof.
  unfold str_lt. intro H. rewrite String.compare_antisym, H. reflexivity.
Qed.

Lemma ltb_true_iff (a b : string) : String.ltb a b = true <-> str_lt a b.
Proof.
  unfold String.ltb, str_lt. destruct (String.compare a b); split; congruence.
Qed.

Lemma ltb_false_of_lt (a b : string) : str_lt a b -> String.ltb b a = false.
Proof.
  intro H. destruct (String.ltb b a) eqn:E; [| reflexivity].
  apply ltb_true_iff in E. exfalso.
  exact (str_lt_irrefl a (str_lt_trans _ _ _ H E)).
Qed.

Lemma in_insert_unique (s x : string) (l : list string) :
  In x (insert_unique s l) <-> x = s \/ In x l.
Proof.
  induction l as [| y l IH]; simpl.
  - intuition.
  - destruct (String.compare s y) eqn:E; simpl.
    + apply String.compare_eq_iff in E. subst y. intuition.
    + intuition.
    + rewrite IH. intuition.
Qed.

Lemma in_np_unique (x : string) (l : list string) : In x (np_unique l) <-> In x l.
Proof.
  induction l as [| y l IH]; simpl; [reflexivity |].
  rewrite in_insert_unique, IH. intuition.
Qed.

Lemma sorted_insert_unique (s : string) (l : list string) :
  StronglySorted str_lt l -> StronglySorted str_lt (insert_unique s l).
Proof.
  induction 1 as [| y l Hl IH Hy]; simpl.
  - constructor; constructor.
  - destruct (String.compare s y) eqn:E.
    + constructor; assumption.
    + constructor; [constructor; assumption |].
      constructor; [exact E |].
      eapply Forall_impl; [| exact Hy]. intros z Hz.
      exact (str_lt_trans _ _ _ E Hz).
    + constructor; [exact IH |].
      apply Forall_forall. intros z Hz. apply in_insert_unique in Hz.
      destruct Hz as [-> | Hz].
      * apply compare_gt_lt. exact E.
      * rewrite Forall_forall in Hy. apply Hy. exact Hz.
Qed.

Lemma sorted_np_unique (l : list string) : StronglySorted str_lt (np_unique l).
Proof.
  induction l as [| y l IH]; simpl; [constructor |].
  apply sorted_insert_unique. exact IH.
Qed.

Lemma sorted_NoDup (l : list string) : StronglySorted str_lt l -> NoDup l.
Proof.
  induction 1 as [| y l Hl IH Hy]; constructor; [| exact IH].
  intro Hin. rewrite Forall_forall in Hy.
  exact (str_lt_irrefl y (Hy y Hin)).
Qed.

Lemma filter_nothing {A : Type} (p : A -> bool) (l : list A) :
  (forall x, In x l -> p x = false) -> filter p l = [].
Proof.
  induction l as [| x l IH]; intro H; simpl; [reflexivity |].
  rewrite (H x (or_introl eq_refl)). apply IH.
  intros z Hz. apply H. right. exact Hz.
Qed.

Lemma ltb_irrefl (a : string) : String.ltb a a = false.
Proof.
  destruct (String.ltb a a) eqn:E; [| reflexivity].
  apply ltb_true_iff in E. exfalso. exact (str_lt_irrefl a E).
Qed.

(** In a strictly ascending list the position of a member is the number of
    members before it in the order. *)
Lemma index_of_sorted (o : string) (l : list string) :
  StronglySorted str_lt l -> In o l ->
  LabelEncoder.index_of o l = Some (rank_in l o).
Proof.
  unfold rank_in. induction 1 as [| y l Hl IH Hy]; intro Hin; [contradiction |].
  cbn [LabelEncoder.index_of filter]. rewrite Forall_forall in Hy.
  destruct (String.eqb_spec o y) as [-> | Hne].
  - rewrite ltb_irrefl, filter_nothing; [reflexivity |].
    intros z Hz. apply ltb_false_of_lt. apply Hy. exact Hz.
  - destruct Hin as [Heq | Hin]; [congruence |].
    rewrite (IH Hin).
    assert (Hlt : String.ltb y o = true) by (apply ltb_true_iff, Hy, Hin).
    rewrite Hlt. reflexivity.
Qed.

Lemma filter_length_permutation {A : Type} (p : A -> bool) (l l' : list A) :
  Permutation l l' -> length (filter p l) = length (filter p l').
Proof.
  induction 1 as [| x l l' _ IH | x y l | l l' l'' _ IH1 _ IH2]; simpl.
  - reflexivity.
  - destruct (p x); simpl; congruence.
  - destruct (p x), (p y); reflexivity.
  - congruence.
Qed.

(** The rank and the size of a universe depend on its members only, not on
    the order in which it is enumerated. *)
Lemma rank_in_enumeration (l l' : list string) (o : string) :
  NoDup l -> NoDup l' -> (forall s, In s l <-> In s l') ->
  rank_in l o = rank_in l' o /\ length l = length l'.
Proof.
  intros Hl Hl' Hsame.
  assert (Hp : Permutation l l') by (apply NoDup_Permutation; assumption).
  split; [apply filter_length_permutation | apply Permutation_length]; exact Hp.
Qed.

Lemma mem_true_iff (o : string) (l : list string) : mem o l = true <-> In o l.
Proof.
  unfold mem. rewrite existsb_exists. split.
  - intros (x & Hin & Heq). apply String.eqb_eq in Heq. subst. exact Hin.
  - intro Hin. exists o. split; [exact Hin | apply String.eqb_refl].
Qed.

Lemma truthy_str_iff (o : string) : Truthy.str o = true <-> o <> EmptyString.
Proof. destruct o; simpl; split; congruence. Qed.

(** What lines 205-208 compute, for any duplicate-free enumeration of the
    universe. *)
Lemma occupation_encoded_member (occupations : list string) (o : string) :
  NoDup occupations -> o <> EmptyString -> In o occupations ->
  occupation_encoded occupations (Some o)
  = Some (INR (rank_in occupations o) / INR (length occupations)).
Proof.
  intros Hnd Hne Hin. unfold occupation_encoded.
  apply truthy_str_iff in Hne. rewrite Hne.
  rewrite (proj2 (mem_true_iff o occupations) Hin). cbn [andb].
  unfold LabelEncoder.transform, LabelEncoder.fit.
  rewrite index_of_sorted
    by (try apply sorted_np_unique; apply in_np_unique; exact Hin).
  destruct (rank_in_enumeration (np_unique occupations) occupations o)
    as [Hr _].
  - apply sorted_NoDup, sorted_np_unique.
  - exact Hnd.
  - intro s. apply in_np_unique.
  - rewrite Hr. reflexivity.
Qed.

Lemma occupation_encoded_stranger (occupations : list string) (o : string) :
  ~ In o occupations -> occupation_encoded occupations (Some o) = Some 0.
Proof.
  intro Hnot. unfold occupation_encoded.
  destruct (mem o occupations) eqn:E.
  - apply mem_true_iff in E. contradiction.
  - rewrite andb_false_r. reflexivity.
Qed.

(** Any two duplicate-free enumerations of the same universe give the same
    encoding. *)
Lemma occupation_encoded_enumeration (l l' : list string) (occ : option string) :
  NoDup l -> NoDup l' -> (forall s, In s l <-> In s l') ->
  occupation_encoded l occ = occupation_encoded l' occ.
Proof.
  intros Hl Hl' Hsame. destruct occ as [o |]; [| reflexivity].
  destruct (string_dec o EmptyString) as [-> | Hne]; [reflexivity |].
  destruct (in_dec string_dec o l) as [Hin | Hnot].
  - rewrite !occupation_encoded_member; try assumption.
    + destruct (rank_in_enumeration l l' o Hl Hl' Hsame) as [-> ->].
      reflexivity.
    + apply Hsame. exact Hin.
  - rewrite !occupation_encoded_stranger; [reflexivity | | exact Hnot].
    intro H. apply Hnot. apply Hsame. exact H.
Qed.

Lemma in_observed_occupations (users : list user_row) (o : string) :
  In o (observed_occupations users)
  <-> o <> EmptyString /\ exists u, In u users /\ occupation u = Some o.
Proof.
  unfold observed_occupations. rewrite in_flat_map. split.
  - intros (u & Hu & Hin). destruct (occupation u) as [o' |] eqn:E; [| contradiction].
    destruct (Truthy.str o') eqn:T; [| contradiction].
    destruct Hin as [-> | []]. split.
    + apply truthy_str_iff. exact T.
    + exists u. split; assumption.
  - intros (Hne & u & Hu & E). exists u. split; [exact Hu |].
    rewrite E. apply truthy_str_iff in Hne. rewrite Hne. left. reflexivity.
Qed.



(** ** The user embedding as a whole *)

(** The guard of line 207 keeps [transform] away from labels it has not
    seen, so the occupation encoding never raises. *)
Lemma occupation_encoded_total (occupations : list string)
    (occupation : option string) :
  exists x, occupation_encoded occupations occupation = Some x.
Proof.
  destruct occupation as [o |]; [| exists 0; reflexivity].
  unfold occupation_encoded.
  destruct (Truthy.str o && mem o occupations) eqn:E; [| exists 0; reflexivity].
  apply andb_true_iff in E. destruct E as [_ Hmem].
  apply mem_true_iff in Hmem.
  unfold LabelEncoder.transform, LabelEncoder.fit.
  rewrite index_of_sorted
    by (try apply sorted_np_unique; apply in_np_unique; exact Hmem).
  eexists. reflexivity.
Qed.

(** With at most 122 preference columns (the query has 18) nothing in the
    [try] body before the UPDATE raises, and the vector has 128 entries. *)
Lemma user_embedding_defined (occupations : list string)
    (genre_pref_dict : list (Z * list (option R))) (u : user_row) :
  (length (dict_get genre_pref_dict (user_id u) (repeat None 18)) <= 122)%nat ->
  exists v, user_embedding occupations genre_pref_dict u = Some v
            /\ length v = 128%nat.
Proof.
  intro Hlen. unfold user_embedding, user_features, demographic.
  destruct (occupation_encoded_total occupations (occupation u)) as [x ->].
  rewrite fuse_user_fits.
  - eexists. split; [reflexivity |]. unfold fuse.
    rewrite length_normalize. apply length_resize.
  - unfold genre_pref_vector, rating_features.
    cbn [concat app length]. rewrite length_app, length_map.
    cbn [length]. lia.
Qed.

Lemma for_each_ext {Row : Type} (ident : Row -> Z)
    (f g : Row -> list string * option vec) total (rows : list Row) :
  (forall r, In r rows -> f r = g r) ->
  forall i st, for_each ident f total i rows st = for_each ident g total i rows st.
Proof.
  induction rows as [| r rows IH]; intros Hext i st; [reflexivity |].
  cbn [for_each]. unfold iteration.
  rewrite (Hext r (or_introl eq_refl)). apply IH.
  intros r' Hr'. apply Hext. right. exact Hr'.
Qed.

Lemma run_batch_ext {Row : Type} (ident : Row -> Z)
    (f g : Row -> list string * option vec) (rows : list Row) :
  (forall r, In r rows -> f r = g r) ->
  run_batch ident f rows = run_batch ident g rows.
Proof.
  intro Hext. unfold run_batch. rewrite (for_each_ext ident f g) by exact Hext.
  reflexivity.
Qed.

(** The trace of the user generator is the same whichever duplicate-free
    enumeration of the occupation set [list(set(...))] happens to return. *)
Lemma generate_user_embeddings_any_enumeration (execute_ok : Z -> vec -> bool)
    (genre_prefs : list (Z * list (option R))) (users : @table user_row)
    (enumeration : list string) :
  NoDup enumeration ->
  (forall s, In s enumeration
             <-> In s (observed_occupations (select_ordered user_id users))) ->
  run_batch user_id (user_try_body execute_ok enumeration genre_prefs)
    (select_ordered user_id users)
  = generate_user_embeddings execute_ok genre_prefs users.
Proof.
  intros Hnd Hsame. unfold generate_user_embeddings.
  apply run_batch_ext. intros u _.
  unfold user_try_body, user_embedding, user_features, demographic.
  rewrite (occupation_encoded_enumeration enumeration
             (occupations_of (select_ordered user_id users))).
  - reflexivity.
  - exact Hnd.
  - apply NoDup_nodup.
  - intro s. unfold occupations_of, list_set. rewrite nodup_In. apply Hsame.
Qed.

Lemma map_div_repeat_zero (n : R) (k : nat) :
  map (fun x => x / n) (repeat 0 k) = repeat 0 k.
Proof.
  induction k as [| k IH]; [reflexivity |].
  simpl. rewrite IH. f_equal. unfold Rdiv. apply Rmult_0_l.
Qed.

(** Equality of two vectors entry by entry, each entry by linear
    arithmetic. *)
Ltac entrywise :=
  repeat (apply (f_equal2 (@cons R)); [lra |]); reflexivity.

(** The worked example: age 25, gender "F", occupation "engineer" (rank 2
    of 5), 50 ratings of mean 3.5 and standard deviation 1, no preference
    row. *)
Lemma engineer_example :
  let u := Sample.user_with_occupation 2 "engineer" in
  let occupations := occupations_of Sample.six_users in
  demographic occupations u = Some [7 / 55; 0; 2 / 5]
  /\ rating_features (num_ratings u) (avg_rating u) (rating_stddev u)
     = [0.5; 0.625; 0.5]
  /\ genre_pref_vector (dict_get [] (user_id u) (repeat None 18))
     = repeat 0.375 18
  /\ exists v, user_embedding occupations [] u = Some v
               /\ length v = 128%nat /\ norm v = 1
               /\ skipn 24 v = repeat 0 104.
Proof.
  intros u occupations.
  assert (Hocc : occupation_encoded occupations (Some "engineer"%string)
                 = Some (2 / 5)).
  { unfold occupations. rewrite occupation_encoded_member.
    - change (rank_in (occupations_of Sample.six_users) "engineer") with 2%nat.
      change (length (occupations_of Sample.six_users)) with 5%nat.
      simpl. f_equal. lra.
    - apply NoDup_nodup.
    - discriminate.
    - apply nodup_In. simpl. tauto. }
  assert (Hdemo : demographic occupations u = Some [7 / 55; 0; 2 / 5]).
  { unfold demographic, u. cbn [occupation age gender Sample.user_with_occupation].
    rewrite Hocc. unfold age_normalized, gender_encoded. simpl.
    f_equal. entrywise. }
  assert (Hrate : rating_features (num_ratings u) (avg_rating u) (rating_stddev u)
                  = [0.5; 0.625; 0.5]).
  { unfold rating_features, rating_count_feature, avg_rating_feature,
      rating_stddev_feature, u. simpl.
    rewrite (truthy_float_nonzero 3.5), (truthy_float_nonzero 1) by lra.
    rewrite !Rmin_left by lra. entrywise. }
  assert (Hpref : genre_pref_vector (dict_get [] (user_id u) (repeat None 18))
                  = repeat 0.375 18).
  { unfold dict_get, genre_pref_vector. simpl.
    assert (H : genre_pref_feature None = 0.375)
      by (unfold genre_pref_feature; lra).
    rewrite !H. reflexivity. }
  repeat split; try assumption.
  unfold user_embedding, user_features. rewrite Hdemo, Hrate, Hpref.
  rewrite fuse_user_fits by (simpl; lia).
  eexists. split; [reflexivity |]. unfold fuse. repeat split.
  - rewrite length_normalize. apply length_resize.
  - apply norm_normalize_pos. apply norm_pos_iff.
    apply resize_nonzero_entry. exists 0%nat. split; [lia | simpl; lra].
  - unfold normalize.
    destruct (Rlt_dec 0 _) as [Hpos | Hn]; [| reflexivity].
    rewrite skipn_map.
    change (skipn 24 (resize 128 _)) with (repeat 0 104).
    apply map_div_repeat_zero.
Qed.

(** * Further properties *)

(** ** Resizing and normalizing *)

Lemma resize_exact (n : nat) (v : vec) : length v = n -> resize n v = v.
Proof.
  intro H. unfold resize, pad_right. subst n.
  rewrite Nat.ltb_irrefl, Nat.sub_diag. apply app_nil_r.
Qed.

Lemma resize_ext (n : nat) (v w : vec) :
  (forall i, (i < n)%nat -> nth i v 0 = nth i w 0) -> resize n v = resize n w.
Proof.
  intro H. apply (nth_ext _ _ 0 0).
  - rewrite !length_resize. reflexivity.
  - intros i Hi. rewrite length_resize in Hi.
    rewrite !nth_resize by exact Hi. apply H. exact Hi.
Qed.

(** Resizing twice, the second time to at most the first length, is
    resizing once. *)
Theorem resize_resize (m n : nat) (v : vec) :
  (m <= n)%nat -> resize m (resize n v) = resize m v.
Proof.
  intro Hmn. apply resize_ext. intros i Hi. apply nth_resize. lia.
Qed.

Lemma resize_resize_witness :
  resize 2 (resize 3 [1; 2; 3; 4]) = resize 2 [1; 2; 3; 4].
Proof. apply (resize_resize 2 3). lia. Defined.

Lemma norm_zero_all_zero (v : vec) :
  norm v = 0 -> Forall (fun x => x = 0) v.
Proof.
  intro H. apply sum_sq_zero_iff. unfold norm in H.
  apply sqrt_eq_0; [apply sum_sq_nonneg | exact H].
Qed.

Lemma map_div_one (v : vec) : map (fun x => x / 1) v = v.
Proof.
  rewrite <- (map_id v) at 2. apply map_ext. intro x. field.
Qed.

(** Normalizing an already normalized vector changes nothing. *)
Theorem normalize_idempotent (v : vec) : normalize (normalize v) = normalize v.
Proof.
  destruct (Rlt_dec 0 (norm v)) as [Hpos | Hn].
  - pose proof (norm_normalize_pos v Hpos) as H1.
    unfold normalize at 1. rewrite H1.
    destruct (Rlt_dec 0 1); [apply map_div_one | reflexivity].
  - assert (Hv : normalize v = v).
    { unfold normalize. destruct (Rlt_dec 0 (norm v)); [contradiction | reflexivity]. }
    rewrite !Hv. reflexivity.
Qed.

Lemma entry_sq_le_sum_sq (v : vec) (x : R) : In x v -> x * x <= sum_sq v.
Proof.
  induction v as [| y v IH]; intro Hin; [contradiction |].
  simpl. pose proof (sum_sq_nonneg v) as Hv.
  pose proof (Rle_0_sqr y) as Hy. unfold Rsqr in Hy.
  destruct Hin as [-> | Hin]; [lra | specialize (IH Hin); lra].
Qed.

Lemma entry_le_norm (v : vec) (x : R) : In x v -> - norm v <= x <= norm v.
Proof.
  intro Hin. pose proof (entry_sq_le_sum_sq v x Hin) as Hsq.
  pose proof (norm_nonneg v) as Hn.
  assert (Hnn : norm v * norm v = sum_sq v)
    by (unfold norm; apply sqrt_sqrt, sum_sq_nonneg).
  split; nra.
Qed.

Lemma normalize_entries_bounded (v : vec) :
  Forall (fun x => -1 <= x <= 1) (normalize v).
Proof.
  apply Forall_forall. intros x Hin. unfold normalize in Hin.
  destruct (Rlt_dec 0 (norm v)) as [Hpos | Hn].
  - apply in_map_iff in Hin. destruct Hin as (y & <- & Hy).
    pose proof (entry_le_norm v y Hy) as [Hlo Hhi].
    split.
    + apply Rmult_le_reg_r with (norm v); [exact Hpos |].
      unfold Rdiv. rewrite Rmult_assoc, Rinv_l by lra. lra.
    + apply Rmult_le_reg_r with (norm v); [exact Hpos |].
      unfold Rdiv. rewrite Rmult_assoc, Rinv_l by lra. lra.
  - assert (Hz : norm v = 0) by (pose proof (norm_nonneg v); lra).
    apply norm_zero_all_zero in Hz. rewrite Forall_forall in Hz.
    rewrite (Hz x Hin). lra.
Qed.

(** Every entry of a fused vector lies between -1 and 1. *)
Theorem fuse_entries_bounded (groups : list vec) :
  Forall (fun x => -1 <= x <= 1) (fuse groups).
Proof. unfold fuse. apply normalize_entries_bounded. Qed.

Lemma sum_sq_scaled (c : R) (v : vec) :
  sum_sq (map (Rmult c) v) = (c * c) * sum_sq v.
Proof.
  induction v as [| x v IH]; simpl; [lra | rewrite IH; lra].
Qed.

Lemma norm_scaled (c : R) (v : vec) :
  0 <= c -> norm (map (Rmult c) v) = c * norm v.
Proof.
  intro Hc. unfold norm. rewrite sum_sq_scaled.
  rewrite sqrt_mult_alt by nra. rewrite sqrt_square by exact Hc. reflexivity.
Qed.

Lemma normalize_scaled (c : R) (v : vec) :
  0 < c -> normalize (map (Rmult c) v) = normalize v.
Proof.
  intro Hc. unfold normalize. rewrite norm_scaled by lra.
  destruct (Rlt_dec 0 (norm v)) as [Hpos | Hn].
  - destruct (Rlt_dec 0 (c * norm v)) as [_ | Hbad]; [| exfalso; apply Hbad; nra].
    rewrite map_map. apply map_ext. intro x. field. split; lra.
  - assert (Hz : norm v = 0) by (pose proof (norm_nonneg v); lra).
    destruct (Rlt_dec 0 (c * norm v)) as [Hbad | _]; [rewrite Hz in Hbad; lra |].
    apply norm_zero_all_zero in Hz.
    rewrite <- (map_id v) at 2. apply map_ext_in. intros x Hx.
    rewrite Forall_forall in Hz. rewrite (Hz x Hx). lra.
Qed.

Lemma resize_scaled (c : R) (n : nat) (v : vec) :
  resize n (map (Rmult c) v) = map (Rmult c) (resize n v).
Proof.
  unfold resize, pad_right. rewrite length_map.
  destruct (n <? length v)%nat.
  - apply firstn_map.
  - rewrite map_app. f_equal.
    induction (n - length v)%nat as [| k IH]; [reflexivity |].
    simpl. rewrite <- IH. f_equal. lra.
Qed.

(** Scaling every feature of every group by the same positive factor does
    not change the fused vector. *)
Theorem fuse_scale_invariant (c : R) (groups : list vec) :
  0 < c -> fuse (map (map (Rmult c)) groups) = fuse groups.
Proof.
  intro Hc. unfold fuse. rewrite <- concat_map, resize_scaled.
  apply normalize_scaled. exact Hc.
Qed.

Lemma fuse_scale_invariant_witness :
  fuse (map (map (Rmult 2)) [[3]; [4]]) = fuse [[3]; [4]].
Proof. apply (fuse_scale_invariant 2). lra. Defined.

(** ** Layout of a movie embedding *)

Lemma length_genre_vector (m : movie_row) :
  length (genre_vector (genres m)) = 18%nat.
Proof. reflexivity. Qed.

Lemma combined_embedding_eq (e : vec) (m : movie_row) :
  combined_embedding e m = normalize (resize 110 e ++ genre_vector (genres m)).
Proof.
  unfold combined_embedding, fuse. cbn [concat]. rewrite app_nil_r.
  rewrite resize_exact; [reflexivity |].
  rewrite length_app, length_resize, length_genre_vector. reflexivity.
Qed.

(** Before normalization a movie vector is the text embedding resized to
    110 entries followed by the 18 genre flags: the resize to 128 on lines
    103-106 neither drops nor adds an entry. *)
Theorem combined_embedding_layout (e : vec) (m : movie_row) :
  exists pre,
    combined_embedding e m = normalize pre
    /\ length pre = 128%nat
    /\ firstn 110 pre = resize 110 e
    /\ skipn 110 pre = genre_vector (genres m).
Proof.
  exists (resize 110 e ++ genre_vector (genres m)).
  assert (Hlen : length (resize 110 e) = 110%nat) by apply length_resize.
  repeat split.
  - apply combined_embedding_eq.
  - rewrite length_app, Hlen, length_genre_vector. reflexivity.
  - rewrite <- Hlen at 1. rewrite firstn_app, firstn_all, Nat.sub_diag.
    cbn [firstn]. apply app_nil_r.
  - rewrite <- Hlen at 1. rewrite skipn_app, skipn_all, Nat.sub_diag.
    reflexivity.
Qed.

(** Only the first 110 entries of the encoder's output reach the stored
    vector, and an output shorter than 110 is read as if followed by
    zeros. *)
Theorem combined_embedding_first_110 (e : vec) (m : movie_row) (k : nat) :
  combined_embedding e m = combined_embedding (firstn 110 e) m
  /\ combined_embedding (e ++ repeat 0 k) m = combined_embedding e m.
Proof.
  unfold combined_embedding. split; f_equal; f_equal; apply resize_ext;
    intros i Hi.
  - rewrite <- (firstn_skipn 110 e) at 1.
    destruct (Nat.lt_ge_cases i (length (firstn 110 e))) as [Hl | Hl].
    + apply app_nth1. exact Hl.
    + rewrite (nth_overflow (firstn 110 e)) by exact Hl.
      rewrite length_firstn in Hl.
      assert (Hall : (length e <= 110)%nat) by lia.
      rewrite skipn_all2 by exact Hall. rewrite app_nil_r.
      apply nth_overflow. rewrite length_firstn. lia.
  - destruct (Nat.lt_ge_cases i (length e)) as [Hl | Hl].
    + apply app_nth1. exact Hl.
    + rewrite app_nth2 by exact Hl. rewrite nth_repeat.
      symmetry. apply nth_overflow. exact Hl.
Qed.

Lemma in_genre_vector_one (flags : list bool) :
  In true flags -> In 1 (genre_vector flags).
Proof.
  intro H. unfold genre_vector.
  change 1 with ((fun b : bool => if b then 1 else 0) true).
  apply in_map. exact H.
Qed.

Lemma in_firstn_in {A : Type} (n : nat) (l : list A) (x : A) :
  In x (firstn n l) -> In x l.
Proof.
  intro H. rewrite <- (firstn_skipn n l). apply in_or_app. left. exact H.
Qed.

Lemma encoder_bound_ge_1 : 1 <= encoder_bound.
Proof. unfold encoder_bound. apply pow_R1_Rle. lra. Qed.

Lemma sum_sq_le_bound (b : R) (v : vec) :
  Forall (fun x => - b <= x <= b) v -> sum_sq v <= INR (length v) * (b * b).
Proof.
  induction 1 as [| x v Hx _ IH].
  - simpl. lra.
  - change (sum_sq (x :: v)) with (x * x + sum_sq v).
    change (length (x :: v)) with (S (length v)). rewrite S_INR.
    assert (x * x <= b * b) by nra. lra.
Qed.

Lemma resize_in_range (b : R) (n : nat) (v : vec) :
  0 <= b ->
  Forall (fun x => - b <= x <= b) v ->
  Forall (fun x => - b <= x <= b) (resize n v).
Proof.
  intros Hb Hv. unfold resize, pad_right.
  destruct (n <? length v)%nat.
  - apply Forall_forall. intros x Hx. rewrite Forall_forall in Hv.
    apply Hv. apply (in_firstn_in n). exact Hx.
  - apply Forall_app. split; [exact Hv |].
    apply Forall_forall. intros x Hx. apply repeat_spec in Hx. subst x. lra.
Qed.

Lemma genre_vector_in_range (flags : list bool) :
  Forall (fun x => - 1 <= x <= 1) (genre_vector flags).
Proof.
  unfold genre_vector. induction flags as [| b flags IH]; [constructor |].
  cbn [map]. constructor; [destruct b; lra | exact IH].
Qed.

Lemma sum_sq_genre_vector_ge_1 (flags : list bool) :
  In true flags -> 1 <= sum_sq (genre_vector flags).
Proof.
  unfold genre_vector. induction flags as [| b flags IH]; [intros [] |].
  intros [-> | Hin]; cbn [map]. 
  - change (1 <= 1 * 1 + sum_sq (map (fun b : bool => if b then 1 else 0) flags)).
    pose proof (sum_sq_nonneg (map (fun b : bool => if b then 1 else 0) flags)).
    lra.
  - specialize (IH Hin).
    change (1 <= (if b then 1 else 0) * (if b then 1 else 0)
                 + sum_sq (map (fun b : bool => if b then 1 else 0) flags)).
    assert (0 <= (if b then 1 else 0) * (if b then 1 else 0))
      by (destruct b; lra).
    lra.
Qed.

(** A movie with at least one active genre flag gets a unit vector for
    every encoder output whose entries are at most [encoder_bound] in
    magnitude: the squared norm taken on line 109 is then at least 1 (the
    flag) and at most 110 * 10^300 + 18, so the division of line 111 is by
    a positive number. *)
Theorem movie_with_genre_is_unit (e : vec) (m : movie_row) :
  encoder_output_in_range e ->
  In true (genres m) ->
  1 <= sum_sq (resize 110 e ++ genre_vector (genres m))
       <= 110 * (encoder_bound * encoder_bound) + 18
  /\ norm (combined_embedding e m) = 1.
Proof.
  intros He Hin.
  pose proof encoder_bound_ge_1 as Hb.
  assert (Hlow : 1 <= sum_sq (genre_vector (genres m)))
    by (apply sum_sq_genre_vector_ge_1; exact Hin).
  pose proof (sum_sq_le_bound 1 _ (genre_vector_in_range (genres m))) as Hg.
  rewrite length_genre_vector in Hg.
  assert (He' : sum_sq (resize 110 e)
                <= INR 110 * (encoder_bound * encoder_bound)).
  { rewrite <- (length_resize 110 e) at 2. apply sum_sq_le_bound.
    apply resize_in_range; [lra | exact He]. }
  pose proof (sum_sq_nonneg (resize 110 e)) as H0.
  assert (H110 : INR 110 = 110) by (simpl; lra).
  assert (H18 : INR 18 = 18) by (simpl; lra).
  rewrite H110 in He'. rewrite H18 in Hg.
  split.
  - rewrite sum_sq_app. lra.
  - rewrite combined_embedding_eq.
    apply norm_normalize_pos. apply norm_pos_iff. apply Exists_exists.
    exists 1. split; [| lra]. apply in_or_app. right.
    apply in_genre_vector_one. exact Hin.
Qed.

Lemma movie_with_genre_is_unit_witness :
  1 <= sum_sq (resize 110 [0.6; 0.8] ++ genre_vector (genres Sample.toy_story))
       <= 110 * (encoder_bound * encoder_bound) + 18
  /\ norm (combined_embedding [0.6; 0.8] Sample.toy_story) = 1.
Proof.
  apply movie_with_genre_is_unit.
  - pose proof encoder_bound_ge_1.
    repeat constructor; lra.
  - simpl. tauto.
Defined.

(** ** Features and layout of a user embedding *)

Lemma int_or_zero (n : Z) : Truthy.int_or (Some n) 0 = n.
Proof.
  unfold Truthy.int_or, Truthy.int. destruct (Z.eqb_spec n 0); simpl; congruence.
Qed.

Lemma float_or_cases (x d : R) :
  Truthy.float_or (Some x) d = x \/ (x = 0 /\ Truthy.float_or (Some x) d = d).
Proof.
  unfold Truthy.float_or, Truthy.float.
  destruct (Req_dec_T x 0); [right | left]; auto.
Qed.

(** More ratings never lower the rating-count feature, and from 100
    ratings on it stays at 1. *)
Theorem rating_count_feature_monotone (n m : Z) :
  (n <= m)%Z ->
  rating_count_feature (Some n) <= rating_count_feature (Some m)
  /\ ((100 <= n)%Z ->
      rating_count_feature (Some n) = 1 /\ rating_count_feature (Some m) = 1).
Proof.
  intro Hnm. unfold rating_count_feature. rewrite !int_or_zero.
  apply IZR_le in Hnm. split.
  - apply Rle_min_compat_r. lra.
  - intro H100. apply IZR_le in H100. split; apply Rmin_right; lra.
Qed.

Lemma rating_count_feature_monotone_witness :
  rating_count_feature (Some 50%Z) <= rating_count_feature (Some 150%Z)
  /\ rating_count_feature (Some 100%Z) = 1.
Proof.
  split.
  - apply (rating_count_feature_monotone 50 150). lia.
  - destruct (rating_count_feature_monotone 100 100) as [_ H]; [lia |].
    apply H. lia.
Defined.

Lemma index_of_lt (y : string) (l : list string) (k : nat) :
  LabelEncoder.index_of y l = Some k -> (k < length l)%nat.
Proof.
  revert k. induction l as [| c l IH]; intros k H; simpl in H; [discriminate |].
  destruct (y =? c)%string.
  - inversion H. simpl. lia.
  - destruct (LabelEncoder.index_of y l) as [j |]; [| discriminate].
    inversion H. simpl. specialize (IH j eq_refl). lia.
Qed.

Lemma length_insert_unique (s : string) (l : list string) :
  (length (insert_unique s l) <= S (length l))%nat.
Proof.
  induction l as [| x l IH]; simpl; [lia |].
  destruct (String.compare s x); simpl; lia.
Qed.

Lemma length_np_unique (l : list string) :
  (length (np_unique l) <= length l)%nat.
Proof.
  induction l as [| x l IH]; simpl; [lia |].
  pose proof (length_insert_unique x (np_unique l)). lia.
Qed.

(** The encoding is 0 or a position in the universe divided by its size. *)
Lemma occupation_encoded_cases (occupations : list string)
    (occupation : option string) :
  occupation_encoded occupations occupation = Some 0
  \/ exists k, (k < length occupations)%nat
               /\ occupation_encoded occupations occupation
                  = Some (INR k / INR (length occupations)).
Proof.
  destruct occupation as [o |]; [| left; reflexivity].
  unfold occupation_encoded.
  destruct (Truthy.str o && mem o occupations) eqn:E; [| left; reflexivity].
  apply andb_true_iff in E. destruct E as [_ Hmem].
  apply mem_true_iff in Hmem.
  unfold LabelEncoder.transform, LabelEncoder.fit.
  destruct (LabelEncoder.index_of o (np_unique occupations)) as [k |] eqn:Ek.
  - right. exists k. split; [| reflexivity].
    apply index_of_lt in Ek. pose proof (length_np_unique occupations). lia.
  - exfalso.
    rewrite index_of_sorted in Ek
      by (try apply sorted_np_unique; apply in_np_unique; exact Hmem).
    discriminate.
Qed.

Lemma ratio_below_one (k n : nat) : (k < n)%nat -> 0 <= INR k / INR n < 1.
Proof.
  intro Hk. assert (Hpos : 0 < INR n) by (apply lt_0_INR; lia). split.
  - apply Rmult_le_reg_r with (INR n); [exact Hpos |].
    unfold Rdiv. rewrite Rmult_assoc, Rinv_l, Rmult_0_l, Rmult_1_r by lra.
    apply pos_INR.
  - apply Rmult_lt_reg_r with (INR n); [exact Hpos |].
    unfold Rdiv. rewrite Rmult_assoc, Rinv_l, Rmult_1_l, Rmult_1_r by lra.
    apply lt_INR. exact Hk.
Qed.

(** The occupation feature is at least 0 and strictly below 1, for every
    universe and every occupation, and computing it never raises. *)
Theorem occupation_encoded_range (occupations : list string)
    (occupation : option string) :
  exists x, occupation_encoded occupations occupation = Some x /\ 0 <= x < 1.
Proof.
  destruct (occupation_encoded_cases occupations occupation)
    as [H0 | (k & Hk & Hv)].
  - exists 0. split; [exact H0 | lra].
  - eexists. split; [exact Hv | apply ratio_below_one; exact Hk].
Qed.

Lemma age_normalized_unit (a : option Z) :
  age_in_range a -> 0 <= age_normalized a <= 1.
Proof.
  destruct a as [a |]; simpl.
  - apply age_normalized_in_range.
  - intros _. lra.
Qed.

Lemma avg_rating_feature_unit (x : option R) :
  rating_in_range x -> 0 <= avg_rating_feature x <= 1.
Proof.
  unfold avg_rating_feature. destruct x as [v |]; simpl.
  - intro H. unfold Truthy.float. destruct (Req_dec_T v 0); lra.
  - intros _. lra.
Qed.

Lemma genre_pref_vector_unit (prefs : list (option R)) :
  Forall rating_in_range prefs ->
  Forall (fun x => 0 <= x <= 1) (genre_pref_vector prefs).
Proof.
  unfold genre_pref_vector. induction 1 as [| p prefs Hp _ IH]; simpl;
    constructor; [| exact IH].
  destruct p as [v |]; simpl in Hp; unfold genre_pref_feature; lra.
Qed.

(** For a user whose raw values lie in their declared ranges, each of the
    features concatenated on lines 228-232 lies between 0 and 1. *)
Theorem user_features_in_unit_interval (occupations : list string)
    (genre_pref_dict : list (Z * list (option R))) (u : user_row) :
  user_in_range genre_pref_dict u ->
  exists groups,
    user_features occupations genre_pref_dict u = Some groups
    /\ Forall (fun x => 0 <= x <= 1) (concat groups).
Proof.
  intros (Hage & Hcount & Havg & Hsd & Hprefs).
  unfold user_features, demographic.
  assert (Hrange : exists occ,
            occupation_encoded occupations (occupation u) = Some occ
            /\ 0 <= occ <= 1).
  { destruct (occupation_encoded_cases occupations (occupation u))
      as [H0 | (k & Hk & Hv)].
    - exists 0. split; [exact H0 | lra].
    - eexists. split; [exact Hv |].
      pose proof (ratio_below_one k (length occupations) Hk). lra. }
  destruct Hrange as (occ & -> & Hocc).
  eexists. split; [reflexivity |]. cbn [concat].
  rewrite app_nil_r. unfold rating_features.
  assert (Hc : (0 <= Truthy.int_or (num_ratings u) 0)%Z).
  { destruct (num_ratings u) as [n |];
      [rewrite int_or_zero; exact Hcount | simpl; lia]. }
  assert (Hs : 0 <= Truthy.float_or (rating_stddev u) 0).
  { destruct (rating_stddev u) as [s |]; simpl in *; [| lra].
    unfold Truthy.float. destruct (Req_dec_T s 0); lra. }
  repeat (apply Forall_cons).
  - apply age_normalized_unit. exact Hage.
  - apply gender_encoded_unit.
  - lra.
  - apply rating_count_feature_unit. exact Hc.
  - apply avg_rating_feature_unit. exact Havg.
  - apply rating_stddev_feature_unit. exact Hs.
  - apply genre_pref_vector_unit. exact Hprefs.
Qed.

Lemma user_features_in_unit_interval_witness :
  exists groups,
    user_features (occupations_of Sample.six_users) []
      (Sample.user_with_occupation 2 "engineer") = Some groups
    /\ Forall (fun x => 0 <= x <= 1) (concat groups).
Proof.
  apply user_features_in_unit_interval.
  unfold user_in_range, Sample.user_with_occupation, prefs_of, dict_get.
  cbn [age num_ratings avg_rating rating_stddev user_id rev find repeat
       age_in_range count_in_range rating_in_range stddev_in_range].
  split; [lia |]. split; [lia |]. split; [lra |]. split; [lra |].
  repeat (apply Forall_cons; [exact I |]). apply Forall_nil.
Defined.

Lemma skipn_normalize_zero_tail (k m : nat) (v : vec) :
  skipn k v = repeat 0 m -> skipn k (normalize v) = repeat 0 m.
Proof.
  intro H. unfold normalize. destruct (Rlt_dec 0 (norm v)); [| exact H].
  rewrite skipn_map, H. apply map_div_repeat_zero.
Qed.

(** The 24 raw features of a user, when nothing raises. *)
Lemma user_features_shape (occupations : list string)
    (genre_pref_dict : list (Z * list (option R))) (u : user_row) :
  exists occ,
    occupation_encoded occupations (occupation u) = Some occ
    /\ user_features occupations genre_pref_dict u
       = Some [ [age_normalized (age u); gender_encoded (gender u); occ];
                rating_features (num_ratings u) (avg_rating u) (rating_stddev u);
                genre_pref_vector (prefs_of genre_pref_dict u) ].
Proof.
  destruct (occupation_encoded_total occupations (occupation u)) as [occ Hocc].
  exists occ. split; [exact Hocc |].
  unfold user_features, demographic. rewrite Hocc. reflexivity.
Qed.

(** With the 18 preference columns of the query, a user vector is the 24
    features in the order demographic, rating behaviour, preferences,
    followed by 104 zeros, then normalized; its last 104 entries are 0. *)
Theorem user_embedding_layout (occupations : list string)
    (genre_pref_dict : list (Z * list (option R))) (u : user_row) :
  length (prefs_of genre_pref_dict u) = 18%nat ->
  exists occ v,
    occupation_encoded occupations (occupation u) = Some occ
    /\ user_embedding occupations genre_pref_dict u = Some v
    /\ v = normalize
             (([age_normalized (age u); gender_encoded (gender u); occ]
               ++ rating_features (num_ratings u) (avg_rating u)
                    (rating_stddev u)
               ++ genre_pref_vector (prefs_of genre_pref_dict u))
              ++ repeat 0 104)
    /\ length v = 128%nat
    /\ skipn 24 v = repeat 0 104.
Proof.
  intro Hlen.
  destruct (user_features_shape occupations genre_pref_dict u)
    as (occ & Hocc & Hfeat).
  set (features :=
         [age_normalized (age u); gender_encoded (gender u); occ]
         ++ rating_features (num_ratings u) (avg_rating u) (rating_stddev u)
         ++ genre_pref_vector (prefs_of genre_pref_dict u)).
  assert (Hf : length features = 24%nat).
  { unfold features, rating_features, genre_pref_vector.
    cbn [app length]. rewrite length_map, Hlen. reflexivity. }
  assert (Hemb : user_embedding occupations genre_pref_dict u
                 = Some (normalize (features ++ repeat 0 104))).
  { unfold user_embedding. rewrite Hfeat. unfold fuse_user, np_pad_to.
    cbn [concat]. rewrite app_nil_r. fold features. rewrite Hf.
    reflexivity. }
  exists occ, (normalize (features ++ repeat 0 104)).
  split; [exact Hocc |]. split; [exact Hemb |]. split; [reflexivity |]. split.
  - rewrite length_normalize, length_app, Hf, repeat_length. reflexivity.
  - apply skipn_normalize_zero_tail.
    rewrite <- Hf. rewrite skipn_app, skipn_all, Nat.sub_diag. reflexivity.
Qed.

Lemma user_embedding_layout_witness :
  exists occ v,
    occupation_encoded (occupations_of Sample.six_users)
      (occupation (Sample.user_with_occupation 2 "engineer")) = Some occ
    /\ user_embedding (occupations_of Sample.six_users) []
         (Sample.user_with_occupation 2 "engineer") = Some v
    /\ length v = 128%nat
    /\ skipn 24 v = repeat 0 104.
Proof.
  destruct (user_embedding_layout (occupations_of Sample.six_users) []
              (Sample.user_with_occupation 2 "engineer") eq_refl)
    as (occ & v & Hocc & Hemb & _ & Hlen & Htail).
  exists occ, v. repeat split; assumption.
Defined.

(** A user with at least one absent genre preference (in particular one
    with no row in the preference query) gets a unit vector: the neutral
    0.375 is never zero. *)
Theorem user_with_absent_preference_is_unit (occupations : list string)
    (genre_pref_dict : list (Z * list (option R))) (u : user_row) :
  In None (prefs_of genre_pref_dict u) ->
  (length (prefs_of genre_pref_dict u) <= 122)%nat ->
  exists v,
    user_embedding occupations genre_pref_dict u = Some v /\ norm v = 1.
Proof.
  intros Hnone Hlen.
  destruct (user_features_shape occupations genre_pref_dict u)
    as (occ & _ & Hfeat).
  unfold user_embedding. rewrite Hfeat. rewrite fuse_user_fits.
  - eexists. split; [reflexivity |]. unfold fuse.
    apply norm_normalize_pos. apply norm_pos_iff.
    unfold resize.
    replace (128 <? _)%nat with false.
    + unfold pad_right. apply Exists_app. left.
      cbn [concat]. rewrite app_nil_r.
      apply Exists_app. right. apply Exists_app. right.
      apply Exists_exists. exists (genre_pref_feature None). split.
      * unfold genre_pref_vector. apply in_map. exact Hnone.
      * unfold genre_pref_feature. lra.
    + symmetry. apply Nat.ltb_ge. unfold rating_features, genre_pref_vector.
      cbn [concat app length]. rewrite length_app, length_map.
      cbn [length]. lia.
  - unfold rating_features, genre_pref_vector.
    cbn [concat app length]. rewrite length_app, length_map.
    cbn [length]. lia.
Qed.

Lemma user_with_absent_preference_is_unit_witness :
  exists v,
    user_embedding [] [] (Sample.bare_user 7) = Some v /\ norm v = 1.
Proof.
  apply user_with_absent_preference_is_unit.
  - unfold prefs_of, dict_get. simpl. tauto.
  - unfold prefs_of, dict_get. simpl. lia.
Defined.

(** ** Order of the occupation codes *)

Lemma filter_length_le {A : Type} (p q : A -> bool) (l : list A) :
  (forall x, In x l -> p x = true -> q x = true) ->
  (length (filter p l) <= length (filter q l))%nat.
Proof.
  induction l as [| y l IH]; intro H; simpl; [lia |].
  assert (IH' : (length (filter p l) <= length (filter q l))%nat)
    by (apply IH; intros x Hx; apply H; right; exact Hx).
  destruct (p y) eqn:Ep.
  - rewrite (H y (or_introl eq_refl) Ep). simpl. lia.
  - destruct (q y); simpl; lia.
Qed.

Lemma filter_length_lt {A : Type} (p q : A -> bool) (l : list A) (w : A) :
  (forall x, In x l -> p x = true -> q x = true) ->
  In w l -> p w = false -> q w = true ->
  (length (filter p l) < length (filter q l))%nat.
Proof.
  induction l as [| y l IH]; intros H Hin Hp Hq; [contradiction |].
  assert (Hle : (length (filter p l) <= length (filter q l))%nat)
    by (apply filter_length_le; intros x Hx; apply H; right; exact Hx).
  simpl. destruct Hin as [-> | Hin].
  - rewrite Hp, Hq. simpl. lia.
  - assert (IH' : (length (filter p l) < length (filter q l))%nat)
      by (apply IH; try assumption; intros x Hx; apply H; right; exact Hx).
    destruct (p y) eqn:Ep.
    + rewrite (H y (or_introl eq_refl) Ep). simpl. lia.
    + destruct (q y); simpl; lia.
Qed.

Lemma rank_in_lt (universe : list string) (a b : string) :
  In a universe -> str_lt a b ->
  (rank_in universe a < rank_in universe b)%nat.
Proof.
  intros Ha Hab. unfold rank_in.
  apply (filter_length_lt _ _ universe a).
  - intros x _ Hx. apply ltb_true_iff. apply ltb_true_iff in Hx.
    exact (str_lt_trans _ _ _ Hx Hab).
  - exact Ha.
  - apply ltb_irrefl.
  - apply ltb_true_iff. exact Hab.
Qed.

Lemma occupation_code_of_observed (users : list user_row) (o : string) :
  In o (observed_occupations users) ->
  occupation_encoded (occupations_of users) (Some o)
  = Some (INR (rank_in (occupations_of users) o)
          / INR (length (occupations_of users)))
  /\ In o (occupations_of users).
Proof.
  intro Ho.
  assert (Hin : In o (occupations_of users)) by (apply nodup_In; exact Ho).
  split; [| exact Hin].
  apply occupation_encoded_member.
  - apply NoDup_nodup.
  - apply in_observed_occupations in Ho. tauto.
  - exact Hin.
Qed.

(** The occupation codes follow the order of the occupation names: of two
    observed occupations, the one that sorts first gets the strictly
    smaller code. *)
Theorem occupation_encoded_strictly_monotone (users : list user_row)
    (a b : string) :
  In a (observed_occupations users) ->
  In b (observed_occupations users) ->
  str_lt a b ->
  exists x y,
    occupation_encoded (occupations_of users) (Some a) = Some x
    /\ occupation_encoded (occupations_of users) (Some b) = Some y
    /\ x < y.
Proof.
  intros Ha Hb Hab.
  destruct (occupation_code_of_observed users a Ha) as [Hca Hina].
  destruct (occupation_code_of_observed users b Hb) as [Hcb _].
  eexists. eexists. split; [exact Hca |]. split; [exact Hcb |].
  assert (Hpos : 0 < INR (length (occupations_of users))).
  { apply lt_0_INR. destruct (occupations_of users); [contradiction | simpl; lia]. }
  apply Rmult_lt_compat_r; [apply Rinv_0_lt_compat; exact Hpos |].
  apply lt_INR. apply rank_in_lt; assumption.
Qed.

Lemma occupation_encoded_strictly_monotone_witness :
  exists x y,
    occupation_encoded (occupations_of Sample.six_users) (Some "artist"%string)
    = Some x
    /\ occupation_encoded (occupations_of Sample.six_users)
         (Some "doctor"%string) = Some y
    /\ x < y.
Proof.
  apply occupation_encoded_strictly_monotone.
  - simpl. tauto.
  - simpl. tauto.
  - reflexivity.
Defined.

(** Two different observed occupations never share a code. *)
Theorem occupation_encoded_injective (users : list user_row) (a b : string) :
  In a (observed_occupations users) ->
  In b (observed_occupations users) ->
  occupation_encoded (occupations_of users) (Some a)
  = occupation_encoded (occupations_of users) (Some b) ->
  a = b.
Proof.
  intros Ha Hb Heq.
  destruct (occupation_code_of_observed users a Ha) as [Hca Hina].
  destruct (occupation_code_of_observed users b Hb) as [Hcb Hinb].
  assert (Hpos : 0 < INR (length (occupations_of users))).
  { apply lt_0_INR. destruct (occupations_of users); [contradiction | simpl; lia]. }
  assert (Hlt : forall c d, In c (occupations_of users) -> str_lt c d ->
                INR (rank_in (occupations_of users) c)
                / INR (length (occupations_of users))
                < INR (rank_in (occupations_of users) d)
                  / INR (length (occupations_of users))).
  { intros c d Hc Hcd.
    apply Rmult_lt_compat_r; [apply Rinv_0_lt_compat; exact Hpos |].
    apply lt_INR. apply rank_in_lt; assumption. }
  rewrite Hca, Hcb in Heq. inversion Heq as [Hcodes].
  destruct (String.compare a b) eqn:E.
  - apply String.compare_eq_iff. exact E.
  - specialize (Hlt a b Hina E). lra.
  - apply compare_gt_lt in E. specialize (Hlt b a Hinb E). lra.
Qed.

Lemma occupation_encoded_injective_witness :
  occupation_encoded (occupations_of Sample.six_users) (Some "lawyer"%string)
  = occupation_encoded (occupations_of Sample.six_users) (Some "lawyer"%string)
  /\ "lawyer"%string = "lawyer"%string.
Proof.
  split; [reflexivity |].
  apply (occupation_encoded_injective Sample.six_users).
  - simpl. tauto.
  - simpl. tauto.
  - reflexivity.
Defined.

(** The observed occupation that sorts first is encoded as 0, the same
    value as an absent occupation. *)
Theorem smallest_occupation_encoded_as_absent (users : list user_row)
    (o : string) :
  In o (observed_occupations users) ->
  (forall s, In s (observed_occupations users) -> ~ str_lt s o) ->
  occupation_encoded (occupations_of users) (Some o) = Some 0
  /\ occupation_encoded (occupations_of users) (Some o)
     = occupation_encoded (occupations_of users) None.
Proof.
  intros Ho Hmin.
  destruct (occupation_code_of_observed users o Ho) as [Hc Hin].
  assert (Hr : rank_in (occupations_of users) o = 0%nat).
  { unfold rank_in. rewrite filter_nothing; [reflexivity |].
    intros x Hx. destruct (String.ltb x o) eqn:E; [| reflexivity].
    apply ltb_true_iff in E. exfalso. apply (Hmin x); [| exact E].
    apply nodup_In in Hx. exact Hx. }
  rewrite Hc, Hr. simpl.
  assert (H0 : 0 / INR (length (occupations_of users)) = 0)
    by (unfold Rdiv; apply Rmult_0_l).
  rewrite H0. split; reflexivity.
Qed.

Lemma smallest_occupation_encoded_as_absent_witness :
  occupation_encoded (occupations_of Sample.six_users) (Some "artist"%string)
  = Some 0.
Proof.
  apply (smallest_occupation_encoded_as_absent Sample.six_users "artist").
  - simpl. tauto.
  - intros s Hs Hlt. simpl in Hs.
    destruct Hs as [<- | [<- | [<- | [<- | [<- | [<- | []]]]]]];
      discriminate Hlt.
Defined.

(** ** What a run writes *)

Lemma all_zero_repeat (v : vec) :
  Forall (fun x => x = 0) v -> v = repeat 0 (length v).
Proof.
  induction 1 as [| x v Hx _ IH]; [reflexivity |].
  simpl. rewrite Hx, <- IH. reflexivity.
Qed.

Lemma normalize_unit_or_zero (w : vec) :
  norm (normalize w) = 1 \/ normalize w = repeat 0 (length w).
Proof.
  destruct (Rlt_dec 0 (norm w)) as [Hpos | Hn].
  - left. apply norm_normalize_pos. exact Hpos.
  - right. assert (Hz : norm w = 0) by (pose proof (norm_nonneg w); lra).
    rewrite (normalize_zero w Hz). apply all_zero_repeat.
    apply norm_zero_all_zero. exact Hz.
Qed.

Lemma fuse_well_formed (groups : list vec) : well_formed_embedding (fuse groups).
Proof.
  unfold well_formed_embedding, fuse. split.
  - rewrite length_normalize. apply length_resize.
  - rewrite <- (length_resize 128 (concat groups)) at 3.
    apply normalize_unit_or_zero.
Qed.

Lemma fuse_user_well_formed (groups : list vec) (v : vec) :
  fuse_user groups = Some v -> well_formed_embedding v.
Proof.
  intro H. destruct (Nat.le_gt_cases (length (concat groups)) 128) as [Hle | Hgt].
  - rewrite fuse_user_fits in H by exact Hle. inversion H.
    apply fuse_well_formed.
  - rewrite fuse_user_overflow in H by exact Hgt. discriminate.
Qed.

Lemma movie_written_length encode execute_ok (m : movie_row) :
  Forall (fun u => length (snd u) = 128%nat)
    (written movie_id (movie_try_body encode execute_ok) m).
Proof.
  unfold written, movie_try_body. cbn [snd fst].
  destruct (encode (text_for_embedding m)) as [e |]; [| constructor].
  unfold persist. destruct (execute_ok _ _); constructor; [| constructor].
  apply fuse_well_formed.
Qed.

Lemma user_written_length execute_ok occupations genre_pref_dict
    (u : user_row) :
  Forall (fun w => length (snd w) = 128%nat)
    (written user_id (user_try_body execute_ok occupations genre_pref_dict) u).
Proof.
  unfold written, user_try_body. cbn [snd fst].
  destruct (user_embedding occupations genre_pref_dict u) as [v |] eqn:E;
    [| constructor].
  unfold persist. destruct (execute_ok _ _); constructor; [| constructor].
  unfold user_embedding in E.
  destruct (user_features occupations genre_pref_dict u); [| discriminate].
  cbn [snd]. eapply fuse_user_well_formed. exact E.
Qed.

Lemma Forall_flat_map {A B : Type} (P : B -> Prop) (f : A -> list B)
    (l : list A) :
  (forall x, In x l -> Forall P (f x)) -> Forall P (flat_map f l).
Proof.
  induction l as [| x l IH]; intro H; simpl; [constructor |].
  apply Forall_app. split.
  - apply H. left. reflexivity.
  - apply IH. intros y Hy. apply H. right. exact Hy.
Qed.


(** ** Order and accounting of the rows *)

Section OrderFacts.

Context {Row : Type}.
Variable ident : Row -> Z.

Lemma insert_by_id_permutation (x : Row) (l : list Row) :
  Permutation (insert_by_id ident x l) (x :: l).
Proof.
  induction l as [| y l IH]; simpl; [apply Permutation_refl |].
  destruct (ident x <=? ident y)%Z; [apply Permutation_refl |].
  eapply Permutation_trans; [apply perm_skip; exact IH | apply perm_swap].
Qed.

Lemma select_ordered_permutation (t : @table Row) :
  Permutation (select_ordered ident t) (map fst t).
Proof.
  unfold select_ordered. induction (map fst t) as [| x l IH]; simpl;
    [apply Permutation_refl |].
  eapply Permutation_trans; [apply insert_by_id_permutation |].
  apply perm_skip. exact IH.
Qed.

Lemma insert_by_id_sorted (x : Row) (l : list Row) :
  StronglySorted (id_le ident) l -> StronglySorted (id_le ident) (insert_by_id ident x l).
Proof.
  induction 1 as [| y l Hl IH Hy]; simpl.
  - constructor; constructor.
  - destruct (Z.leb_spec (ident x) (ident y)) as [Hle | Hgt].
    + constructor; [constructor; assumption |].
      constructor; [exact Hle |].
      eapply Forall_impl; [| exact Hy]. unfold id_le. intros z Hz. lia.
    + constructor; [exact IH |].
      apply Forall_forall. intros z Hz.
      apply (Permutation_in _ (insert_by_id_permutation x l)) in Hz.
      destruct Hz as [<- | Hz].
      * unfold id_le. lia.
      * rewrite Forall_forall in Hy. apply Hy. exact Hz.
Qed.

Lemma select_ordered_sorted (t : @table Row) :
  StronglySorted (id_le ident) (select_ordered ident t).
Proof.
  unfold select_ordered. induction (map fst t) as [| x l IH]; simpl;
    [constructor | apply insert_by_id_sorted; exact IH].
Qed.

Lemma sorted_filter (p : Row -> bool) (l : list Row) :
  StronglySorted (id_le ident) l -> StronglySorted (id_le ident) (filter p l).
Proof.
  induction 1 as [| y l Hl IH Hy]; simpl; [constructor |].
  destruct (p y); [| exact IH].
  constructor; [exact IH |].
  apply Forall_forall. intros z Hz. apply filter_In in Hz.
  rewrite Forall_forall in Hy. apply Hy. tauto.
Qed.

Lemma sorted_map_ident (l : list Row) :
  StronglySorted (id_le ident) l -> StronglySorted Z.le (map ident l).
Proof.
  induction 1 as [| y l Hl IH Hy]; simpl; constructor; [exact IH |].
  apply Forall_forall. intros k Hk. apply in_map_iff in Hk.
  destruct Hk as (z & <- & Hz). rewrite Forall_forall in Hy.
  apply Hy. exact Hz.
Qed.

Lemma filter_partition_permutation (p : Row -> bool) (l : list Row) :
  Permutation (filter p l ++ filter (fun r => negb (p r)) l) l.
Proof.
  induction l as [| y l IH]; simpl; [constructor |].
  destruct (p y); simpl.
  - apply perm_skip. exact IH.
  - eapply Permutation_trans; [| apply perm_skip; exact IH].
    apply Permutation_sym. apply Permutation_middle.
Qed.

Variable try_body : Row -> list string * option vec.

Lemma update_ids_run_batch (rows : list Row) :
  map fst (updates (run_batch ident try_body rows))
  = map ident (filter (succeeds try_body) rows).
Proof.
  rewrite updates_run_batch.
  induction rows as [| r rows IH]; [reflexivity |].
  simpl. rewrite map_app, IH. unfold written, succeeds.
  destruct (snd (try_body r)); reflexivity.
Qed.

(** Accounting of a run over a table: the identifiers written and the
    identifiers reported as errors are each in ascending order, and
    together they are the identifiers of the table, each row counted once. *)
Lemma run_batch_accounting (t : @table Row) :
  let tr := run_batch ident try_body (select_ordered ident t) in
  StronglySorted Z.le (map fst (updates tr))
  /\ StronglySorted Z.le (errors tr)
  /\ Permutation (map fst (updates tr) ++ errors tr)
       (map (fun r => ident (fst r)) t).
Proof.
  intro tr. unfold tr. rewrite update_ids_run_batch, errors_run_batch.
  pose proof (select_ordered_sorted t) as Hs.
  split; [apply sorted_map_ident, sorted_filter; exact Hs |].
  split; [apply sorted_map_ident, sorted_filter; exact Hs |].
  rewrite <- map_app, <- (map_map fst ident).
  apply Permutation_map.
  eapply Permutation_trans; [apply filter_partition_permutation |].
  apply select_ordered_permutation.
Qed.

End OrderFacts.

(** Both generators go through the rows in ascending identifier order:
    the identifiers written and the identifiers reported as errors are each
    ascending, and every row of the table is written or reported exactly
    once. *)
Theorem rows_accounted_in_id_order (encode : string -> option vec)
    (execute_ok : Z -> vec -> bool)
    (genre_prefs : list (Z * list (option R)))
    (movies : @table movie_row) (users : @table user_row) :
  let trm := generate_movie_embeddings encode execute_ok movies in
  let tru := generate_user_embeddings execute_ok genre_prefs users in
  (StronglySorted Z.le (map fst (updates trm))
   /\ StronglySorted Z.le (errors trm)
   /\ Permutation (map fst (updates trm) ++ errors trm)
        (map (fun r => movie_id (fst r)) movies))
  /\ (StronglySorted Z.le (map fst (updates tru))
      /\ StronglySorted Z.le (errors tru)
      /\ Permutation (map fst (updates tru) ++ errors tru)
           (map (fun r => user_id (fst r)) users)).
Proof.
  split; apply run_batch_accounting.
Qed.

(** ** The stored relation after a run *)

Section StateFacts.

Context {Row : Type}.
Variable ident : Row -> Z.
Variable try_body : Row -> list string * option vec.

Lemma final_embedding_app us1 us2 (r : Row) e :
  final_embedding ident (us1 ++ us2) r e
  = final_embedding ident us2 r (final_embedding ident us1 r e).
Proof. unfold final_embedding. apply fold_left_app. Qed.

Lemma final_embedding_no_match us (r : Row) : forall e,
  (forall u, In u us -> fst u <> ident r) -> final_embedding ident us r e = e.
Proof.
  induction us as [| u us IH]; intros e H; [reflexivity |].
  change (final_embedding ident (u :: us) r e)
    with (final_embedding ident us r
            (if (ident r =? fst u)%Z then Some (snd u) else e)).
  destruct (Z.eqb_spec (ident r) (fst u)) as [Heq | _].
  - exfalso. apply (H u (or_introl eq_refl)). symmetry. exact Heq.
  - apply IH. intros w Hw. apply H. right. exact Hw.
Qed.

Lemma final_embedding_keeps_some us (r : Row) : forall e,
  e <> None -> final_embedding ident us r e <> None.
Proof.
  induction us as [| u us IH]; intros e He; [exact He |].
  change (final_embedding ident (u :: us) r e)
    with (final_embedding ident us r
            (if (ident r =? fst u)%Z then Some (snd u) else e)).
  apply IH. destruct (ident r =? fst u)%Z; [discriminate | exact He].
Qed.

Lemma written_id (x : Row) u :
  In u (written ident try_body x) -> fst u = ident x.
Proof.
  unfold written. destruct (snd (try_body x)); [| contradiction].
  intros [<- | []]. reflexivity.
Qed.

Lemma final_embedding_written (x : Row) e :
  final_embedding ident (written ident try_body x) x e
  = match snd (try_body x) with Some v => Some v | None => e end.
Proof.
  unfold written. destruct (snd (try_body x)); [| reflexivity].
  unfold final_embedding. simpl. rewrite Z.eqb_refl. reflexivity.
Qed.

(** With distinct identifiers, the column of a row after the writes of a
    run is the vector of that row's own body, or what it held before. *)
Lemma final_embedding_rows (rows : list Row) (r : Row) :
  NoDup (map ident rows) -> In r rows ->
  forall e,
    final_embedding ident (flat_map (written ident try_body) rows) r e
    = match snd (try_body r) with Some v => Some v | None => e end.
Proof.
  induction rows as [| x rows IH]; intros Hnd Hin e; [contradiction |].
  inversion Hnd as [| ? ? Hx Hrest]; subst.
  cbn [flat_map]. rewrite final_embedding_app.
  destruct Hin as [-> | Hin].
  - rewrite final_embedding_written. apply final_embedding_no_match.
    intros u Hu Heq. apply in_flat_map in Hu. destruct Hu as (y & Hy & Hu).
    apply written_id in Hu. apply Hx. apply in_map_iff.
    exists y. split; [congruence | exact Hy].
  - rewrite (final_embedding_no_match (written ident try_body x)).
    + apply IH; assumption.
    + intros u Hu Heq. apply written_id in Hu. apply Hx.
      apply in_map_iff. exists r. split; [congruence | exact Hin].
Qed.

Lemma apply_updates_written_rows (t : @table Row) :
  NoDup (map (fun re => ident (fst re)) t) ->
  apply_updates ident
    (flat_map (written ident try_body) (select_ordered ident t)) t
  = map (fun re => match snd (try_body (fst re)) with
                   | Some v => (fst re, Some v)
                   | None => re
                   end) t.
Proof.
  intro Hnd. rewrite apply_updates_rows.
  apply map_ext_in. intros [r e] Hin. cbn [fst snd].
  rewrite final_embedding_rows.
  - destruct (snd (try_body r)); reflexivity.
  - apply (Permutation_NoDup
             (Permutation_sym
                (Permutation_map ident (select_ordered_permutation ident t)))).
    rewrite map_map. exact Hnd.
  - apply (Permutation_in _
             (Permutation_sym (select_ordered_permutation ident t))).
    apply in_map_iff. exists (r, e). split; [reflexivity | exact Hin].
Qed.

Lemma Forall2_map_r {A B : Type} (P : A -> B -> Prop) (f : A -> B)
    (l : list A) :
  (forall x, In x l -> P x (f x)) -> Forall2 P l (map f l).
Proof.
  induction l as [| x l IH]; intro H; simpl; constructor.
  - apply H. left. reflexivity.
  - apply IH. intros y Hy. apply H. right. exact Hy.
Qed.

(** A list of writes keeps the rows and never empties a column. *)
Lemma apply_updates_keeps us (t : @table Row) :
  Forall2 (fun before after =>
             fst after = fst before
             /\ (snd before <> None -> snd after <> None))
    t (apply_updates ident us t).
Proof.
  rewrite apply_updates_rows.
  apply Forall2_map_r. intros [r e] _. cbn [fst snd]. split; [reflexivity |].
  apply final_embedding_keeps_some.
Qed.

End StateFacts.

(** ** Where the commits fall *)

Lemma chunk_commits_all_true (n : nat) : forall i,
  chunk_commits i (repeat true n)
  = filter (fun k => (k mod 100 =? 0)%nat) (seq (S i) n).
Proof.
  induction n as [| n IH]; intro i; [reflexivity |].
  cbn [repeat chunk_commits seq filter andb]. rewrite IH, Nat.add_1_r.
  destruct (S i mod 100 =? 0)%nat; reflexivity.
Qed.

Lemma map_succeeds_all {Row : Type} (try_body : Row -> list string * option vec)
    (rows : list Row) :
  Forall (fun r => succeeds try_body r = true) rows ->
  map (succeeds try_body) rows = repeat true (length rows).
Proof.
  induction 1 as [| r rows Hr _ IH]; [reflexivity |].
  simpl. rewrite Hr, IH. reflexivity.
Qed.

(** When no row fails, the commits fall exactly after every 100th row and
    once more after the last row. *)
Theorem commits_without_failures {Row : Type} (ident : Row -> Z)
    (try_body : Row -> list string * option vec) (rows : list Row) :
  Forall (fun r => succeeds try_body r = true) rows ->
  commit_points (run_batch ident try_body rows)
  = filter (fun k => (k mod 100 =? 0)%nat) (seq 1 (length rows))
      ++ [length rows].
Proof.
  intro Hall. rewrite commit_points_run_batch, map_succeeds_all by exact Hall.
  rewrite chunk_commits_all_true. reflexivity.
Qed.

Lemma commits_without_failures_witness :
  commit_points
    (run_batch user_id (user_try_body Sample.execute_always [] [])
       (map (fun k => Sample.bare_user (Z.of_nat k)) (seq 1 250)))
  = [100; 200; 250]%nat.
Proof.
  assert (Hall : Forall
            (fun r => succeeds (user_try_body Sample.execute_always [] []) r
                      = true)
            (map (fun k => Sample.bare_user (Z.of_nat k)) (seq 1 250))).
  { apply Forall_forall. intros r Hr. apply in_map_iff in Hr.
    destruct Hr as (k & <- & _). reflexivity. }
  exact (eq_trans
           (commits_without_failures user_id
              (user_try_body Sample.execute_always [] [])
              (map (fun k => Sample.bare_user (Z.of_nat k)) (seq 1 250))
              Hall)
           eq_refl).
Defined.

Lemma chunk_commits_bounds (outcomes : list bool) : forall i,
  Forall (fun k => k mod 100 = 0 /\ i < k <= i + length outcomes)%nat
    (chunk_commits i outcomes)
  /\ StronglySorted lt (chunk_commits i outcomes).
Proof.
  induction outcomes as [| ok outcomes IH]; intro i;
    cbn [chunk_commits length].
  - split; constructor.
  - destruct (IH (S i)) as [Hall Hsorted].
    assert (Hall' : Forall
              (fun k => k mod 100 = 0 /\ i < k <= i + S (length outcomes))%nat
              (chunk_commits (S i) outcomes)).
    { eapply Forall_impl; [| exact Hall]. cbn beta. intros k Hk. lia. }
    rewrite Nat.add_1_r.
    destruct (ok && (S i mod 100 =? 0)%nat) eqn:E; cbn [app].
    + apply andb_true_iff in E. destruct E as [_ E]. apply Nat.eqb_eq in E.
      split.
      * constructor; [| exact Hall']. split; [exact E | lia].
      * constructor; [exact Hsorted |].
        eapply Forall_impl; [| exact Hall]. cbn beta. intros k Hk. lia.
    + split; assumption.
Qed.

(** In every run the last commit comes after all rows, also when the table
    is empty or every row fails; every earlier commit comes after a number
    of rows that is a positive multiple of 100, and no two commits before
    the last share a position. *)
Theorem commit_points_structure {Row : Type} (ident : Row -> Z)
    (try_body : Row -> list string * option vec) (rows : list Row) :
  exists periodic,
    commit_points (run_batch ident try_body rows) = periodic ++ [length rows]
    /\ Forall (fun k => k mod 100 = 0 /\ 0 < k <= length rows)%nat periodic
    /\ StronglySorted lt periodic.
Proof.
  exists (chunk_commits 0 (map (succeeds try_body) rows)).
  split; [apply commit_points_run_batch |].
  destruct (chunk_commits_bounds (map (succeeds try_body) rows) 0)
    as [Hall Hsorted].
  rewrite length_map in Hall. split; [exact Hall | exact Hsorted].
Qed.

(** ** The preference dictionary *)

Lemma find_app_first {A : Type} (p : A -> bool) (l1 l2 : list A) :
  find p (l1 ++ l2)
  = match find p l1 with Some x => Some x | None => find p l2 end.
Proof.
  induction l1 as [| x l1 IH]; [reflexivity |].
  simpl. destruct (p x); [reflexivity | exact IH].
Qed.

Lemma find_no_key {A : Type} (rows : list (Z * A)) (k : Z) :
  ~ In k (map fst rows) -> find (fun r => (fst r =? k)%Z) rows = None.
Proof.
  intro H. induction rows as [| r rows IH]; [reflexivity |].
  simpl. destruct (Z.eqb_spec (fst r) k) as [Heq | _].
  - exfalso. apply H. left. exact Heq.
  - apply IH. intro Hin. apply H. right. exact Hin.
Qed.

(** Of several rows of the preference query with the same identifier, the
    last one is the one looked up. *)
Theorem dict_get_last_row_wins {A : Type} (rows rest : list (Z * A))
    (k : Z) (v default : A) :
  ~ In k (map fst rest) ->
  dict_get (rows ++ (k, v) :: rest) k default = v.
Proof.
  intro Hrest. unfold dict_get.
  rewrite rev_app_distr. cbn [rev]. rewrite <- app_assoc.
  rewrite find_app_first, find_no_key.
  - cbn [app find fst]. rewrite Z.eqb_refl. reflexivity.
  - rewrite map_rev. intro Hin. apply in_rev in Hin. exact (Hrest Hin).
Qed.

Lemma dict_get_last_row_wins_witness :
  dict_get [(1%Z, "a"%string); (2%Z, "b"%string); (1%Z, "c"%string);
            (3%Z, "d"%string)] 1 "none"%string
  = "c"%string.
Proof.
  apply (dict_get_last_row_wins [(1%Z, "a"%string); (2%Z, "b"%string)]
           [(3%Z, "d"%string)] 1 "c"%string "none"%string).
  simpl. intuition discriminate.
Defined.

(** A user without a row in the preference query gets the neutral value
    0.375 at all 18 preference positions. *)
Theorem missing_preference_row_is_neutral
    (genre_pref_dict : list (Z * list (option R))) (u : user_row) :
  ~ In (user_id u) (map fst genre_pref_dict) ->
  prefs_of genre_pref_dict u = repeat None 18
  /\ genre_pref_vector (prefs_of genre_pref_dict u) = repeat 0.375 18.
Proof.
  intro Hmiss.
  assert (Hp : prefs_of genre_pref_dict u = repeat None 18).
  { unfold prefs_of, dict_get. rewrite find_no_key; [reflexivity |].
    rewrite map_rev. intro Hin. apply in_rev in Hin. exact (Hmiss Hin). }
  split; [exact Hp |]. rewrite Hp.
  unfold genre_pref_vector. cbn [repeat map].
  assert (H : genre_pref_feature None = 0.375)
    by (unfold genre_pref_feature; lra).
  rewrite !H. reflexivity.
Qed.

Lemma missing_preference_row_is_neutral_witness :
  genre_pref_vector
    (prefs_of [(1%Z, [Some 4; None])] (Sample.bare_user 2))
  = repeat 0.375 18.
Proof.
  apply missing_preference_row_is_neutral. simpl. intuition discriminate.
Defined.

(** ** What the verifier reports after a run *)

Section VerifyFacts.

Context {Row : Type}.
Variable ident : Row -> Z.
Variable try_body : Row -> list string * option vec.

Lemma final_embedding_match us (r : Row) e :
  (exists u, In u us /\ fst u = ident r) ->
  exists u, In u us /\ final_embedding ident us r e = Some (snd u).
Proof.
  induction us as [| [k v] us IH] using rev_ind; intros (u & Hu & Hid);
    [contradiction |].
  rewrite final_embedding_snoc.
  destruct (Z.eqb_spec (ident r) k) as [Heq | Hne].
  - exists (k, v). split; [apply in_or_app; right; left; reflexivity |].
    reflexivity.
  - apply in_app_or in Hu. destruct Hu as [Hu | [<- | []]].
    + destruct IH as (w & Hw & Hfin); [exists u; split; assumption |].
      exists w. split; [apply in_or_app; left; exact Hw | exact Hfin].
    + exfalso. apply Hne. symmetry. exact Hid.
Qed.

(** When the body of every row goes through, every row holds a vector
    once the writes of the run are applied. *)
Lemma apply_updates_all_written (t : @table Row) :
  (forall re, In re t -> succeeds try_body (fst re) = true) ->
  (forall r, Forall (fun u => length (snd u) = 128%nat)
               (written ident try_body r)) ->
  Forall (fun re : _ * option vec =>
     exists w : vec, snd re = Some w /\ length w = 128%nat)
    (apply_updates ident
       (flat_map (written ident try_body) (select_ordered ident t)) t).
Proof.
  intros Hok Hwf. rewrite apply_updates_rows.
  apply Forall_forall. intros re' Hin. apply in_map_iff in Hin.
  destruct Hin as ([r e] & <- & Hin). cbn [fst snd].
  assert (Hr : In r (select_ordered ident t)).
  { apply (Permutation_in _
             (Permutation_sym (select_ordered_permutation ident t))).
    apply in_map_iff. exists (r, e). split; [reflexivity | exact Hin]. }
  specialize (Hok (r, e) Hin). cbn [fst] in Hok.
  destruct (final_embedding_match
              (flat_map (written ident try_body) (select_ordered ident t)) r e)
    as (u & Hu & Hfin).
  - unfold succeeds in Hok.
    destruct (snd (try_body r)) as [v |] eqn:E; [| discriminate].
    exists (ident r, v). split; [| reflexivity].
    apply in_flat_map. exists r. split; [exact Hr |].
    unfold written. rewrite E. left. reflexivity.
  - exists (snd u). split; [exact Hfin |].
    apply in_flat_map in Hu. destruct Hu as (r' & _ & Hu).
    specialize (Hwf r'). rewrite Forall_forall in Hwf.
    apply (Hwf u Hu).
Qed.

End VerifyFacts.

Lemma array_length_128 (w : vec) :
  length w = 128%nat -> array_length (Some w) = Some 128%nat.
Proof.
  intro H. destruct w as [| x rest]; [discriminate |].
  unfold array_length. rewrite H. reflexivity.
Qed.

Lemma non_null_repeat (k n : nat) :
  non_null (repeat (Some k) n) = repeat k n.
Proof. induction n as [| n IH]; [reflexivity |]. simpl. f_equal. exact IH. Qed.

Lemma sum_repeat (k n : nat) :
  fold_right Nat.add 0%nat (repeat k n) = (k * n)%nat.
Proof. induction n as [| n IH]; simpl; [lia | rewrite IH; lia]. Qed.

Lemma sql_avg_constant (k n : nat) :
  (0 < n)%nat -> sql_avg (repeat (Some k) n) = Some (INR k).
Proof.
  intro Hn. unfold sql_avg. rewrite non_null_repeat.
  destruct n as [| n]; [lia |].
  assert (E : repeat k (S n) = k :: repeat k n) by reflexivity.
  rewrite E. cbv iota. rewrite <- E.
  rewrite sum_repeat, repeat_length, mult_INR.
  f_equal. field. apply not_0_INR. lia.
Qed.

Lemma stats_all_128 {Row : Type} (t : @table Row) :
  t <> [] ->
  Forall (fun re : _ * option vec =>
     exists w : vec, snd re = Some w /\ length w = 128%nat) t ->
  embedding_stats t
  = {| total_rows := length t;
       rows_with_embeddings := length t;
       avg_embedding_dim := Some 128 |}.
Proof.
  intros Hne Hall. unfold embedding_stats.
  assert (Hf : filter has_embedding t = t).
  { apply filter_all. eapply Forall_impl; [| exact Hall].
    intros re (w & Hw & _). cbv beta. unfold has_embedding.
    rewrite Hw. reflexivity. }
  assert (Hm : map (fun re => array_length (snd re)) t
               = repeat (Some 128%nat) (length t)).
  { clear Hne Hf. induction Hall as [| re t (w & Hw & Hlen) _ IH];
      [reflexivity |].
    simpl. rewrite IH, Hw, (array_length_128 w Hlen). reflexivity. }
  rewrite Hf, Hm, sql_avg_constant.
  - f_equal. f_equal. rewrite INR_IZR_INZ. reflexivity.
  - destruct t; [contradiction | simpl; lia].
Qed.

Lemma samples_all_128 {Row : Type} (ident : Row -> Z) (t : @table Row) :
  Forall (fun re : _ * option vec =>
     exists w : vec, snd re = Some w /\ length w = 128%nat) t ->
  Forall (fun s => snd s = Some 128%nat) (embedding_samples ident t).
Proof.
  intro Hall. unfold embedding_samples. apply Forall_forall. intros s Hs.
  apply in_firstn_in in Hs. apply in_map_iff in Hs.
  destruct Hs as (re & <- & Hre). apply filter_In in Hre.
  rewrite Forall_forall in Hall. destruct (Hall re (proj1 Hre)) as (w & Hw & Hlen).
  cbn [snd]. rewrite Hw. apply array_length_128. exact Hlen.
Qed.

Lemma has_embedding_count_le {Row : Type} (t t' : @table Row) :
  Forall2 (fun before after : Row * option vec =>
             fst after = fst before
             /\ (snd before <> None -> snd after <> None)) t t' ->
  (length (filter has_embedding t) <= length (filter has_embedding t'))%nat.
Proof.
  induction 1 as [| [r e] [r' e'] t t' [_ Hkeep] _ IH]; [simpl; lia |].
  cbn [filter].
  destruct (has_embedding (r, e)) eqn:E1, (has_embedding (r', e')) eqn:E2;
    cbn [length]; try lia.
  exfalso. unfold has_embedding in E1, E2. cbn [snd] in *.
  destruct e; [| discriminate]. destruct e'; [discriminate |].
  apply Hkeep; [discriminate | reflexivity].
Qed.

Lemma has_embedding_count_bound {Row : Type} (t : @table Row) :
  (length (filter has_embedding t) <= length t)%nat.
Proof.
  pose proof (filter_length has_embedding t). lia.
Qed.

(** ** The entry point *)

Lemma found_tables_complete (db : database) :
  NoDup (public_tables db) ->
  length (found_tables db) = 3%nat ->
  forall name, In name required_tables -> In name (public_tables db).
Proof.
  intros Hnd Hlen name Hname.
  assert (Hincl : incl (found_tables db) required_tables).
  { intros x Hx. unfold found_tables in Hx. apply filter_In in Hx.
    apply mem_true_iff. tauto. }
  assert (Hall : incl required_tables (found_tables db)).
  { apply NoDup_length_incl.
    - apply NoDup_filter. exact Hnd.
    - rewrite Hlen. simpl. lia.
    - exact Hincl. }
  apply Hall in Hname. unfold found_tables in Hname.
  apply filter_In in Hname. tauto.
Qed.

(** A generator runs only if exactly one argument was given, the
    connection succeeded, the model loaded and, table names being distinct,
    users, movies and ratings all exist. *)
Theorem generators_need_all_tables (connect_db : string -> option database)
    (load_model : option (string -> option vec))
    (execute_ok : Z -> vec -> bool) (argv : list string) (tr : list event) :
  (forall s db, connect_db s = Some db -> NoDup (public_tables db)) ->
  In (Ran tr) (fst (fst (main connect_db load_model execute_ok argv))) ->
  exists program connection_string db encode,
    argv = [program; connection_string]
    /\ connect_db connection_string = Some db
    /\ load_model = Some encode
    /\ (forall name, In name required_tables -> In name (public_tables db)).
Proof.
  intros Hnd Hin. unfold main in Hin.
  destruct argv as [| program [| connection_string [| extra argv]]];
    try (simpl in Hin; intuition discriminate).
  destruct (connect_db connection_string) as [db |] eqn:Ec;
    [| simpl in Hin; intuition discriminate].
  destruct (length (found_tables db) =? 3)%nat eqn:Et;
    [| simpl in Hin; intuition discriminate].
  unfold generate_and_verify in Hin.
  destruct load_model as [encode |]; [| simpl in Hin; intuition discriminate].
  exists program, connection_string, db, encode.
  repeat split; try assumption.
  apply found_tables_complete.
  - apply (Hnd connection_string). exact Ec.
  - apply Nat.eqb_eq. exact Et.
Qed.

Lemma generators_need_all_tables_witness :
  let db :=
    {| public_tables := ["movies"; "notes"; "ratings"; "users"]%string;
       movies_table := [(Sample.toy_story, None)];
       users_table := Sample.bare_users 1;
       genre_prefs_view := [] |} in
  In "ratings"%string (public_tables db).
Proof.
  intro db.
  destruct (generators_need_all_tables (fun _ => Some db)
              (Some (Sample.encode_except "")) Sample.execute_always
              ["generate_embeddings.py"; "dbname=movielens_demo"]%string
              (fst (movies_session (Sample.encode_except "")
                      Sample.execute_always (movies_table db))))
    as (program & s & db' & encode & _ & Hc & _ & Hall).
  - intros s db0 H. inversion H. subst db0.
    repeat constructor; simpl; intuition discriminate.
  - left. reflexivity.
  - inversion Hc. subst db'. apply Hall. simpl. tauto.
Defined.

(** Once a connection was made it is closed exactly once, as the last
    thing [main] does, on every path, also the one through [sys.exit];
    without a connection nothing is closed and the status is 1.  A rollback
    happens only when an exception leaves [main], and a generator never
    runs on a path that ends in [sys.exit]. *)
Theorem main_connection_discipline (connect_db : string -> option database)
    (load_model : option (string -> option vec))
    (execute_ok : Z -> vec -> bool) (argv : list string) :
  let events := fst (fst (main connect_db load_model execute_ok argv)) in
  let status := snd (fst (main connect_db load_model execute_ok argv)) in
  let final := snd (main connect_db load_model execute_ok argv) in
  (final <> None ->
     length (filter is_close events) = 1%nat /\ last events PrintUsage = Close)
  /\ (final = None -> filter is_close events = [] /\ status = Exited 1)
  /\ (filter is_rollback events <> [] -> status = Raised)
  /\ (filter is_generator_run events <> [] ->
      forall code, status <> Exited code).
Proof.
  unfold main.
  destruct argv as [| program [| connection_string [| extra argv]]];
    try (cbn; repeat split; congruence).
  destruct (connect_db connection_string) as [db |];
    [| cbn; repeat split; congruence].
  destruct (length (found_tables db) =? 3)%nat;
    [| cbn; repeat split; congruence].
  unfold generate_and_verify.
  destruct load_model as [encode |]; cbn; repeat split; congruence.
Qed.

Lemma main_connection_discipline_witness :
  let db :=
    {| public_tables := ["movies"; "users"]%string;
       movies_table := []; users_table := []; genre_prefs_view := [] |} in
  let run :=
    main (fun _ => Some db) None Sample.execute_always
      ["generate_embeddings.py"; "dbname=movielens_demo"]%string in
  length (filter is_close (fst (fst run))) = 1%nat
  /\ last (fst (fst run)) PrintUsage = Close
  /\ snd (fst run) = Exited 1.
Proof.
  intros db run.
  destruct (main_connection_discipline (fun _ => Some db) None
              Sample.execute_always
              ["generate_embeddings.py"; "dbname=movielens_demo"]%string)
    as (Hclose & _ & _ & _).
  destruct Hclose as [Hone Hlast]; [discriminate |].
  split; [exact Hone |]. split; [exact Hlast | reflexivity].
Defined.

(** * The generators on the store *)

(** ** The store seen through a map *)

Section SessionMorphism.

Context {S1 S2 Row : Type}.
Variable write1 : Z -> vec -> S1 -> S1.
Variable write2 : Z -> vec -> S2 -> S2.
Variable h : S1 -> S2.
Hypothesis write_commutes : forall k v s, h (write1 k v s) = write2 k v (h s).
Variable accepts : Z -> vec -> bool.
Variable ident : Row -> Z.
Variable embed : Row -> list string * option vec.

Lemma execute_update_map k v (c : @session S1) :
  execute_update write2 accepts k v (map_session h c)
  = (fst (execute_update write1 accepts k v c),
     map_session h (snd (execute_update write1 accepts k v c))).
Proof.
  destruct c as [d p a]. unfold execute_update, map_session.
  cbn [aborted pending durable]. destruct a; [reflexivity |].
  destruct (accepts k v); cbn [fst snd aborted pending durable];
    [rewrite write_commutes |]; reflexivity.
Qed.

Lemma commit_map (c : @session S1) :
  commit (map_session h c) = map_session h (commit c).
Proof.
  destruct c as [d p a]. unfold commit, map_session.
  cbn [aborted pending durable]. destruct a; reflexivity.
Qed.

Lemma session_iteration_map total i row (st : @session_state S1) :
  session_iteration write2 accepts ident embed total i row (map_state h st)
  = map_state h (session_iteration write1 accepts ident embed total i row st).
Proof.
  unfold session_iteration. destruct (snd (embed row)) as [v |];
    [| reflexivity].
  cbn [map_state conn generated events]. rewrite execute_update_map.
  cbn [fst snd].
  destruct (fst (execute_update write1 accepts (ident row) v (conn st)));
    [| reflexivity].
  unfold map_state. cbn [conn generated events].
  destruct ((i + 1) mod 100 =? 0)%nat; [rewrite commit_map |]; reflexivity.
Qed.

Lemma session_for_each_map total rows : forall i (st : @session_state S1),
  session_for_each write2 accepts ident embed total i rows (map_state h st)
  = map_state h
      (session_for_each write1 accepts ident embed total i rows st).
Proof.
  induction rows as [| row rows IH]; intros i st; [reflexivity |].
  cbn [session_for_each]. rewrite session_iteration_map. apply IH.
Qed.

Lemma run_session_map rows (s0 : S1) :
  run_session write2 accepts ident embed rows (h s0)
  = (fst (run_session write1 accepts ident embed rows s0),
     h (snd (run_session write1 accepts ident embed rows s0))).
Proof.
  unfold run_session.
  change {| generated := 0;
            events := [LogProcessing (length rows)];
            conn := open_session (h s0) |}
    with (map_state h
            {| generated := 0;
               events := [LogProcessing (length rows)];
               conn := open_session s0 |}).
  rewrite session_for_each_map. cbn [fst snd map_state generated events conn].
  rewrite commit_map. reflexivity.
Qed.

End SessionMorphism.

Section SessionFacts.

Context {Row : Type}.
Variable accepts : Z -> vec -> bool.
Variable ident : Row -> Z.
Variable embed : Row -> list string * option vec.

Lemma apply_updates_record k v ws (t : @table Row) :
  apply_updates ident (record_write k v ws) t
  = update_embedding ident k v (apply_updates ident ws t).
Proof. unfold apply_updates, record_write. apply fold_left_app. Qed.

(** What a run leaves in the relation is the relation it found with the
    surviving writes applied; its events do not depend on the relation. *)
Lemma run_session_table rows (t : @table Row) :
  run_session (update_embedding ident) accepts ident embed rows t
  = (fst (run_session record_write accepts ident embed rows []),
     apply_updates ident (surviving_writes accepts ident embed rows) t).
Proof.
  unfold surviving_writes.
  exact (run_session_map record_write (update_embedding ident)
           (fun ws => apply_updates ident ws t)
           (fun k v ws => apply_updates_record k v ws t)
           accepts ident embed rows []).
Qed.

End SessionFacts.

(** ** Which writes survive *)

Section SessionInvariants.

Context {Row : Type}.
Variable accepts : Z -> vec -> bool.
Variable ident : Row -> Z.
Variable embed : Row -> list string * option vec.

Lemma execute_update_within (A : list (Z * vec)) k v
    (c : @session (list (Z * vec))) :
  In (k, v) A -> incl (durable c) A -> incl (pending c) A ->
  incl (durable (snd (execute_update record_write accepts k v c))) A
  /\ incl (pending (snd (execute_update record_write accepts k v c))) A.
Proof.
  intros Hkv Hd Hp. destruct c as [d p a]. unfold execute_update.
  cbn [aborted pending durable] in *. destruct a; [split; assumption |].
  destruct (accepts k v); cbn [snd pending durable]; split; try assumption.
  unfold record_write. apply incl_app; [exact Hp |].
  intros u [<- | []]. exact Hkv.
Qed.

Lemma commit_within (A : list (Z * vec)) (c : @session (list (Z * vec))) :
  incl (durable c) A -> incl (pending c) A ->
  incl (durable (commit c)) A /\ incl (pending (commit c)) A.
Proof.
  intros Hd Hp. destruct c as [d p a]. unfold commit.
  cbn [aborted pending durable] in *. destruct a; split; assumption.
Qed.

Lemma session_for_each_within (allrows : list Row) total rows :
  incl rows allrows ->
  forall i (st : @session_state (list (Z * vec))),
    incl (durable (conn st)) (flat_map (written ident embed) allrows) ->
    incl (pending (conn st)) (flat_map (written ident embed) allrows) ->
    let st' := session_for_each record_write accepts ident embed total i rows st in
    incl (durable (conn st')) (flat_map (written ident embed) allrows)
    /\ incl (pending (conn st')) (flat_map (written ident embed) allrows).
Proof.
  induction rows as [| row rows IH]; intros Hrows i st Hd Hp;
    [split; assumption |].
  cbn [session_for_each]. apply IH.
  - intros r Hr. apply Hrows. right. exact Hr.
  - unfold session_iteration.
    destruct (snd (embed row)) as [v |] eqn:E; [| exact Hd].
    assert (Hkv : In (ident row, v) (flat_map (written ident embed) allrows)).
    { apply in_flat_map. exists row. split; [apply Hrows; left; reflexivity |].
      unfold written. rewrite E. left. reflexivity. }
    destruct (execute_update_within _ (ident row) v (conn st) Hkv Hd Hp)
      as [Hd' Hp'].
    destruct (fst (execute_update record_write accepts (ident row) v (conn st)));
      cbn [conn]; [| exact Hd'].
    destruct ((i + 1) mod 100 =? 0)%nat; [| exact Hd'].
    apply commit_within; assumption.
  - unfold session_iteration.
    destruct (snd (embed row)) as [v |] eqn:E; [| exact Hp].
    assert (Hkv : In (ident row, v) (flat_map (written ident embed) allrows)).
    { apply in_flat_map. exists row. split; [apply Hrows; left; reflexivity |].
      unfold written. rewrite E. left. reflexivity. }
    destruct (execute_update_within _ (ident row) v (conn st) Hkv Hd Hp)
      as [Hd' Hp'].
    destruct (fst (execute_update record_write accepts (ident row) v (conn st)));
      cbn [conn]; [| exact Hp'].
    destruct ((i + 1) mod 100 =? 0)%nat; [| exact Hp'].
    apply commit_within; assumption.
Qed.

(** Every surviving write is the write of some row of the run: its
    identifier and the vector computed for that row. *)
Lemma surviving_writes_attempted (rows : list Row) :
  incl (surviving_writes accepts ident embed rows)
    (flat_map (written ident embed) rows).
Proof.
  unfold surviving_writes, run_session. cbn [snd].
  apply commit_within; apply session_for_each_within;
    try apply incl_refl; cbn; intros u [].
Qed.

Lemma session_for_each_accepted total rows :
  (forall r v, In r rows -> snd (embed r) = Some v ->
               accepts (ident r) v = true) ->
  forall i (ss : @session_state (list (Z * vec))) (so : run_state),
    aborted (conn ss) = false ->
    generated ss = embeddings_generated so ->
    events ss = trace so ->
    let ss' := session_for_each record_write accepts ident embed total i rows ss in
    let so' := for_each ident embed total i rows so in
    aborted (conn ss') = false
    /\ generated ss' = embeddings_generated so'
    /\ events ss' = trace so'
    /\ pending (conn ss')
       = pending (conn ss) ++ flat_map (written ident embed) rows.
Proof.
  induction rows as [| row rows IH]; intros Hacc i ss so Ha Hg He.
  - cbn. rewrite app_nil_r. repeat split; assumption.
  - cbn [session_for_each for_each flat_map].
    assert (Hrest : forall r v, In r rows -> snd (embed r) = Some v ->
                                accepts (ident r) v = true)
      by (intros r v Hr; apply Hacc; right; exact Hr).
    specialize (IH Hrest (S i)
                  (session_iteration record_write accepts ident embed total i row ss)
                  (iteration ident embed total i row so)).
    assert (Hstep :
      aborted (conn (session_iteration record_write accepts ident embed
                       total i row ss)) = false
      /\ generated (session_iteration record_write accepts ident embed
                      total i row ss)
         = embeddings_generated (iteration ident embed total i row so)
      /\ events (session_iteration record_write accepts ident embed
                   total i row ss)
         = trace (iteration ident embed total i row so)
      /\ pending (conn (session_iteration record_write accepts ident embed
                          total i row ss))
         = pending (conn ss) ++ written ident embed row).
    { unfold session_iteration, iteration, written.
      destruct (snd (embed row)) as [v |] eqn:E.
      - pose proof (Hacc row v (or_introl eq_refl) E) as Hok.
        destruct ss as [g ev [d p a]]. cbn [conn aborted] in Ha. subst a.
        unfold execute_update. cbn [conn aborted pending durable generated events].
        rewrite Hok. cbn [fst snd generated events conn].
        cbn [generated events] in Hg, He. rewrite Hg, He.
        destruct ((i + 1) mod 100 =? 0)%nat; unfold commit;
          cbn [aborted pending durable embeddings_generated trace];
          repeat split; reflexivity.
      - cbn [conn generated events embeddings_generated trace].
        rewrite Hg, He, app_nil_r. repeat split; try reflexivity. exact Ha. }
    destruct Hstep as (Ha' & Hg' & He' & Hp').
    destruct (IH Ha' Hg' He') as (Ha'' & Hg'' & He'' & Hp'').
    repeat split; try assumption.
    rewrite Hp'', Hp', <- app_assoc. reflexivity.
Qed.

(** On a store that accepts every UPDATE of the run, the events are those
    of the loop in which only computing the vector can fail, and every
    write survives. *)
Lemma run_session_accepted (rows : list Row) :
  (forall r v, In r rows -> snd (embed r) = Some v ->
               accepts (ident r) v = true) ->
  run_session record_write accepts ident embed rows []
  = (run_batch ident embed rows, flat_map (written ident embed) rows).
Proof.
  intro Hacc. unfold run_session, run_batch.
  destruct (session_for_each_accepted (length rows) rows Hacc 0
              {| generated := 0;
                 events := [LogProcessing (length rows)];
                 conn := open_session [] |}
              {| embeddings_generated := 0;
                 trace := [LogProcessing (length rows)] |}
              eq_refl eq_refl eq_refl)
    as (Ha & Hg & He & Hp).
  rewrite Hg, He. f_equal.
  unfold commit. rewrite Ha, Hp. reflexivity.
Qed.

End SessionInvariants.

(** ** The stored relation after a run on the transactional store *)


Section StoredFacts.

Context {Row : Type}.
Variable accepts : Z -> vec -> bool.
Variable ident : Row -> Z.
Variable embed : Row -> list string * option vec.

Lemma final_embedding_cases us (r : Row) e :
  final_embedding ident us r e = e
  \/ exists u, In u us /\ fst u = ident r
               /\ final_embedding ident us r e = Some (snd u).
Proof.
  induction us as [| [k v] us IH] using rev_ind; [left; reflexivity |].
  rewrite final_embedding_snoc.
  destruct (Z.eqb_spec (ident r) k) as [Heq | Hne].
  - right. exists (k, v). split; [apply in_or_app; right; left; reflexivity |].
    split; [symmetry; exact Heq | reflexivity].
  - destruct IH as [IH | (u & Hu & Hid & Hfin)]; [left; exact IH |].
    right. exists u. split; [apply in_or_app; left; exact Hu |].
    split; assumption.
Qed.

Lemma stored_after_eq (t : @table Row) :
  stored_after accepts ident embed t
  = apply_updates ident
      (surviving_writes accepts ident embed (select_ordered ident t)) t.
Proof. unfold stored_after. rewrite run_session_table. reflexivity. Qed.



Lemma stored_after_accepted (t : @table Row) :
  NoDup (map (fun re => ident (fst re)) t) ->
  (forall re v, In re t -> snd (embed (fst re)) = Some v ->
                accepts (ident (fst re)) v = true) ->
  stored_after accepts ident embed t
  = map (fun re => match snd (embed (fst re)) with
                   | Some v => (fst re, Some v)
                   | None => re
                   end) t.
Proof.
  intros Hnd Hacc. rewrite stored_after_eq. unfold surviving_writes.
  rewrite run_session_accepted.
  - cbn [snd]. rewrite apply_updates_rows. apply map_ext_in.
    intros [r e] Hin. cbn [fst snd]. rewrite final_embedding_rows.
    + destruct (snd (embed r)); reflexivity.
    + apply (Permutation_NoDup
               (Permutation_sym
                  (Permutation_map ident (select_ordered_permutation ident t)))).
      rewrite map_map. exact Hnd.
    + apply (Permutation_in _
               (Permutation_sym (select_ordered_permutation ident t))).
      apply in_map_iff. exists (r, e). split; [reflexivity | exact Hin].
  - intros r v Hr E.
    apply (Permutation_in _ (select_ordered_permutation ident t)) in Hr.
    apply in_map_iff in Hr. destruct Hr as ([r0 e0] & Heq & Hin).
    cbn [fst] in Heq. subst r0. apply (Hacc (r, e0) v Hin E).
Qed.


End StoredFacts.

(** ** Re-running *)






(** ** A rejected UPDATE *)

(** C4, evaluated on the code with the store's transaction: three movies,
    none with an embedding yet, and an encoder that answers every text.
    When the store rejects the UPDATE of the last movie, that movie is the
    only one whose step raises, the run ends with a success counter of 2
    and one error line, and yet no vector is stored: the final commit of
    the aborted transaction discards the two earlier writes.  When it
    rejects the UPDATE of the second movie, the third movie fails as well.
    When instead the encoder raises on the second movie, the failure is
    isolated and the other two vectors are stored. *)
Theorem rejected_update_not_isolated :
  let movies :=
    [(Sample.toy_story, None); (Sample.untitled, None); (Sample.heat, None)] in
  let last_rejected :=
    movies_session (Sample.encode_except "") (Sample.execute_except 3) movies in
  let second_rejected :=
    movies_session (Sample.encode_except "") (Sample.execute_except 2) movies in
  let encoder_raises :=
    movies_session (Sample.encode_except "Untitled general")
      Sample.execute_always movies in
  (errors (fst last_rejected) = [3%Z]
   /\ map fst (updates (fst last_rejected)) = [1%Z; 2%Z]
   /\ last (fst last_rejected) Commit = LogGenerated 2
   /\ snd last_rejected = movies)
  /\ (errors (fst second_rejected) = [2%Z; 3%Z]
      /\ last (fst second_rejected) Commit = LogGenerated 1
      /\ snd second_rejected = movies)
  /\ (errors (fst encoder_raises) = [2%Z]
      /\ last (fst encoder_raises) Commit = LogGenerated 2
      /\ snd encoder_raises
         = [ (Sample.toy_story,
              Some (combined_embedding [3; 4] Sample.toy_story));
             (Sample.untitled, None);
             (Sample.heat, Some (combined_embedding [3; 4] Sample.heat)) ]).
Proof.
  cbv zeta. repeat split; reflexivity.
Qed.

Lemma chunk_boundary (n : nat) :
  ((n + 1) mod 100 = 0 -> 100 * ((n + 1) / 100) = n + 1)%nat.
Proof. intro H. pose proof (Nat.div_mod_eq (n + 1) 100). lia. Qed.

Lemma chunk_interior (n : nat) :
  ((n + 1) mod 100 <> 0 -> (n + 1) / 100 = n / 100)%nat.
Proof.
  intro H.
  pose proof (Nat.div_mod_eq (n + 1) 100). pose proof (Nat.div_mod_eq n 100).
  pose proof (Nat.mod_upper_bound (n + 1) 100).
  pose proof (Nat.mod_upper_bound n 100). nia.
Qed.

Lemma chunk_start_le (n : nat) : (100 * (n / 100) <= n)%nat.
Proof. pose proof (Nat.div_mod_eq n 100). lia. Qed.

Section Cascade.

Context {Row : Type}.
Variable accepts : Z -> vec -> bool.
Variable ident : Row -> Z.
Variable embed : Row -> list string * option vec.

Lemma session_for_each_app {Store : Type} (write : Z -> vec -> Store -> Store)
    total (a b : list Row) : forall i (st : @session_state Store),
  session_for_each write accepts ident embed total i (a ++ b) st
  = session_for_each write accepts ident embed total (i + length a) b
      (session_for_each write accepts ident embed total i a st).
Proof.
  induction a as [| x a IH]; intros i st; cbn [app session_for_each length].
  - rewrite Nat.add_0_r. reflexivity.
  - rewrite IH. replace (S i + length a)%nat with (i + S (length a))%nat by lia.
    reflexivity.
Qed.

(** Once the transaction is aborted every further row is an error and the
    session stays as it is. *)
Lemma session_for_each_aborted {Store : Type}
    (write : Z -> vec -> Store -> Store) total rows :
  forall i (st : @session_state Store),
    aborted (conn st) = true ->
    let st' := session_for_each write accepts ident embed total i rows st in
    conn st' = conn st
    /\ generated st' = generated st
    /\ errors (events st') = errors (events st) ++ map ident rows
    /\ updates (events st') = updates (events st).
Proof.
  induction rows as [| r rows IH]; intros i st Ha.
  - cbn. rewrite app_nil_r. repeat split; reflexivity.
  - cbn [session_for_each].
    assert (Hstep :
      conn (session_iteration write accepts ident embed total i r st) = conn st
      /\ generated (session_iteration write accepts ident embed total i r st)
         = generated st
      /\ events (session_iteration write accepts ident embed total i r st)
         = events st ++ map Encode (fst (embed r)) ++ [LogError (ident r)]).
    { unfold session_iteration. destruct (snd (embed r)) as [v |];
        [| repeat split; reflexivity].
      unfold execute_update. rewrite Ha. cbn [fst snd].
      repeat split; reflexivity. }
    destruct Hstep as (Hc & Hg & He).
    destruct (IH (S i)
                (session_iteration write accepts ident embed total i r st))
      as (Hc' & Hg' & He' & Hu'); [rewrite Hc; exact Ha |].
    cbv zeta. rewrite Hc', Hg', He', Hu', Hc, Hg, He.
    repeat split; try reflexivity.
    + rewrite !errors_app, errors_encode. cbn [map app errors flat_map].
      rewrite <- app_assoc. reflexivity.
    + rewrite !updates_app, updates_encode. cbn. rewrite app_nil_r.
      reflexivity.
Qed.

(** While every row goes through, the pending relation holds every write
    so far and the durable one the writes up to the last full hundred. *)
Lemma session_for_each_clean total rows :
  forall (done : list Row) (st : @session_state (list (Z * vec))),
    Forall (goes_through accepts ident embed) rows ->
    aborted (conn st) = false ->
    pending (conn st) = flat_map (written ident embed) done ->
    durable (conn st)
    = flat_map (written ident embed) (firstn (100 * (length done / 100)) done) ->
    let st' :=
      session_for_each record_write accepts ident embed total
        (length done) rows st in
    aborted (conn st') = false
    /\ pending (conn st') = flat_map (written ident embed) (done ++ rows)
    /\ durable (conn st')
       = flat_map (written ident embed) (firstn (100 * (length (done ++ rows) / 100)) (done ++ rows))
    /\ generated st' = (generated st + length rows)%nat
    /\ errors (events st') = errors (events st)
    /\ map fst (updates (events st'))
       = map fst (updates (events st)) ++ map ident rows.
Proof.
  induction rows as [| r rows IH]; intros done st Hall Ha Hp Hd.
  - cbn. rewrite !app_nil_r. repeat split; try assumption. lia.
  - inversion Hall as [| ? ? (v & E & Hok) Hrest]; subst.
    cbn [session_for_each].
    set (st1 := session_iteration record_write accepts ident embed total
                  (length done) r st).
    assert (Hw : flat_map (written ident embed) (done ++ [r]) = flat_map (written ident embed) done ++ [(ident r, v)]).
    { rewrite flat_map_app. cbn [flat_map]. unfold written. rewrite E.
      reflexivity. }
    assert (Hlen : length (done ++ [r]) = (length done + 1)%nat)
      by (rewrite length_app; reflexivity).
    assert (Hstep :
      aborted (conn st1) = false
      /\ pending (conn st1) = flat_map (written ident embed) (done ++ [r])
      /\ durable (conn st1)
         = flat_map (written ident embed) (firstn (100 * (length (done ++ [r]) / 100)) (done ++ [r]))
      /\ generated st1 = S (generated st)
      /\ errors (events st1) = errors (events st)
      /\ map fst (updates (events st1))
         = map fst (updates (events st)) ++ [ident r]).
    { unfold st1, session_iteration. rewrite E.
      destruct st as [g ev [d p a]].
      cbn [conn aborted pending durable generated events] in *. subst a.
      unfold execute_update. cbn [aborted pending durable]. rewrite Hok.
      cbn [fst snd generated events conn]. rewrite Hw, Hlen.
      destruct (Nat.eqb_spec ((length done + 1) mod 100) 0) as [Hz | Hnz].
      - unfold commit. cbn [aborted pending durable].
        rewrite (chunk_boundary _ Hz), <- Hlen, firstn_all, Hw.
        unfold record_write. rewrite Hp.
        repeat split; try reflexivity.
        + rewrite !errors_app, errors_encode. cbn. rewrite app_nil_r.
          reflexivity.
        + rewrite !updates_app, updates_encode. cbn.
          rewrite map_app. reflexivity.
      - rewrite (chunk_interior _ Hnz).
        rewrite firstn_app.
        replace (100 * (length done / 100) - length done)%nat with 0%nat
          by (pose proof (chunk_start_le (length done)); lia).
        cbn [firstn]. rewrite app_nil_r.
        unfold record_write. rewrite Hp.
        repeat split; try reflexivity; try assumption.
        + rewrite !errors_app, errors_encode. cbn. rewrite app_nil_r.
          reflexivity.
        + rewrite !updates_app, updates_encode. cbn.
          rewrite map_app. reflexivity. }
    destruct Hstep as (Ha1 & Hp1 & Hd1 & Hg1 & He1 & Hu1).
    replace (S (length done)) with (length (done ++ [r])) by (rewrite Hlen; lia).
    destruct (IH (done ++ [r]) st1 Hrest Ha1 Hp1 Hd1)
      as (Ha' & Hp' & Hd' & Hg' & He' & Hu').
    rewrite <- !app_assoc in *. cbn [app] in *.
    cbv zeta. repeat split; try assumption.
    + rewrite Hg', Hg1. cbn [length]. lia.
    + rewrite He', He1. reflexivity.
    + rewrite Hu', Hu1, <- app_assoc. reflexivity.
Qed.

End Cascade.

Section Rejection.

Context {Row : Type}.
Variable accepts : Z -> vec -> bool.
Variable ident : Row -> Z.
Variable embed : Row -> list string * option vec.

Lemma run_session_rejected (pre post : list Row) (bad : Row) (v : vec) :
  Forall (goes_through accepts ident embed) pre ->
  snd (embed bad) = Some v ->
  accepts (ident bad) v = false ->
  let run :=
    run_session record_write accepts ident embed (pre ++ bad :: post) [] in
  errors (fst run) = map ident (bad :: post)
  /\ map fst (updates (fst run)) = map ident pre
  /\ last (fst run) Commit = LogGenerated (length pre)
  /\ snd run
     = flat_map (written ident embed) (firstn (100 * (length pre / 100)) pre).
Proof.
  intros Hpre E Hrej. unfold run_session. cbv zeta. cbn [fst snd].
  rewrite session_for_each_app. cbn [Nat.add session_for_each].
  set (total := length (pre ++ bad :: post)).
  set (st0 := {| generated := 0;
                 events := [LogProcessing total];
                 conn := open_session [] |}).
  destruct (session_for_each_clean accepts ident embed total pre [] st0 Hpre
              eq_refl eq_refl eq_refl)
    as (Ha & Hp & Hd & Hg & He & Hu).
  cbn [app length] in *.
  set (st1 := session_for_each record_write accepts ident embed total 0 pre st0)
    in *.
  set (st2 := session_iteration record_write accepts ident embed total
                (length pre) bad st1).
  assert (Hstep :
    aborted (conn st2) = true
    /\ durable (conn st2) = durable (conn st1)
    /\ generated st2 = generated st1
    /\ events st2
       = events st1 ++ map Encode (fst (embed bad)) ++ [LogError (ident bad)]).
  { unfold st2, session_iteration. rewrite E. unfold execute_update.
    rewrite Ha, Hrej. cbn [fst snd]. repeat split; reflexivity. }
  destruct Hstep as (Ha2 & Hd2 & Hg2 & He2).
  destruct (session_for_each_aborted accepts ident embed record_write total
              post (S (length pre)) st2 Ha2)
    as (Hc3 & Hg3 & He3 & Hu3).
  set (st3 := session_for_each record_write accepts ident embed total
                (S (length pre)) post st2) in *.
  repeat split.
  - rewrite errors_app, He3, He2, !errors_app, errors_encode, He.
    cbn. rewrite app_nil_r. reflexivity.
  - rewrite updates_app, Hu3, He2, !updates_app, updates_encode.
    cbn [updates flat_map app]. rewrite !app_nil_r. rewrite Hu. reflexivity.
  - change (events st3 ++ [Commit; LogGenerated (generated st3)])
      with (events st3 ++ [Commit] ++ [LogGenerated (generated st3)]).
    rewrite app_assoc, last_last, Hg3, Hg2, Hg. reflexivity.
  - unfold commit. rewrite Hc3, Ha2, Hd2, Hd. reflexivity.
Qed.

End Rejection.

(** When the store rejects the UPDATE of one row, every later row of the
    run is reported as an error, whatever it is, because the handler does
    not roll back; the success counter stops at the rows before it; and the
    final commit leaves durable only the writes up to the last full hundred
    of those rows: none of them when fewer than 100 rows came before. *)
Theorem rejected_update_poisons_run {Row : Type} (accepts : Z -> vec -> bool)
    (ident : Row -> Z) (embed : Row -> list string * option vec)
    (pre post : list Row) (bad : Row) (v : vec) (t : @table Row) :
  Forall (goes_through accepts ident embed) pre ->
  snd (embed bad) = Some v ->
  accepts (ident bad) v = false ->
  let run :=
    run_session (update_embedding ident) accepts ident embed
      (pre ++ bad :: post) t in
  errors (fst run) = map ident (bad :: post)
  /\ map fst (updates (fst run)) = map ident pre
  /\ last (fst run) Commit = LogGenerated (length pre)
  /\ snd run
     = apply_updates ident
         (flat_map (written ident embed)
            (firstn (100 * (length pre / 100)) pre)) t
  /\ ((length pre < 100)%nat -> snd run = t).
Proof.
  intros Hpre E Hrej run. unfold run. rewrite run_session_table.
  cbn [fst snd]. unfold surviving_writes.
  destruct (run_session_rejected accepts ident embed pre post bad v Hpre E Hrej)
    as (He & Hu & Hl & Hs).
  rewrite Hs. repeat split; try assumption.
  intro Hlt. rewrite (Nat.div_small _ _ Hlt). reflexivity.
Qed.

Lemma rejected_update_poisons_run_witness :
  let pre := map (fun k => Sample.bare_user (Z.of_nat k)) (seq 1 119) in
  let bad := Sample.bare_user 120 in
  let post := map (fun k => Sample.bare_user (Z.of_nat k)) (seq 121 30) in
  let run :=
    run_session (update_embedding user_id) (Sample.execute_except 120)
      user_id (user_embed [] []) (pre ++ bad :: post)
      (Sample.bare_users 150) in
  errors (fst run) = map user_id (bad :: post)
  /\ map fst (updates (fst run)) = map user_id pre
  /\ last (fst run) Commit = LogGenerated (length pre)
  /\ snd run
     = apply_updates user_id
         (flat_map (written user_id (user_embed [] []))
            (firstn (100 * (length pre / 100)) pre))
         (Sample.bare_users 150).
Proof.
  intros pre bad post run.
  assert (Hpre : Forall (goes_through (Sample.execute_except 120) user_id
                           (user_embed [] [])) pre).
  { apply Forall_forall. intros r Hr. unfold pre in Hr.
    apply in_map_iff in Hr. destruct Hr as (k & <- & Hk).
    apply in_seq in Hk. eexists. split; [reflexivity |].
    unfold Sample.execute_except. cbn [user_id Sample.bare_user].
    destruct (Z.eqb_spec (Z.of_nat k) 120); [lia | reflexivity]. }
  destruct (rejected_update_poisons_run (Sample.execute_except 120) user_id
              (user_embed [] []) pre post bad _ (Sample.bare_users 150)
              Hpre eq_refl eq_refl)
    as (He & Hu & Hl & Hs & _).
  split; [exact He |]. split; [exact Hu |]. split; [exact Hl | exact Hs].
Defined.

(** ** A failure before the UPDATE *)

(** When exactly one row of a table fails while its vector is computed
    (the encoder or a normalizer raises, so no statement reaches the
    store) and the store accepts the UPDATE of every other row, the run
    logs one error, for that row, goes on with the rows after it, ends
    with a success counter of N - 1, and every other row durably holds the
    vector computed for it, the failed row what it held before. *)
Theorem embed_failure_isolated {Row : Type} (accepts : Z -> vec -> bool)
    (ident : Row -> Z) (embed : Row -> list string * option vec)
    (t : @table Row) (pre post : list Row) (bad : Row) :
  select_ordered ident t = pre ++ bad :: post ->
  NoDup (map (fun re => ident (fst re)) t) ->
  Forall (goes_through accepts ident embed) (pre ++ post) ->
  snd (embed bad) = None ->
  let run :=
    run_session (update_embedding ident) accepts ident embed
      (select_ordered ident t) t in
  errors (fst run) = [ident bad]
  /\ map fst (updates (fst run)) = map ident (pre ++ post)
  /\ last (fst run) Commit = LogGenerated (length t - 1)
  /\ snd run
     = map (fun re => match snd (embed (fst re)) with
                      | Some v => (fst re, Some v)
                      | None => re
                      end) t
  /\ Forall (fun re : Row * option vec =>
               fst re = bad
               \/ (snd re <> None /\ snd re = snd (embed (fst re))))
       (snd run).
Proof.
  intros Hrows Hnd Hok Hbad run.
  assert (Hin : forall r, In r (select_ordered ident t) ->
                          r = bad \/ In r (pre ++ post)).
  { intros r Hr. rewrite Hrows in Hr. apply in_app_or in Hr.
    destruct Hr as [Hr | [-> | Hr]];
      [right; apply in_or_app; left; exact Hr
      | left; reflexivity
      | right; apply in_or_app; right; exact Hr]. }
  assert (Hsel : forall re, In re t -> In (fst re) (select_ordered ident t)).
  { intros re Hre.
    apply (Permutation_in _
             (Permutation_sym (select_ordered_permutation ident t))).
    apply in_map. exact Hre. }
  assert (Hacc : forall r v, In r (select_ordered ident t) ->
                             snd (embed r) = Some v ->
                             accepts (ident r) v = true).
  { intros r v Hr E. destruct (Hin r Hr) as [-> | Hr']; [congruence |].
    rewrite Forall_forall in Hok. destruct (Hok r Hr') as (w & Ew & Hw).
    congruence. }
  assert (Hpre : Forall (fun r => succeeds embed r = true) pre
                 /\ Forall (fun r => succeeds embed r = true) post).
  { apply Forall_app. eapply Forall_impl; [| exact Hok].
    intros r (w & Ew & _). unfold succeeds. rewrite Ew. reflexivity. }
  destruct Hpre as [Hpre Hpost].
  assert (Hbad' : succeeds embed bad = false)
    by (unfold succeeds; rewrite Hbad; reflexivity).
  assert (Hgood : filter (succeeds embed) (select_ordered ident t)
                  = pre ++ post).
  { rewrite Hrows, filter_app. cbn [filter]. rewrite Hbad'.
    rewrite !filter_all by assumption. reflexivity. }
  assert (Hfail : filter (fun r => negb (succeeds embed r))
                    (select_ordered ident t) = [bad]).
  { rewrite Hrows, filter_app. cbn [filter]. rewrite Hbad'. cbn [negb].
    rewrite !filter_none by assumption. reflexivity. }
  assert (Hlen : length (pre ++ post) = (length t - 1)%nat).
  { pose proof (Permutation_length (select_ordered_permutation ident t)) as Hl.
    rewrite length_map, Hrows, length_app in Hl. cbn [length] in Hl.
    rewrite length_app. lia. }
  assert (Hstored : snd run
                    = map (fun re => match snd (embed (fst re)) with
                                     | Some v => (fst re, Some v)
                                     | None => re
                                     end) t).
  { apply (stored_after_accepted accepts ident embed t Hnd).
    intros re v Hre E. apply Hacc; [apply Hsel; exact Hre | exact E]. }
  assert (Htrace : fst run = run_batch ident embed (select_ordered ident t)).
  { unfold run. rewrite run_session_table. cbn [fst].
    rewrite (run_session_accepted accepts ident embed _ Hacc). reflexivity. }
  split; [rewrite Htrace, errors_run_batch, Hfail; reflexivity |].
  split; [rewrite Htrace, update_ids_run_batch, Hgood; reflexivity |].
  split; [rewrite Htrace, last_run_batch, Hgood, Hlen; reflexivity |].
  split; [exact Hstored |].
  rewrite Hstored. apply Forall_forall. intros re' Hre'.
  apply in_map_iff in Hre'. destruct Hre' as (re & <- & Hre).
  destruct (snd (embed (fst re))) as [v |] eqn:E.
  - right. cbn [fst snd]. rewrite E. split; [discriminate | reflexivity].
  - left. destruct (Hin (fst re) (Hsel re Hre)) as [Hb | Hr']; [exact Hb |].
    rewrite Forall_forall in Hok. destruct (Hok (fst re) Hr') as (w & Ew & _).
    congruence.
Qed.

Lemma embed_failure_isolated_witness :
  let movies :=
    [(Sample.toy_story, None); (Sample.untitled, None); (Sample.heat, None)] in
  let run :=
    movies_session (Sample.encode_except "Untitled general")
      Sample.execute_always movies in
  errors (fst run) = [2%Z]
  /\ last (fst run) Commit = LogGenerated 2
  /\ snd run
     = [ (Sample.toy_story, Some (combined_embedding [3; 4] Sample.toy_story));
         (Sample.untitled, None);
         (Sample.heat, Some (combined_embedding [3; 4] Sample.heat)) ].
Proof.
  intros movies run.
  destruct (embed_failure_isolated Sample.execute_always movie_id
              (movie_embed (Sample.encode_except "Untitled general"))
              movies [Sample.toy_story] [Sample.heat] Sample.untitled)
    as (He & _ & Hl & Hs & _).
  - reflexivity.
  - repeat constructor; simpl; intuition discriminate.
  - repeat constructor; eexists; split; reflexivity.
  - reflexivity.
  - split; [exact He |]. split; [exact Hl | exact Hs].
Defined.

(** ** The stored relations of the two generators *)

Lemma movies_after_stored (encode : string -> option vec)
    (execute_ok : Z -> vec -> bool) (movies : @table movie_row) :
  movies_after encode execute_ok movies
  = stored_after execute_ok movie_id (movie_embed encode) movies.
Proof. reflexivity. Qed.

Lemma users_after_stored (execute_ok : Z -> vec -> bool)
    (genre_prefs : list (Z * list (option R))) (users : @table user_row) :
  users_after execute_ok genre_prefs users
  = stored_after execute_ok user_id
      (user_embed (occupations_of (select_ordered user_id users)) genre_prefs)
      users.
Proof. reflexivity. Qed.

(** A [try] body that goes through computed its vector and had its UPDATE
    accepted. *)
Lemma movie_try_body_succeeds encode execute_ok (m : movie_row) :
  succeeds (movie_try_body encode execute_ok) m = true ->
  goes_through execute_ok movie_id (movie_embed encode) m.
Proof.
  unfold succeeds, movie_try_body, goes_through, movie_embed, persist.
  cbn [snd]. destruct (encode (text_for_embedding m)) as [e |];
    [| discriminate].
  destruct (execute_ok (movie_id m) (combined_embedding e m)) eqn:Eok;
    [| discriminate].
  intros _. eexists. split; [reflexivity | exact Eok].
Qed.

Lemma user_try_body_succeeds execute_ok occupations genre_pref_dict
    (u : user_row) :
  succeeds (user_try_body execute_ok occupations genre_pref_dict) u = true ->
  goes_through execute_ok user_id (user_embed occupations genre_pref_dict) u.
Proof.
  unfold succeeds, user_try_body, goes_through, user_embed, persist.
  cbn [snd]. destruct (user_embedding occupations genre_pref_dict u) as [v |];
    [| discriminate].
  destruct (execute_ok (user_id u) v) eqn:Eok; [| discriminate].
  intros _. eexists. split; [reflexivity | exact Eok].
Qed.

Lemma movie_embed_length encode (m : movie_row) :
  Forall (fun u => length (snd u) = 128%nat)
    (written movie_id (movie_embed encode) m).
Proof.
  unfold written, movie_embed. cbn [snd fst].
  destruct (encode (text_for_embedding m)) as [e |]; constructor;
    [| constructor].
  apply fuse_well_formed.
Qed.

Lemma user_embed_length occupations genre_pref_dict (u : user_row) :
  Forall (fun w => length (snd w) = 128%nat)
    (written user_id (user_embed occupations genre_pref_dict) u).
Proof.
  unfold written, user_embed. cbn [snd fst].
  destruct (user_embedding occupations genre_pref_dict u) as [v |] eqn:E;
    constructor; [| constructor].
  unfold user_embedding in E.
  destruct (user_features occupations genre_pref_dict u); [| discriminate].
  cbn [snd]. eapply fuse_user_well_formed. exact E.
Qed.

Section StoredShape.

Context {Row : Type}.
Variable accepts : Z -> vec -> bool.
Variable ident : Row -> Z.
Variable embed : Row -> list string * option vec.

Lemma stored_after_keeps (t : @table Row) :
  Forall2 (fun before after =>
             fst after = fst before
             /\ (snd before <> None -> snd after <> None))
    t (stored_after accepts ident embed t).
Proof. rewrite stored_after_eq. apply apply_updates_keeps. Qed.

Lemma stored_after_length (t : @table Row) :
  length (stored_after accepts ident embed t) = length t.
Proof.
  rewrite stored_after_eq, apply_updates_rows. apply length_map.
Qed.

(** When every row goes through, every row durably holds a vector. *)
Lemma stored_after_all_written (t : @table Row) :
  (forall re, In re t -> goes_through accepts ident embed (fst re)) ->
  (forall r, Forall (fun u => length (snd u) = 128%nat)
               (written ident embed r)) ->
  Forall (fun re : _ * option vec =>
     exists w : vec, snd re = Some w /\ length w = 128%nat)
    (stored_after accepts ident embed t).
Proof.
  intros Hok Hlen.
  assert (Hin : forall r, In r (select_ordered ident t) ->
                          exists re, In re t /\ fst re = r).
  { intros r Hr.
    apply (Permutation_in _ (select_ordered_permutation ident t)) in Hr.
    apply in_map_iff in Hr. destruct Hr as (re & <- & Hre).
    exists re. split; [exact Hre | reflexivity]. }
  rewrite stored_after_eq. unfold surviving_writes.
  rewrite run_session_accepted.
  - cbn [snd]. apply apply_updates_all_written; [| exact Hlen].
    intros re Hre. destruct (Hok re Hre) as (v & E & _).
    unfold succeeds. rewrite E. reflexivity.
  - intros r v Hr E. destruct (Hin r Hr) as (re & Hre & <-).
    destruct (Hok re Hre) as (w & Ew & Hw). congruence.
Qed.

(** Whatever the store rejects, a row durably holds what it held before
    the run or a vector of 128 entries. *)
Lemma stored_after_old_or_128 (t : @table Row) :
  (forall r, Forall (fun u => length (snd u) = 128%nat)
               (written ident embed r)) ->
  Forall2 (fun before after : Row * option vec =>
             snd after = snd before
             \/ exists w : vec, snd after = Some w /\ length w = 128%nat)
    t (stored_after accepts ident embed t).
Proof.
  intro Hlen. rewrite stored_after_eq, apply_updates_rows.
  apply Forall2_map_r. intros [r e] _. cbn [fst snd].
  destruct (final_embedding_cases ident
              (surviving_writes accepts ident embed (select_ordered ident t))
              r e) as [H | (u & Hu & _ & H)]; [left; exact H |].
  right. exists (snd u). split; [exact H |].
  apply surviving_writes_attempted in Hu.
  apply in_flat_map in Hu. destruct Hu as (r' & _ & Hu).
  specialize (Hlen r'). rewrite Forall_forall in Hlen. apply (Hlen u Hu).
Qed.

End StoredShape.

(** With distinct identifiers and a store that accepts the UPDATE of every
    computed vector, a run leaves each row whose vector was computed with
    that vector, and each row for which computing it raised with exactly
    what its embedding column held before the run. *)
Theorem stored_embeddings_after_run (encode : string -> option vec)
    (execute_ok : Z -> vec -> bool)
    (genre_prefs : list (Z * list (option R)))
    (movies : @table movie_row) (users : @table user_row) :
  NoDup (map (fun re => movie_id (fst re)) movies) ->
  NoDup (map (fun re => user_id (fst re)) users) ->
  (forall re v, In re movies ->
     snd (movie_embed encode (fst re)) = Some v ->
     execute_ok (movie_id (fst re)) v = true) ->
  (forall re v, In re users ->
     snd (user_embed (occupations_of (select_ordered user_id users))
            genre_prefs (fst re)) = Some v ->
     execute_ok (user_id (fst re)) v = true) ->
  movies_after encode execute_ok movies
  = map (fun re =>
           match snd (movie_embed encode (fst re)) with
           | Some v => (fst re, Some v)
           | None => re
           end) movies
  /\ users_after execute_ok genre_prefs users
     = map (fun re =>
              match snd (user_embed
                           (occupations_of (select_ordered user_id users))
                           genre_prefs (fst re)) with
              | Some v => (fst re, Some v)
              | None => re
              end) users.
Proof.
  intros Hm Hu Hom Hou. split.
  - rewrite movies_after_stored. apply stored_after_accepted; assumption.
  - rewrite users_after_stored. apply stored_after_accepted; assumption.
Qed.

Lemma stored_embeddings_after_run_witness :
  let encode := Sample.encode_except "Untitled general" in
  let movies := [(Sample.untitled, Some [1]); (Sample.toy_story, None)] in
  movies_after encode Sample.execute_always movies
  = [ (Sample.untitled, Some [1]);
      (Sample.toy_story, Some (combined_embedding [3; 4] Sample.toy_story)) ].
Proof.
  intros encode movies.
  destruct (stored_embeddings_after_run encode Sample.execute_always []
              movies (Sample.bare_users 2)) as [Hm _].
  - repeat constructor; simpl; intuition discriminate.
  - repeat constructor; simpl; intuition discriminate.
  - reflexivity.
  - reflexivity.
  - rewrite Hm. reflexivity.
Defined.

(** A run never adds, removes or reorders rows, never touches a raw
    column, and never turns a stored embedding back into NULL. *)
Theorem run_preserves_rows (encode : string -> option vec)
    (execute_ok : Z -> vec -> bool)
    (genre_prefs : list (Z * list (option R)))
    (movies : @table movie_row) (users : @table user_row) :
  Forall2 (fun before after =>
             fst after = fst before
             /\ (snd before <> None -> snd after <> None))
    movies (movies_after encode execute_ok movies)
  /\ Forall2 (fun before after =>
                fst after = fst before
                /\ (snd before <> None -> snd after <> None))
       users (users_after execute_ok genre_prefs users).
Proof.
  split; [rewrite movies_after_stored | rewrite users_after_stored];
    apply stored_after_keeps.
Qed.


(** ** The verifier after a run *)

(** After a run in which no row failed, the verifier reports for each
    non-empty table that all N of its N rows have an embedding, that the
    average stored length is 128, and samples of length 128 only. *)
Theorem verify_after_clean_run (encode : string -> option vec)
    (execute_ok : Z -> vec -> bool)
    (genre_prefs : list (Z * list (option R)))
    (movies : @table movie_row) (users : @table user_row) :
  movies <> [] -> users <> [] ->
  (forall re, In re movies ->
     succeeds (movie_try_body encode execute_ok) (fst re) = true) ->
  (forall re, In re users ->
     succeeds (user_try_body execute_ok
                 (occupations_of (select_ordered user_id users)) genre_prefs)
       (fst re) = true) ->
  let report :=
    verify_embeddings (movies_after encode execute_ok movies)
      (users_after execute_ok genre_prefs users) in
  movie_stats report
  = {| total_rows := length movies;
       rows_with_embeddings := length movies;
       avg_embedding_dim := Some 128 |}
  /\ user_stats report
     = {| total_rows := length users;
          rows_with_embeddings := length users;
          avg_embedding_dim := Some 128 |}
  /\ Forall (fun s => snd s = Some 128%nat) (movie_samples report)
  /\ Forall (fun s => snd s = Some 128%nat) (user_samples report).
Proof.
  intros Hmne Hune Hm Hu report.
  assert (Am : Forall
            (fun re : _ * option vec =>
     exists w : vec, snd re = Some w /\ length w = 128%nat)
            (movies_after encode execute_ok movies)).
  { rewrite movies_after_stored. apply stored_after_all_written.
    - intros re Hre. apply movie_try_body_succeeds, Hm, Hre.
    - intro r. apply movie_embed_length. }
  assert (Au : Forall
            (fun re : _ * option vec =>
     exists w : vec, snd re = Some w /\ length w = 128%nat)
            (users_after execute_ok genre_prefs users)).
  { rewrite users_after_stored. apply stored_after_all_written.
    - intros re Hre. apply user_try_body_succeeds, Hu, Hre.
    - intro r. apply user_embed_length. }
  assert (Lm : length (movies_after encode execute_ok movies) = length movies)
    by (rewrite movies_after_stored; apply stored_after_length).
  assert (Lu : length (users_after execute_ok genre_prefs users) = length users)
    by (rewrite users_after_stored; apply stored_after_length).
  unfold report, verify_embeddings.
  cbn [movie_stats user_stats movie_samples user_samples].
  split; [| split; [| split]].
  - rewrite stats_all_128, Lm; [reflexivity | | exact Am].
    intro H. rewrite H in Lm. destruct movies; [contradiction | discriminate].
  - rewrite stats_all_128, Lu; [reflexivity | | exact Au].
    intro H. rewrite H in Lu. destruct users; [contradiction | discriminate].
  - apply samples_all_128. exact Am.
  - apply samples_all_128. exact Au.
Qed.

Lemma verify_after_clean_run_witness :
  let report :=
    verify_embeddings
      (movies_after (Sample.encode_except "") Sample.execute_always
         [(Sample.toy_story, None); (Sample.heat, Some [1])])
      (users_after Sample.execute_always [] (Sample.bare_users 2)) in
  movie_stats report
  = {| total_rows := 2; rows_with_embeddings := 2;
       avg_embedding_dim := Some 128 |}
  /\ user_stats report
     = {| total_rows := 2; rows_with_embeddings := 2;
          avg_embedding_dim := Some 128 |}.
Proof.
  destruct (verify_after_clean_run (Sample.encode_except "")
              Sample.execute_always []
              [(Sample.toy_story, None); (Sample.heat, Some [1])]
              (Sample.bare_users 2)) as (Hm & Hu & _ & _).
  - discriminate.
  - discriminate.
  - intros re [<- | [<- | []]]; reflexivity.
  - intros re [<- | [<- | []]]; reflexivity.
  - split; [exact Hm | exact Hu].
Defined.

(** Across a run the verifier's row count stays the same and its count of
    rows with an embedding never goes down. *)
Theorem embedding_counts_never_drop (encode : string -> option vec)
    (execute_ok : Z -> vec -> bool)
    (genre_prefs : list (Z * list (option R)))
    (movies : @table movie_row) (users : @table user_row) :
  let before := verify_embeddings movies users in
  let after :=
    verify_embeddings (movies_after encode execute_ok movies)
      (users_after execute_ok genre_prefs users) in
  total_rows (movie_stats after) = total_rows (movie_stats before)
  /\ total_rows (user_stats after) = total_rows (user_stats before)
  /\ (rows_with_embeddings (movie_stats before)
      <= rows_with_embeddings (movie_stats after)
      <= total_rows (movie_stats after))%nat
  /\ (rows_with_embeddings (user_stats before)
      <= rows_with_embeddings (user_stats after)
      <= total_rows (user_stats after))%nat.
Proof.
  intros before after. unfold before, after, verify_embeddings, embedding_stats.
  cbn [movie_stats user_stats total_rows rows_with_embeddings].
  rewrite movies_after_stored, users_after_stored.
  split; [apply stored_after_length |].
  split; [apply stored_after_length |].
  split; (split; [apply has_embedding_count_le, stored_after_keeps
                 | apply has_embedding_count_bound]).
Qed.

(** ** Length of what is written *)

Section SessionWrites.

Context {Store Row : Type}.
Variable write : Z -> vec -> Store -> Store.
Variable accepts : Z -> vec -> bool.
Variable ident : Row -> Z.
Variable embed : Row -> list string * option vec.

(** Every UPDATE issued on the session carries the identifier of a row and
    the vector computed for it. *)
Lemma session_for_each_updates total rows :
  forall i (st : @session_state Store),
    incl (updates (events (session_for_each write accepts ident embed
                             total i rows st)))
      (updates (events st) ++ flat_map (written ident embed) rows).
Proof.
  induction rows as [| r rows IH]; intros i st.
  - cbn. rewrite app_nil_r. apply incl_refl.
  - cbn [session_for_each flat_map].
    assert (Hstep :
      incl (updates (events (session_iteration write accepts ident embed
                               total i r st)))
        (updates (events st) ++ written ident embed r)).
    { unfold session_iteration, written.
      destruct (snd (embed r)) as [v |].
      - destruct (fst (execute_update write accepts (ident r) v (conn st)));
          cbn [events]; rewrite !updates_app, updates_encode.
        + destruct ((i + 1) mod 100 =? 0)%nat; cbn; apply incl_refl.
        + cbn. rewrite app_nil_r. apply incl_appl, incl_refl.
      - cbn [events]. rewrite !updates_app, updates_encode. cbn.
        apply incl_refl. }
    intros u Hu. apply IH in Hu. apply in_app_or in Hu.
    rewrite app_assoc. apply in_or_app.
    destruct Hu as [Hu | Hu]; [left; apply Hstep; exact Hu | right; exact Hu].
Qed.

Lemma run_session_updates rows s0 :
  incl (updates (fst (run_session write accepts ident embed rows s0)))
    (flat_map (written ident embed) rows).
Proof.
  unfold run_session. cbn [fst]. rewrite updates_app. cbn. rewrite app_nil_r.
  intros u Hu. apply session_for_each_updates in Hu. exact Hu.
Qed.

End SessionWrites.

(** Every vector either generator sends to the store has exactly 128
    entries, and after a run every row holds what it held before or a
    vector of 128 entries: for every encoder, every table content and
    whatever the store accepts or rejects.  Only the lengths of the lists
    enter, no arithmetic on their entries. *)
Theorem written_vectors_have_128_entries (encode : string -> option vec)
    (execute_ok : Z -> vec -> bool)
    (genre_prefs : list (Z * list (option R)))
    (movies : @table movie_row) (users : @table user_row) :
  Forall (fun u => length (snd u) = 128%nat)
    (updates (generate_movie_embeddings encode execute_ok movies))
  /\ Forall (fun u => length (snd u) = 128%nat)
       (updates (generate_user_embeddings execute_ok genre_prefs users))
  /\ Forall (fun u => length (snd u) = 128%nat)
       (updates (fst (movies_session encode execute_ok movies)))
  /\ Forall (fun u => length (snd u) = 128%nat)
       (updates (fst (users_session execute_ok genre_prefs users)))
  /\ Forall2 (fun before after : movie_row * option vec =>
                snd after = snd before
                \/ exists w : vec, snd after = Some w /\ length w = 128%nat)
       movies (movies_after encode execute_ok movies)
  /\ Forall2 (fun before after : user_row * option vec =>
                snd after = snd before
                \/ exists w : vec, snd after = Some w /\ length w = 128%nat)
       users (users_after execute_ok genre_prefs users).
Proof.
  unfold generate_movie_embeddings, generate_user_embeddings.
  rewrite !updates_run_batch.
  split; [apply Forall_flat_map; intros x _; apply movie_written_length |].
  split; [apply Forall_flat_map; intros x _; apply user_written_length |].
  split.
  { apply Forall_forall. intros u Hu.
    apply run_session_updates, in_flat_map in Hu.
    destruct Hu as (m & _ & Hu).
    pose proof (movie_embed_length encode m) as H.
    rewrite Forall_forall in H. apply (H u Hu). }
  split.
  { apply Forall_forall. intros u Hu.
    apply run_session_updates, in_flat_map in Hu.
    destruct Hu as (r & _ & Hu).
    pose proof (user_embed_length
                  (occupations_of (select_ordered user_id users))
                  genre_prefs r) as H.
    rewrite Forall_forall in H. apply (H u Hu). }
  split.
  - rewrite movies_after_stored. apply stored_after_old_or_128.
    intro r. apply movie_embed_length.
  - rewrite users_after_stored. apply stored_after_old_or_128.
    intro r. apply user_embed_length.
Qed.

(** ** The loop with the outcomes of the run *)

Section Outcomes.

Context {Store Row : Type}.
Variable write : Z -> vec -> Store -> Store.
Variable accepts : Z -> vec -> bool.
Variable ident : Row -> Z.
Variable embed : Row -> list string * option vec.

Lemma returned_ids_rows a (rows : list Row) :
  incl (returned_ids accepts ident embed a rows) (map ident rows).
Proof.
  revert a. induction rows as [| r rows IH]; intro a; [apply incl_refl |].
  cbn [returned_ids map]. destruct (snd (embed r)) as [v |].
  - destruct a; [apply incl_tl, IH |].
    destruct (accepts (ident r) v); [| apply incl_tl, IH].
    apply incl_cons; [left; reflexivity | apply incl_tl, IH].
  - apply incl_tl, IH.
Qed.

Lemma iteration_returns (ok : Z -> vec -> bool) total i r so v :
  snd (embed r) = Some v -> ok (ident r) v = true ->
  iteration ident (with_persist ok ident embed) total i r so
  = {| embeddings_generated := S (embeddings_generated so);
       trace :=
         trace so ++ map Encode (fst (embed r))
           ++ [UpdateEmbedding (ident r) v]
           ++ (if ((i + 1) mod 100 =? 0)%nat
               then [LogProgress (i + 1) total; Commit]
               else []) |}.
Proof.
  intros E H. unfold iteration, with_persist, persist. cbn [fst snd].
  rewrite E, H. reflexivity.
Qed.

Lemma iteration_raises (ok : Z -> vec -> bool) total i r so :
  (forall v, snd (embed r) = Some v -> ok (ident r) v = false) ->
  iteration ident (with_persist ok ident embed) total i r so
  = {| embeddings_generated := embeddings_generated so;
       trace := trace so ++ map Encode (fst (embed r))
                  ++ [LogError (ident r)] |}.
Proof.
  intro H. unfold iteration, with_persist, persist. cbn [fst snd].
  destruct (snd (embed r)) as [v |]; [| reflexivity].
  rewrite (H v eq_refl). reflexivity.
Qed.

Lemma session_iteration_returns total i r (st : @session_state Store) v :
  snd (embed r) = Some v -> aborted (conn st) = false ->
  accepts (ident r) v = true ->
  let st' := session_iteration write accepts ident embed total i r st in
  generated st' = S (generated st)
  /\ events st'
     = events st ++ map Encode (fst (embed r))
         ++ [UpdateEmbedding (ident r) v]
         ++ (if ((i + 1) mod 100 =? 0)%nat
             then [LogProgress (i + 1) total; Commit]
             else [])
  /\ aborted (conn st') = false.
Proof.
  intros E Ha Hok. unfold session_iteration. rewrite E.
  destruct st as [g ev [d p a]]. cbn [conn aborted] in Ha. subst a.
  unfold execute_update. cbn [conn aborted pending durable generated events].
  rewrite Hok. cbn [fst snd generated events conn].
  repeat split.
  destruct ((i + 1) mod 100 =? 0)%nat; reflexivity.
Qed.

Lemma session_iteration_raises total i r (st : @session_state Store) :
  (forall v, snd (embed r) = Some v ->
             aborted (conn st) = true \/ accepts (ident r) v = false) ->
  let st' := session_iteration write accepts ident embed total i r st in
  generated st' = generated st
  /\ events st'
     = events st ++ map Encode (fst (embed r)) ++ [LogError (ident r)]
  /\ aborted (conn st')
     = match snd (embed r) with
       | Some _ => true
       | None => aborted (conn st)
       end.
Proof.
  intro H. unfold session_iteration.
  destruct (snd (embed r)) as [v |]; [| repeat split].
  destruct st as [g ev [d p a]].
  unfold execute_update. cbn [conn aborted pending durable generated events].
  destruct a; [repeat split |].
  destruct (H v eq_refl) as [Ha | Hrej]; [discriminate Ha |].
  rewrite Hrej. repeat split.
Qed.

Lemma session_for_each_as_batch (ok : Z -> vec -> bool) total rows :
  forall i (ss : @session_state Store) (so : run_state),
    NoDup (map ident rows) ->
    (forall k v, In k (returned_ids accepts ident embed (aborted (conn ss)) rows)
                 -> ok k v = true) ->
    (forall r v, In r rows ->
       ~ In (ident r)
           (returned_ids accepts ident embed (aborted (conn ss)) rows) ->
       ok (ident r) v = false) ->
    generated ss = embeddings_generated so ->
    events ss = trace so ->
    let ss' := session_for_each write accepts ident embed total i rows ss in
    let so' :=
      for_each ident (with_persist ok ident embed) total i rows so in
    generated ss' = embeddings_generated so' /\ events ss' = trace so'.
Proof.
  induction rows as [| r rows IH]; intros i ss so Hnd Hyes Hno Hg He;
    [split; assumption |].
  inversion Hnd as [| ? ? Hr Hrest]; subst.
  cbn [session_for_each for_each].
  assert (Hfresh : forall a,
            ~ In (ident r) (returned_ids accepts ident embed a rows)).
  { intros a Hin. apply Hr. apply (returned_ids_rows a rows). exact Hin. }
  assert (Hother : forall r', In r' rows -> ident r' <> ident r).
  { intros r' Hr' Heq. apply Hr. rewrite <- Heq. apply in_map. exact Hr'. }
  cbn [returned_ids] in Hyes, Hno.
  destruct (snd (embed r)) as [v |] eqn:E.
  - destruct (aborted (conn ss)) eqn:Ea.
    + (* the transaction is already aborted *)
      destruct (session_iteration_raises total i r ss) as (Hg1 & He1 & Ha1).
      { intros w _. left. exact Ea. }
      rewrite E in Ha1.
      rewrite iteration_raises.
      2:{ intros w Ew. apply Hno; [left; reflexivity | apply Hfresh]. }
      apply IH; try assumption.
      * rewrite Ha1. exact Hyes.
      * rewrite Ha1. intros r' v' Hr' Hn.
        apply Hno; [right; exact Hr' | exact Hn].
      * rewrite Hg1. exact Hg.
      * rewrite He1, He. reflexivity.
    + destruct (accepts (ident r) v) eqn:Eacc.
      * destruct (session_iteration_returns total i r ss v E Ea Eacc)
          as (Hg1 & He1 & Ha1).
        rewrite (iteration_returns ok total i r so v E)
          by (apply Hyes; left; reflexivity).
        apply IH; try assumption.
        -- rewrite Ha1. intros k v' Hk. apply Hyes. right. exact Hk.
        -- rewrite Ha1. intros r' v' Hr' Hn.
           apply Hno; [right; exact Hr' |].
           intros [Heq | Hin]; [| exact (Hn Hin)].
           apply (Hother r' Hr'). symmetry. exact Heq.
        -- rewrite Hg1, Hg. reflexivity.
        -- rewrite He1, He. reflexivity.
      * destruct (session_iteration_raises total i r ss) as (Hg1 & He1 & Ha1).
        { intros w Ew. right. congruence. }
        rewrite E in Ha1.
        rewrite iteration_raises.
        2:{ intros w Ew. apply Hno; [left; reflexivity | apply Hfresh]. }
        apply IH; try assumption.
        -- rewrite Ha1. exact Hyes.
        -- rewrite Ha1. intros r' v' Hr' Hn.
           apply Hno; [right; exact Hr' | exact Hn].
        -- rewrite Hg1. exact Hg.
        -- rewrite He1, He. reflexivity.
  - destruct (session_iteration_raises total i r ss) as (Hg1 & He1 & Ha1).
    { intros w Ew. congruence. }
    rewrite E in Ha1.
    rewrite iteration_raises by (intros w Ew; congruence).
    apply IH; try assumption.
    + rewrite Ha1. exact Hyes.
    + rewrite Ha1. intros r' v' Hr' Hn.
      apply Hno; [right; exact Hr' | exact Hn].
    + rewrite Hg1. exact Hg.
    + rewrite He1, He. reflexivity.
Qed.

(** With distinct identifiers, the events of a run on the session are those
    of the loop in which each [cursor.execute] has the outcome it has in
    that run. *)
Lemma run_session_as_batch rows (s0 : Store) :
  NoDup (map ident rows) ->
  fst (run_session write accepts ident embed rows s0)
  = run_batch ident
      (with_persist (outcome_in_run accepts ident embed rows) ident embed)
      rows.
Proof.
  intro Hnd. unfold run_session, run_batch. cbn [fst].
  destruct (session_for_each_as_batch
              (outcome_in_run accepts ident embed rows) (length rows) rows 0
              {| generated := 0;
                 events := [LogProcessing (length rows)];
                 conn := open_session s0 |}
              {| embeddings_generated := 0;
                 trace := [LogProcessing (length rows)] |} Hnd)
    as [Hg He]; try reflexivity.
  - intros k v Hk. unfold outcome_in_run. apply existsb_exists.
    exists k. split; [exact Hk | apply Z.eqb_refl].
  - intros r v _ Hn. unfold outcome_in_run.
    destruct (existsb (Z.eqb (ident r))
                (returned_ids accepts ident embed false rows)) eqn:Ex;
      [| reflexivity].
    exfalso. apply Hn. apply existsb_exists in Ex.
    destruct Ex as (k & Hk & Heq). apply Z.eqb_eq in Heq. subst k. exact Hk.
  - cbv zeta in Hg, He. rewrite Hg, He. reflexivity.
Qed.

End Outcomes.

Lemma movie_try_body_with_persist encode execute_ok (m : movie_row) :
  movie_try_body encode execute_ok m
  = with_persist execute_ok movie_id (movie_embed encode) m.
Proof.
  unfold movie_try_body, with_persist, movie_embed. cbn [fst snd].
  destruct (encode (text_for_embedding m)); reflexivity.
Qed.

Lemma user_try_body_with_persist execute_ok occupations genre_pref_dict
    (u : user_row) :
  user_try_body execute_ok occupations genre_pref_dict u
  = with_persist execute_ok user_id (user_embed occupations genre_pref_dict) u.
Proof. reflexivity. Qed.

Lemma NoDup_select_ordered {Row : Type} (ident : Row -> Z) (t : @table Row) :
  NoDup (map (fun re => ident (fst re)) t) ->
  NoDup (map ident (select_ordered ident t)).
Proof.
  intro Hnd.
  apply (Permutation_NoDup
           (Permutation_sym
              (Permutation_map ident (select_ordered_permutation ident t)))).
  rewrite map_map. exact Hnd.
Qed.

(** With distinct identifiers, the events of each generator on the store
    are those of its loop with the outcomes the [cursor.execute] calls
    have in that run. *)
Lemma generators_on_session (encode : string -> option vec)
    (accepts : Z -> vec -> bool)
    (genre_prefs : list (Z * list (option R)))
    (movies : @table movie_row) (users : @table user_row) :
  NoDup (map (fun re => movie_id (fst re)) movies) ->
  NoDup (map (fun re => user_id (fst re)) users) ->
  fst (movies_session encode accepts movies)
  = generate_movie_embeddings encode
      (outcome_in_run accepts movie_id (movie_embed encode)
         (select_ordered movie_id movies))
      movies
  /\ fst (users_session accepts genre_prefs users)
     = generate_user_embeddings
         (outcome_in_run accepts user_id
            (user_embed (occupations_of (select_ordered user_id users))
               genre_prefs)
            (select_ordered user_id users))
         genre_prefs users.
Proof.
  intros Hm Hu. split.
  - unfold movies_session, generate_movie_embeddings.
    rewrite run_session_as_batch by (apply NoDup_select_ordered; exact Hm).
    apply run_batch_ext. intros m _. symmetry.
    apply movie_try_body_with_persist.
  - unfold users_session, generate_user_embeddings. cbv zeta.
    rewrite run_session_as_batch by (apply NoDup_select_ordered; exact Hu).
    reflexivity.
Qed.
